(** * Verification of the rename-prediction metric engine

    A shallow embedding of [src/data/calculate_performance_metrics.py]:
    the identifier tokenizer, the Levenshtein routine, the single-prediction
    evaluator, the best-of-five selection, the batch aggregation and the
    entry point, followed by the properties the specification states about
    them.

    Modelling conventions.
    - A Python [str] is the list of its code points ([str := list N]).
    - A Python [int] is a [Z]; a Python [float] is a rational [Q] on which
      every arithmetic operation is followed by the rounding operator [rnd]
      of the runtime.  [binary64] is the rounding of CPython (IEEE-754
      round-to-nearest, ties to even), [exact_arithmetic] the identity; the
      properties that depend on rounding are proved for every rounding that
      is [faithful_rounding], and both are.
    - What the interpreter provides and the repository does not define (the
      Unicode tables behind [\w], [str.split] and [str.lower], [str()] of a
      value that is not a string, the rounding of floats) is a field of the
      classes [Unicode], [Repr] and [Float].
    - A raised exception is the [Raise] branch of the [result] monad. *)

From Stdlib Require Import ZArith QArith Qround Qpower Qreduction Qabs Lqa Ascii String.
From stdpp Require Import base option list gmap.

Local Open Scope Z_scope.

(** ** Python strings *)

Definition str : Type := list N.

(** The code points of an ASCII literal. *)
Definition lit (s : string) : str := map N_of_ascii (list_ascii_of_string s).

Definition in_range (lo hi c : N) : bool := ((lo <=? c) && (c <=? hi))%N.

(** The ASCII ranges the regular expressions of the tokenizer spell out. *)
Definition upper_AZ (c : N) : bool := in_range 65 90 c.
Definition lower_az (c : N) : bool := in_range 97 122 c.
Definition digit_09 (c : N) : bool := in_range 48 57 c.
Definition letter_azAZ (c : N) : bool := lower_az c || upper_AZ c.
Definition lower_or_digit (c : N) : bool := lower_az c || digit_09 c.

Definition space : N := 32%N.
Definition underscore : N := 95%N.

(** The interpreter's Unicode database: [str.isalnum] on one character,
    the whitespace test of [str.split()], and [str.lower] (which is not
    character-wise: its result may differ in length and depends on context). *)
Class Unicode := {
  isalnum : N -> bool;
  isspace : N -> bool;
  lower : str -> str
}.

(** The ASCII block of these tables. *)
Definition ascii_isalnum (c : N) : bool := digit_09 c || letter_azAZ c.
Definition ascii_isspace (c : N) : bool :=
  in_range 9 13 c || in_range 28 32 c.
Definition ascii_lower_char (c : N) : N := if upper_AZ c then (c + 32)%N else c.

Definition is_ascii (c : N) : bool := (c <? 128)%N.

(** A runtime agrees with CPython on ASCII text. *)
Definition ascii_compatible (U : Unicode) : Prop :=
  (forall c, is_ascii c = true -> isalnum c = ascii_isalnum c) /\
  (forall c, is_ascii c = true -> isspace c = ascii_isspace c) /\
  (forall s, forallb is_ascii s = true -> lower s = map ascii_lower_char s).

(** The tables restricted to ASCII: every other code point is neither
    alphanumeric nor a space and is left alone by [lower]. *)
Definition ascii_unicode : Unicode := {|
  isalnum c := is_ascii c && ascii_isalnum c;
  isspace c := is_ascii c && ascii_isspace c;
  lower s := map ascii_lower_char s
|}.

(** ** The fragment of [re] the tokenizer uses *)

Module Re.

(** A character class, once ([[...]]) or one or more times ([[...]+]). *)
Inductive atom :=
| One (cls : N -> bool)
| Many (cls : N -> bool).

(** A pattern is a sequence of atoms, bare or inside a capturing group. *)
Inductive piece :=
| Bare (a : atom)
| Group (atoms : list atom).

Definition pattern := list piece.

(** A replacement template: literal text and back-references [\n]. *)
Inductive titem :=
| Lit (s : str)
| Ref (n : nat).

Section Matcher.
Context {R : Type}.

(** [cls+], greedy: take as many characters as possible and give one back
    at a time while the rest of the pattern fails. *)
Fixpoint match_many (cls : N -> bool) (s seen : str)
    (k : str -> str -> option R) : option R :=
  match s with
  | c :: s' =>
      if cls c then
        match match_many cls s' (seen ++ [c]) k with
        | Some r => Some r
        | None => k (seen ++ [c]) s'
        end
      else None
  | [] => None
  end.

Fixpoint match_atoms (atoms : list atom) (s seen : str)
    (k : str -> str -> option R) : option R :=
  match atoms with
  | [] => k seen s
  | One cls :: rest =>
      match s with
      | c :: s' => if cls c then match_atoms rest s' (seen ++ [c]) k else None
      | [] => None
      end
  | Many cls :: rest =>
      match_many cls s seen (fun seen' s' => match_atoms rest s' seen' k)
  end.

Fixpoint match_pieces (ps : pattern) (s : str) (caps : list str)
    (k : list str -> str -> option R) : option R :=
  match ps with
  | [] => k caps s
  | Bare a :: rest =>
      match_atoms [a] s [] (fun _ s' => match_pieces rest s' caps k)
  | Group atoms :: rest =>
      match_atoms atoms s []
        (fun cap s' => match_pieces rest s' (caps ++ [cap]) k)
  end.
End Matcher.

(** A match anchored at the start of [s]: the captures and what follows. *)
Definition match_at (p : pattern) (s : str) : option (list str * str) :=
  match_pieces p s [] (fun caps rest => Some (caps, rest)).

Definition expand (repl : list titem) (caps : list str) : str :=
  concat (map (fun t => match t with
                        | Lit s => s
                        | Ref n => nth (pred n) caps []
                        end) repl).

(** [re.sub(p, repl, s)]: leftmost matches, not overlapping.  [skip] counts
    the characters of the last match still to be passed over; every pattern
    of the tokenizer consumes at least one character. *)
Fixpoint sub_from (p : pattern) (repl : list titem) (s : str) (skip : nat) : str :=
  match s with
  | [] => []
  | c :: s' =>
      match skip with
      | S n => sub_from p repl s' n
      | O =>
          match match_at p s with
          | Some (caps, rest) =>
              expand repl caps
                ++ sub_from p repl s' (length s - length rest - 1)%nat
          | None => c :: sub_from p repl s' 0
          end
      end
  end.

Definition sub (p : pattern) (repl : list titem) (s : str) : str :=
  sub_from p repl s 0.

End Re.

(** ** [IdentifierTokenizer] *)

Module IdentifierTokenizer.
Import Re.

Section Tokenizer.
Context {U : Unicode}.

(** [\w] on [str] patterns: alphanumeric or underscore. *)
Definition word_char (c : N) : bool := isalnum c || (c =? underscore)%N.

(** [str.replace(old, new)] for one-character [old]. *)
Definition replace_char (old new : N) (s : str) : str :=
  map (fun c => if (c =? old)%N then new else c) s.

(** [str.split()]: cut at runs of whitespace, no empty piece. *)
Fixpoint split_from (s cur : str) : list str :=
  match s with
  | [] => match cur with [] => [] | _ => [cur] end
  | c :: s' =>
      if isspace c then
        match cur with
        | [] => split_from s' []
        | _ => cur :: split_from s' []
        end
      else split_from s' (cur ++ [c])
  end.

Definition split (s : str) : list str := split_from s [].

Definition spaced : list titem := [Ref 1; Lit [space]; Ref 2].

(* 1. re.sub(r'[^\w]', ' ', identifier) *)
Definition strip_non_word (s : str) : str :=
  sub [Bare (One (fun c => negb (word_char c)))] [Lit [space]] s.

(* 2. .replace("_", " ") *)
Definition strip_underscores (s : str) : str := replace_char underscore space s.

(* 3. re.sub(r'([A-Z]+)([A-Z][a-z])', r'\1 \2', ...) *)
Definition split_acronyms (s : str) : str :=
  sub [Group [Many upper_AZ]; Group [One upper_AZ; One lower_az]] spaced s.

(* 4. re.sub(r'([a-z0-9])([A-Z])', r'\1 \2', ...) *)
Definition split_camel (s : str) : str :=
  sub [Group [One lower_or_digit]; Group [One upper_AZ]] spaced s.

(* 5. re.sub(r'([0-9])([a-zA-Z])', ...) then re.sub(r'([a-zA-Z])([0-9])', ...) *)
Definition split_digit_letter (s : str) : str :=
  sub [Group [One digit_09]; Group [One letter_azAZ]] spaced s.
Definition split_letter_digit (s : str) : str :=
  sub [Group [One letter_azAZ]; Group [One digit_09]] spaced s.

(** The string after steps 1 to 5. *)
Definition clean_identifier (identifier : str) : str :=
  split_letter_digit
    (split_digit_letter
       (split_camel
          (split_acronyms
             (strip_underscores (strip_non_word identifier))))).

Definition tokenize (identifier : str) : list str :=
  match identifier with
  | [] => []
  | _ => map lower (split (clean_identifier identifier))
  end.
End Tokenizer.

End IdentifierTokenizer.

(** ** Exceptions *)

Inductive exn :=
| ValueError
| TypeError
| AttributeError
| IndexError
| KeyError
| ZeroDivisionError.

Inductive result (A : Type) :=
| Ok (a : A)
| Raise (e : exn).
Arguments Ok {A} a.
Arguments Raise {A} e.

#[global] Instance result_ret : MRet result := fun _ a => Ok a.
#[global] Instance result_bind : MBind result := fun _ _ f m =>
  match m with
  | Ok a => f a
  | Raise e => Raise e
  end.

(** [l[i]] for [0 <= i] and [l[-1]]. *)
Definition index {A} (l : list A) (i : nat) : result A :=
  match l !! i with
  | Some x => Ok x
  | None => Raise IndexError
  end.

Definition index_last {A} (l : list A) : result A :=
  match last l with
  | Some x => Ok x
  | None => Raise IndexError
  end.

Definition len {A} (l : list A) : Z := Z.of_nat (length l).

(** ** [StringDistanceCalculator] *)

Module StringDistanceCalculator.

(** [range(n)] as a list. *)
Definition range (n : nat) : list Z := map Z.of_nat (seq 0 n).

(** The [int] value of [c1 != c2]. *)
Definition differ (c1 c2 : N) : Z := if (c1 =? c2)%N then 0 else 1.

(** [for j, c2 in enumerate(s2)], from index [j] on. *)
Fixpoint inner_loop (c1 : N) (previous_row : list Z) (j : nat) (s2 : str)
    (current_row : list Z) : result (list Z) :=
  match s2 with
  | [] => Ok current_row
  | c2 :: rest =>
      p1 ← index previous_row (j + 1);
      let insertions := p1 + 1 in
      c0 ← index current_row j;
      let deletions := c0 + 1 in
      p0 ← index previous_row j;
      let substitutions := p0 + differ c1 c2 in
      inner_loop c1 previous_row (S j) rest
        (current_row ++ [Z.min insertions (Z.min deletions substitutions)])
  end.

(** [for i, c1 in enumerate(s1)], from index [i] on. *)
Fixpoint outer_loop (i : nat) (s1 s2 : str) (previous_row : list Z)
    : result (list Z) :=
  match s1 with
  | [] => Ok previous_row
  | c1 :: rest =>
      current_row ← inner_loop c1 previous_row 0 s2 [Z.of_nat i + 1];
      outer_loop (S i) rest s2 current_row
  end.

(** The body below the swap guard. *)
Definition levenshtein_rows (s1 s2 : str) : result Z :=
  if len s2 =? 0 then Ok (len s1)
  else
    previous_row ← outer_loop 0 s1 s2 (range (length s2 + 1));
    index_last previous_row.

(** The guard re-enters the function once with the longer string first. *)
Definition calculate_levenshtein_distance (s1 s2 : str) : result Z :=
  if len s1 <? len s2 then levenshtein_rows s2 s1
  else levenshtein_rows s1 s2.

End StringDistanceCalculator.

(** ** Edit scripts: the reference notion of Levenshtein distance *)

Module Levenshtein.

(** [edit a b n]: [a] is turned into [b] by a left-to-right script of
    single-character operations of total cost [n]; keeping a character is
    free, an insertion, a deletion and a substitution cost 1 each. *)
Inductive edit : str -> str -> Z -> Prop :=
| edit_done : edit [] [] 0
| edit_keep c a b n : edit a b n -> edit (c :: a) (c :: b) n
| edit_substitute c d a b n : c <> d -> edit a b n -> edit (c :: a) (d :: b) (n + 1)
| edit_delete c a b n : edit a b n -> edit (c :: a) b (n + 1)
| edit_insert d a b n : edit a b n -> edit a (d :: b) (n + 1).

(** The classic recurrence. *)
Fixpoint lev (a : str) : str -> Z :=
  match a with
  | [] => fun b => len b
  | c :: a' =>
      fix lev_row (b : str) : Z :=
        match b with
        | [] => len a
        | d :: b' =>
            Z.min (lev a' b + 1)
              (Z.min (lev_row b' + 1)
                 (lev a' b' + StringDistanceCalculator.differ c d))
        end
  end.

(** [d] is the least cost of a script from [a] to [b]. *)
Definition distance_is (a b : str) (d : Z) : Prop :=
  edit a b d /\ forall n, edit a b n -> d <= n.

(** The rows of the table: entry [k] of the row of [A] is the distance
    from [A] to the first [k] characters of [s2], both read backwards. *)
Definition partial_row (A s2 : str) (j : nat) : list Z :=
  map (fun k => lev A (rev (take k s2))) (seq 0 (S j)).

Definition row_of (A s2 : str) : list Z := partial_row A s2 (length s2).

End Levenshtein.

(** ** Floats *)

(** The rounding of the interpreter's float arithmetic. *)
Class Float := { rnd : Q -> Q }.

(** What the proofs need of it: rounding is monotone, leaves 0 and 1 alone,
    and leaves a rounded value alone. *)
Definition faithful_rounding (F : Float) : Prop :=
  (forall x y, (x <= y)%Q -> (rnd x <= rnd y)%Q) /\
  (rnd 0 == 0)%Q /\ (rnd 1 == 1)%Q /\
  (forall x, (rnd (rnd x) == rnd x)%Q).

Definition exact_arithmetic : Float := {| rnd q := q |}.

(** Round-to-nearest, ties to even, on binary64: 53 bits of precision, least
    exponent -1074 (the subnormal numbers included), no largest exponent: no
    value of this program comes near the overflow threshold. *)
Module Binary64.

Definition emin : Z := -1074.

(** The integral part of the binary logarithm of a positive rational. *)
Definition ilog2 (q : Q) : Z :=
  let k := Z.log2 (Qnum q) - Z.log2 (Zpos (Qden q)) in
  if Qle_bool (2 ^ k) q then k else k - 1.

(** The nearest integer, ties to even. *)
Definition rint (s : Q) : Z :=
  let f := Qfloor s in
  match (s - inject_Z f ?= 1 # 2)%Q with
  | Lt => f
  | Gt => f + 1
  | Eq => if Z.even f then f else f + 1
  end.

Definition round_core (x : Q) : Q :=
  if Qeq_bool x 0 then 0%Q
  else
    let e := ilog2 (Qabs x) in
    let c := Z.max (e - 52) emin in
    (inject_Z (rint (x / 2 ^ c)) * 2 ^ c)%Q.

(** The rounding, on a fraction and to a fraction in lowest terms. *)
Definition round64 (q : Q) : Q := Qred (round_core (Qred q)).

Definition representable (q : Q) : Prop :=
  exists m e, Z.abs m < 2 ^ 53 /\ emin <= e /\ (q == inject_Z m * 2 ^ e)%Q.

End Binary64.

Definition binary64 : Float := {| rnd := Binary64.round64 |}.

Section FloatOps.
Context {F : Float}.

Definition fadd (x y : Q) : Q := rnd (x + y).
Definition fsub (x y : Q) : Q := rnd (x - y).
Definition fmul (x y : Q) : Q := rnd (x * y).

(** [x / y] on floats. *)
Definition fdiv (x y : Q) : result Q :=
  if Qeq_bool y 0 then Raise ZeroDivisionError else Ok (rnd (x / y)).

(** [a / b] on ints: true division, correctly rounded. *)
Definition truediv (a b : Z) : result Q :=
  if b =? 0 then Raise ZeroDivisionError
  else Ok (rnd (inject_Z a / inject_Z b)).
End FloatOps.

(** ** [MetricResult] *)

Record MetricResult := {
  exact_match : Z;
  edit_similarity : Q;
  token_precision : Q;
  token_recall : Q;
  token_f1 : Q
}.

Module MetricResult_.
(** [MetricResult.empty()] *)
Definition empty : MetricResult :=
  {| exact_match := 0; edit_similarity := 0; token_precision := 0;
     token_recall := 0; token_f1 := 0 |}.
End MetricResult_.

(** ** [collections.Counter] *)

Module Counter.

(** [c[elem]]: a missing element counts 0. *)
Definition get (c : gmap str Z) (elem : str) : Z := default 0 (c !! elem).

(** [Counter(iterable)] *)
Definition of_list (l : list str) : gmap str Z :=
  foldl (fun c elem => <[elem := get c elem + 1]> c) ∅ l.

(** [self & other]: the least of the two counts, kept when positive. *)
Definition and_ (self other : gmap str Z) : gmap str Z :=
  map_imap (fun elem count =>
              let other_count := get other elem in
              let newcount := if count <? other_count then count else other_count in
              if 0 <? newcount then Some newcount else None) self.

(** [sum(c.values())] *)
Definition total (c : gmap str Z) : Z :=
  map_fold (fun _ count acc => acc + count) 0 c.

End Counter.

(** ** [StringDistanceCalculator.calculate_similarity] *)

Section Similarity.
Context {F : Float}.
Import StringDistanceCalculator.

Definition calculate_similarity (s1 s2 : str) : result Q :=
  if decide (s1 = s2) then Ok 1%Q
  else
    let max_length := Z.max (len s1) (len s2) in
    if max_length =? 0 then Ok 1%Q
    else
      distance ← calculate_levenshtein_distance s1 s2;
      ratio ← truediv distance max_length;
      Ok (fsub 1 ratio).
End Similarity.

(** ** [RenamePredictionEvaluator] *)

Module RenamePredictionEvaluator.

Record t := {
  ground_truth : str;
  prediction : str;
  _gt_counts : gmap str Z;
  _pred_counts : gmap str Z;
  _intersection : gmap str Z;
  _intersection_total : Z;
  _pred_total : Z;
  _gt_total : Z
}.

Section Evaluator.
Context {U : Unicode} {F : Float}.

(** [__init__] *)
Definition new (ground_truth prediction : str) : t :=
  let gt_tokens_list := IdentifierTokenizer.tokenize ground_truth in
  let pred_tokens_list := IdentifierTokenizer.tokenize prediction in
  let gt_counts := Counter.of_list gt_tokens_list in
  let pred_counts := Counter.of_list pred_tokens_list in
  let intersection := Counter.and_ gt_counts pred_counts in
  {| ground_truth := ground_truth;
     prediction := prediction;
     _gt_counts := gt_counts;
     _pred_counts := pred_counts;
     _intersection := intersection;
     _intersection_total := Counter.total intersection;
     _pred_total := Counter.total pred_counts;
     _gt_total := Counter.total gt_counts |}.

Definition _calculate_exact_match (self : t) : Z :=
  if decide (ground_truth self = prediction self) then 1 else 0.

Definition _calculate_edit_similarity (self : t) : result Q :=
  calculate_similarity (ground_truth self) (prediction self).

Definition _calculate_token_precision (self : t) : result Q :=
  if _pred_total self =? 0 then Ok 0%Q
  else truediv (_intersection_total self) (_pred_total self).

Definition _calculate_token_recall (self : t) : result Q :=
  if _gt_total self =? 0 then Ok 0%Q
  else truediv (_intersection_total self) (_gt_total self).

Definition _calculate_token_f1 (self : t) : result Q :=
  if (_gt_total self =? 0) && (_pred_total self =? 0) then Ok 1%Q
  else
    p ← _calculate_token_precision self;
    r ← _calculate_token_recall self;
    if Qeq_bool (fadd p r) 0 then Ok 0%Q
    else fdiv (fmul 2 (fmul p r)) (fadd p r).

Definition evaluate (self : t) : result MetricResult :=
  let em := _calculate_exact_match self in
  es ← _calculate_edit_similarity self;
  tp ← _calculate_token_precision self;
  tr ← _calculate_token_recall self;
  f1 ← _calculate_token_f1 self;
  Ok {| exact_match := em; edit_similarity := es; token_precision := tp;
        token_recall := tr; token_f1 := f1 |}.

(** [RenamePredictionEvaluator(ground_truth, prediction).evaluate()] *)
Definition run (ground_truth prediction : str) : result MetricResult :=
  evaluate (new ground_truth prediction).
End Evaluator.

End RenamePredictionEvaluator.

(** ** JSON values *)

#[warnings="-register-all"]
Inductive json :=
| JNull
| JBool (b : bool)
| JInt (z : Z)
| JFloat (q : Q)
| JStr (s : str)
| JList (l : list json)
| JDict (d : gmap str json).

(** [str(v)] for a decoded value that is not a string. *)
Class Repr := { repr : json -> str }.

Section Builtins.
Context {P : Repr}.

(** [str(v)] *)
Definition py_str (v : json) : str :=
  match v with
  | JStr s => s
  | _ => repr v
  end.

(** [len(v)] *)
Definition py_len (v : json) : result Z :=
  match v with
  | JList l => Ok (len l)
  | JStr s => Ok (len s)
  | JDict d => Ok (Z.of_nat (size d))
  | _ => Raise TypeError
  end.

(** The items [for item in v] visits: the elements of a list, the characters
    of a string, the keys of a dict (in the order of the map; it plays no part
    below, a key is a string and has no [get]). *)
Definition py_iter (v : json) : result (list json) :=
  match v with
  | JList l => Ok l
  | JStr s => Ok (map (fun c => JStr [c]) s)
  | JDict d => Ok (map (fun kv => JStr kv.1) (map_to_list d))
  | _ => Raise TypeError
  end.

(** [v.get(key, dflt)]: only a dict has the method. *)
Definition py_get (v : json) (key : str) (dflt : json) : result json :=
  match v with
  | JDict d => Ok (default dflt (d !! key))
  | _ => Raise AttributeError
  end.

(** [v[key]] for a string key. *)
Definition py_getitem (v : json) (key : str) : result json :=
  match v with
  | JDict d =>
      match d !! key with
      | Some x => Ok x
      | None => Raise KeyError
      end
  | _ => Raise TypeError
  end.

Fixpoint starts_with (p s : str) : bool :=
  match p, s with
  | [], _ => true
  | c :: p', d :: s' => (c =? d)%N && starts_with p' s'
  | _ :: _, [] => false
  end.

Fixpoint occurs_in (p s : str) : bool :=
  starts_with p s ||
  match s with
  | [] => false
  | _ :: s' => occurs_in p s'
  end.

(** [key in v] for a string key: a key of a dict, an element of a list, a
    substring of a string. *)
Definition py_contains (v : json) (key : str) : result bool :=
  match v with
  | JDict d => Ok (bool_decide (is_Some (d !! key)))
  | JList l =>
      Ok (existsb (fun x => match x with
                            | JStr s => bool_decide (s = key)
                            | _ => false
                            end) l)
  | JStr s => Ok (occurs_in key s)
  | _ => Raise TypeError
  end.

(** [l[:limit]] *)
Definition slice_to {A} (l : list A) (limit : Z) : list A :=
  if limit <? 0 then take (length l - Z.to_nat (- limit)) l
  else take (Z.to_nat limit) l.
End Builtins.

(** The keys of the documents. *)
Definition k_results : str := lit "results".
Definition k_new_name : str := lit "new_name".
Definition k_suggestions : str := lit "suggestions".
Definition k_name : str := lit "name".
Definition k_performance_metrics : str := lit "performance_metrics".
Definition k_top_1 : str := lit "top_1_performance_metrics".
Definition k_top_5 : str := lit "top_5_performance_metrics".
Definition k_aggregate : str := lit "aggregate_performance_metrics".
Definition k_exact_match : str := lit "exact_match".
Definition k_edit_similarity : str := lit "edit_similarity".
Definition k_token_precision : str := lit "token_precision".
Definition k_token_recall : str := lit "token_recall".
Definition k_token_f1 : str := lit "token_f1".

(** What the program prints (the progress bar left out). *)
Inductive message :=
| msg_file_missing
| msg_decode_failed
| msg_traceback (e : exn)
| msg_unexpected (e : exn)
| msg_starting (total_items : Z)
| msg_null_name (item_index sugg_index : Z)
| msg_malformed (item_index sugg_index : Z)
| msg_aggregate_header
| msg_aggregates (averages : json)
| msg_saved.

(** ** Numbers in the accumulators *)

(** A value of an accumulator is an [int] until a [float] is added to it. *)
Inductive num :=
| Int (z : Z)
| Flt (q : Q).

Section Num.
Context {F : Float}.

(** [float(n)] *)
Definition of_int (n : Z) : Q := rnd (inject_Z n).

Definition to_float (a : num) : Q :=
  match a with
  | Int z => of_int z
  | Flt q => q
  end.

(** [a + b] *)
Definition num_add (a b : num) : num :=
  match a, b with
  | Int x, Int y => Int (x + y)
  | _, _ => Flt (fadd (to_float a) (to_float b))
  end.

(** [a / n] for an int [n] *)
Definition num_truediv (a : num) (n : Z) : result num :=
  match a with
  | Int x => q ← truediv x n; Ok (Flt q)
  | Flt x => q ← fdiv x (of_int n); Ok (Flt q)
  end.
End Num.

Definition num_json (a : num) : json :=
  match a with
  | Int z => JInt z
  | Flt q => JFloat q
  end.

(** A dict with the five metric keys. *)
Record metric_dict := {
  d_exact_match : num;
  d_edit_similarity : num;
  d_token_precision : num;
  d_token_recall : num;
  d_token_f1 : num
}.

Definition metric_dict_json (m : metric_dict) : json :=
  JDict (<[k_exact_match := num_json (d_exact_match m)]>
        (<[k_edit_similarity := num_json (d_edit_similarity m)]>
        (<[k_token_precision := num_json (d_token_precision m)]>
        (<[k_token_recall := num_json (d_token_recall m)]>
        (<[k_token_f1 := num_json (d_token_f1 m)]> ∅))))).

(** [dataclasses.asdict(metric)] *)
Definition asdict (m : MetricResult) : metric_dict :=
  {| d_exact_match := Int (exact_match m);
     d_edit_similarity := Flt (edit_similarity m);
     d_token_precision := Flt (token_precision m);
     d_token_recall := Flt (token_recall m);
     d_token_f1 := Flt (token_f1 m) |}.

(** A dict with the two tier keys. *)
Record tiers := {
  top_1_performance_metrics : metric_dict;
  top_5_performance_metrics : metric_dict
}.

Definition tiers_json (t : tiers) : json :=
  JDict (<[k_top_1 := metric_dict_json (top_1_performance_metrics t)]>
        (<[k_top_5 := metric_dict_json (top_5_performance_metrics t)]> ∅)).

(** ** [BatchResultProcessor] *)

Module BatchResultProcessor.

Record accumulators_t := {
  top_1 : metric_dict;
  top_5 : metric_dict
}.

Record t := {
  full_json_data : json;
  results : json;
  total_items : Z;
  accumulators : accumulators_t
}.

(** What [process] returns and what it leaves behind: the items as
    mutated in place, the accumulators, and the lines printed. *)
Record processed := {
  final_output : json;
  aggregates : tiers;
  items_after : list json;
  accumulators_after : accumulators_t;
  printed : list message
}.

Section Processor.
Context {U : Unicode} {F : Float} {P : Repr}.

Definition _init_zero_metrics : metric_dict :=
  {| d_exact_match := Int 0;
     d_edit_similarity := Flt 0;
     d_token_precision := Flt 0;
     d_token_recall := Flt 0;
     d_token_f1 := Flt 0 |}.

(** [__init__] *)
Definition new (json_data : json) : result t :=
  results ← py_get json_data k_results (JList []);
  total_items ← py_len results;
  Ok {| full_json_data := json_data;
        results := results;
        total_items := total_items;
        accumulators := {| top_1 := _init_zero_metrics;
                           top_5 := _init_zero_metrics |} |}.

(** The answer and the warning printed, if any. *)
Definition _is_valid_suggestion (suggestion : json) (item_index sugg_index : Z)
    (warn : bool) : bool * list message :=
  match suggestion with
  | JDict d =>
      match d !! k_name with
      | Some JNull =>
          (false, if warn then [msg_null_name item_index sugg_index] else [])
      | Some _ => (true, [])
      | None =>
          (false, if warn then [msg_malformed item_index sugg_index] else [])
      end
  | _ => (false, if warn then [msg_malformed item_index sugg_index] else [])
  end.

(** [for i, sugg in enumerate(...)], from index [i] on. *)
Fixpoint collect_valid (suggestions : list json) (item_index : Z) (i : nat)
    (valid_names : list str) : result (list str) :=
  match suggestions with
  | [] => Ok valid_names
  | sugg :: rest =>
      if (_is_valid_suggestion sugg item_index (Z.of_nat i) false).1 then
        name ← py_getitem sugg k_name;
        collect_valid rest item_index (S i) (valid_names ++ [py_str name])
      else collect_valid rest item_index (S i) valid_names
  end.

Definition _extract_valid_candidates (suggestions : json) (item_index : Z)
    (limit : Z) : result (list str) :=
  match suggestions with
  | JList l => collect_valid (slice_to l limit) item_index 0 []
  | _ => Ok []
  end.

(** The key of the selection and [>] on such tuples: the first pair of
    components that differ decides. *)
Definition key (res : MetricResult) : Q * Z * Q * Q :=
  (token_f1 res, exact_match res, edit_similarity res, token_precision res).

Definition Qgtb (x y : Q) : bool := negb (Qle_bool x y).

Definition key_gt (a b : Q * Z * Q * Q) : bool :=
  let '(a1, a2, a3, a4) := a in
  let '(b1, b2, b3, b4) := b in
  if negb (Qeq_bool a1 b1) then Qgtb a1 b1
  else if negb (a2 =? b2) then a2 >? b2
  else if negb (Qeq_bool a3 b3) then Qgtb a3 b3
  else if negb (Qeq_bool a4 b4) then Qgtb a4 b4
  else false.

(** [max(iterable, key=key)] past the first item: a later item replaces
    the current one only when its key is greater. *)
Fixpoint max_from (maxitem : MetricResult) (rest : list MetricResult)
    : MetricResult :=
  match rest with
  | [] => maxitem
  | item :: rest' =>
      if key_gt (key item) (key maxitem) then max_from item rest'
      else max_from maxitem rest'
  end.

Definition _determine_best_candidate (results : list MetricResult)
    : MetricResult :=
  match results with
  | [] => MetricResult_.empty
  | first :: rest => max_from first rest
  end.

Definition _update_accumulator (acc : metric_dict) (metric : MetricResult)
    : metric_dict :=
  let m := asdict metric in
  {| d_exact_match := num_add (d_exact_match acc) (d_exact_match m);
     d_edit_similarity := num_add (d_edit_similarity acc) (d_edit_similarity m);
     d_token_precision := num_add (d_token_precision acc) (d_token_precision m);
     d_token_recall := num_add (d_token_recall acc) (d_token_recall m);
     d_token_f1 := num_add (d_token_f1 acc) (d_token_f1 m) |}.

(** [{k: v / self.total_items for k, v in acc.items()}] *)
Definition get_avg_dict (acc : metric_dict) (total_items : Z)
    : result metric_dict :=
  em ← num_truediv (d_exact_match acc) total_items;
  es ← num_truediv (d_edit_similarity acc) total_items;
  tp ← num_truediv (d_token_precision acc) total_items;
  tr ← num_truediv (d_token_recall acc) total_items;
  f1 ← num_truediv (d_token_f1 acc) total_items;
  Ok {| d_exact_match := em; d_edit_similarity := es;
        d_token_precision := tp; d_token_recall := tr; d_token_f1 := f1 |}.

Definition _calculate_final_averages (total_items : Z)
    (accumulators : accumulators_t) : result tiers :=
  if total_items =? 0 then
    let zero_metrics := _init_zero_metrics in
    Ok {| top_1_performance_metrics := zero_metrics;
          top_5_performance_metrics := zero_metrics |}
  else
    a1 ← get_avg_dict (top_1 accumulators) total_items;
    a5 ← get_avg_dict (top_5 accumulators) total_items;
    Ok {| top_1_performance_metrics := a1;
          top_5_performance_metrics := a5 |}.

(** [for pred in valid_candidates: top_5_results.append(...)] *)
Fixpoint evaluate_all (ground_truth : str) (valid_candidates : list str)
    : result (list MetricResult) :=
  match valid_candidates with
  | [] => Ok []
  | pred :: rest =>
      m ← RenamePredictionEvaluator.run ground_truth pred;
      ms ← evaluate_all ground_truth rest;
      Ok (m :: ms)
  end.

(** The top-1 metric of one record and the warning for its first slot. *)
Definition top_1_of (ground_truth : str) (raw_suggestions : json) (index : Z)
    : result (MetricResult * list message) :=
  match raw_suggestions with
  | JList (first_suggestion :: _) =>
      let '(valid, warning) := _is_valid_suggestion first_suggestion index 0 true in
      if valid then
        name ← py_getitem first_suggestion k_name;
        m ← RenamePredictionEvaluator.run ground_truth (py_str name);
        Ok (m, warning)
      else Ok (MetricResult_.empty, warning)
  | _ => Ok (MetricResult_.empty, [])
  end.

(** The top-5 metric of one record. *)
Definition top_5_of (ground_truth : str) (raw_suggestions : json) (index : Z)
    : result MetricResult :=
  valid_candidates ← _extract_valid_candidates raw_suggestions index 5;
  top_5_results ← evaluate_all ground_truth valid_candidates;
  Ok (_determine_best_candidate top_5_results).

(** [item["performance_metrics"] = {...}] *)
Definition attach (item : json) (top_1_metric top_5_metric : MetricResult)
    : result json :=
  match item with
  | JDict d =>
      Ok (JDict (<[k_performance_metrics :=
                    tiers_json {| top_1_performance_metrics := asdict top_1_metric;
                                  top_5_performance_metrics := asdict top_5_metric |}]> d))
  | _ => Raise TypeError
  end.

(** The ground truth of a record. *)
Definition ground_truth_of (item : json) : result str :=
  raw_gt_val ← py_get item k_new_name JNull;
  Ok (match raw_gt_val with
      | JNull => []
      | v => py_str v
      end).

(** One turn of the loop of [process]: the record as mutated, its two
    metrics, and the warning printed. *)
Definition process_item (index : Z) (item : json)
    : result (json * MetricResult * MetricResult * list message) :=
  ground_truth ← ground_truth_of item;
  raw_suggestions ← py_get item k_suggestions (JList []);
  '(top_1_metric, warning) ← top_1_of ground_truth raw_suggestions index;
  top_5_metric ← top_5_of ground_truth raw_suggestions index;
  item' ← attach item top_1_metric top_5_metric;
  Ok (item', top_1_metric, top_5_metric, warning).

(** [for index, item in enumerate(self.results)], from [index] on. *)
Fixpoint process_loop (index : nat) (items : list json) (acc : accumulators_t)
    : result (list json * accumulators_t * list message) :=
  match items with
  | [] => Ok ([], acc, [])
  | item :: rest =>
      '(item', top_1_metric, top_5_metric, warning) ←
        process_item (Z.of_nat index) item;
      let acc' := {| top_1 := _update_accumulator (top_1 acc) top_1_metric;
                     top_5 := _update_accumulator (top_5 acc) top_5_metric |} in
      '(rest', acc'', warnings) ← process_loop (S index) rest acc';
      Ok (item' :: rest', acc'', warning ++ warnings)
  end.

Definition process (self : t) : result processed :=
  items ← py_iter (results self);
  '(items', acc, warnings) ← process_loop 0 items (accumulators self);
  aggregates ← _calculate_final_averages (total_items self) acc;
  let final_output := JDict {[ k_aggregate := tiers_json aggregates ]} in
  Ok {| final_output := final_output;
        aggregates := aggregates;
        items_after := items';
        accumulators_after := acc;
        printed := msg_starting (total_items self) :: warnings |}.
End Processor.

End BatchResultProcessor.

(** ** The entry point *)

(** What is found at the path given on the command line. *)
Inductive input_file :=
| Missing
| Undecodable
| Document (data : json).

(** What a run leaves: the exit status, the lines printed, the document
    written next to the input, and, when the run completes, the decoded
    document as it stands in memory (its records are mutated in place by
    [process]).  When an exception ends the run, [stdout] holds the lines of
    the handler only. *)
Record outcome := {
  exit_code : Z;
  stdout : list message;
  written : option json;
  in_memory : option json
}.

Section Main.
Context {U : Unicode} {F : Float} {P : Repr}.

(** The document after the records it holds were mutated. *)
Definition document_after (data : json) (items' : list json) : json :=
  match data with
  | JDict d =>
      match d !! k_results with
      | Some (JList _) => JDict (<[k_results := JList items']> d)
      | _ => data
      end
  | _ => data
  end.

(** The body of the [try] block once the document is decoded. *)
Definition try_body (data : json) : result (BatchResultProcessor.processed * json) :=
  present ← py_contains data k_results;
  if negb present then Raise ValueError
  else
    processor ← BatchResultProcessor.new data;
    out ← BatchResultProcessor.process processor;
    Ok (out, document_after data (BatchResultProcessor.items_after out)).

Definition main (file : input_file) : outcome :=
  match file with
  | Missing =>
      {| exit_code := 1; stdout := [msg_file_missing];
         written := None; in_memory := None |}
  | Undecodable =>
      {| exit_code := 0; stdout := [msg_decode_failed];
         written := None; in_memory := None |}
  | Document data =>
      match try_body data with
      | Ok (out, data') =>
          {| exit_code := 0;
             stdout := BatchResultProcessor.printed out
                         ++ [msg_aggregate_header;
                             msg_aggregates
                               (tiers_json (BatchResultProcessor.aggregates out));
                             msg_saved];
             written := Some (BatchResultProcessor.final_output out);
             in_memory := Some data' |}
      | Raise e =>
          {| exit_code := 0; stdout := [msg_traceback e; msg_unexpected e];
             written := None; in_memory := None |}
      end
  end.
End Main.

(** A [str()] for the values that are not strings, enough to run examples:
    decimal digits for an int, the keyword for the constants, and the empty
    string for floats and containers. *)
Fixpoint digits_of (fuel : nat) (n : Z) (acc : str) : str :=
  match fuel with
  | O => acc
  | S fuel' =>
      let acc' := Z.to_N (48 + n mod 10) :: acc in
      if n / 10 =? 0 then acc' else digits_of fuel' (n / 10) acc'
  end.

Definition decimal (z : Z) : str :=
  if z <? 0 then 45%N :: digits_of (Z.to_nat (Z.log2 (- z)) + 1) (- z) []
  else digits_of (Z.to_nat (Z.log2 z) + 1) z [].

Definition sample_repr : Repr := {|
  repr v :=
    match v with
    | JNull => lit "None"
    | JBool true => lit "True"
    | JBool false => lit "False"
    | JInt z => decimal z
    | _ => []
    end
|}.

(** ** The reference definitions of the specification *)

Module Reference.

(** A TokenBag: the number of occurrences of [t] among the tokens. *)
Fixpoint bag (tokens : list str) (t : str) : Z :=
  match tokens with
  | [] => 0
  | x :: rest => (if decide (x = t) then 1 else 0) + bag rest t
  end.

(** Every token of either string, once. *)
Definition vocabulary (g p : list str) : list str := remove_dups (g ++ p).

Definition sum_over (f : str -> Z) (ts : list str) : Z :=
  foldr (fun t acc => f t + acc) 0 ts.

Section Tokens.
Context {F : Float}.
Variables g p : list str.

(** [I], [|P|] and [|G|] *)
Definition common : Z :=
  sum_over (fun t => Z.min (bag g t) (bag p t)) (vocabulary g p).
Definition size_P : Z := sum_over (bag p) (vocabulary g p).
Definition size_G : Z := sum_over (bag g) (vocabulary g p).

Definition precision : Q :=
  if 0 <? size_P then rnd (inject_Z common / inject_Z size_P) else 0%Q.

Definition recall : Q :=
  if 0 <? size_G then rnd (inject_Z common / inject_Z size_G) else 0%Q.

Definition f1 : Q :=
  if (size_G =? 0) && (size_P =? 0) then 1%Q
  else if Qeq_bool (rnd (precision + recall)) 0 then 0%Q
  else rnd (rnd (2 * rnd (precision * recall)) / rnd (precision + recall)).
End Tokens.

(** The name a suggestion carries when it is valid: an object whose
    [name] is present and not null. *)
Definition valid_name {P : Repr} (sugg : json) : option str :=
  match sugg with
  | JDict d =>
      match d !! k_name with
      | Some JNull | None => None
      | Some v => Some (py_str v)
      end
  | _ => None
  end.

(** The selection as the specification words it: scan the whole list in
    rank order, skip what is invalid, stop at [cap] valid candidates. *)
Definition scan_valid {P : Repr} (suggestions : list json) (cap : nat) : list str :=
  take cap (omap valid_name suggestions).

(** The order of the selection: [a] ranks below [b]. *)
Definition ranks_below (a b : MetricResult) : Prop :=
  (token_f1 a < token_f1 b)%Q \/
  ((token_f1 a == token_f1 b)%Q /\
   (exact_match a < exact_match b \/
    (exact_match a = exact_match b /\
     ((edit_similarity a < edit_similarity b)%Q \/
      ((edit_similarity a == edit_similarity b)%Q /\
       (token_precision a < token_precision b)%Q))))).

(** [a] and [b] have the same four-field key. *)
Definition ties_with (a b : MetricResult) : Prop :=
  (token_f1 a == token_f1 b)%Q /\ exact_match a = exact_match b /\
  (edit_similarity a == edit_similarity b)%Q /\
  (token_precision a == token_precision b)%Q.

(** The running sum of one float field, in input order. *)
Definition accumulated {F : Float} (field : MetricResult -> Q)
    (ms : list MetricResult) : Q :=
  foldl (fun acc m => fadd acc (field m)) 0%Q ms.

Definition accumulated_int (field : MetricResult -> Z)
    (ms : list MetricResult) : Z :=
  foldl (fun acc m => acc + field m) 0 ms.

(** The accumulator of one tier after the metrics [ms] were folded in. *)
Definition sums {F : Float} (ms : list MetricResult) : metric_dict :=
  {| d_exact_match := Int (accumulated_int exact_match ms);
     d_edit_similarity := Flt (accumulated edit_similarity ms);
     d_token_precision := Flt (accumulated token_precision ms);
     d_token_recall := Flt (accumulated token_recall ms);
     d_token_f1 := Flt (accumulated token_f1 ms) |}.

(** An accumulated field divided by the record count. *)
Definition share {F : Float} (total : Z) (a : num) : num :=
  match a with
  | Int x => Flt (rnd (inject_Z x / inject_Z total))
  | Flt x => Flt (rnd (x / rnd (inject_Z total)))
  end.

Definition averaged {F : Float} (total : Z) (acc : metric_dict) : metric_dict :=
  {| d_exact_match := share total (d_exact_match acc);
     d_edit_similarity := share total (d_edit_similarity acc);
     d_token_precision := share total (d_token_precision acc);
     d_token_recall := share total (d_token_recall acc);
     d_token_f1 := share total (d_token_f1 acc) |}.

(** The all-zero averages. *)
Definition zero_averages : metric_dict :=
  {| d_exact_match := Int 0; d_edit_similarity := Flt 0; d_token_precision := Flt 0;
     d_token_recall := Flt 0; d_token_f1 := Flt 0 |}.

(** A record is a JSON object. *)
Definition is_object (v : json) : bool :=
  match v with
  | JDict _ => true
  | _ => false
  end.

End Reference.

(** The record list of a document, when it has one. *)
Definition records_of (doc : json) : option (list json) :=
  match doc with
  | JDict d =>
      match d !! k_results with
      | Some (JList l) => Some l
      | _ => None
      end
  | _ => None
  end.

(** ** Sample documents *)

Definition named (s : string) : json := JDict {[ k_name := JStr (lit s) ]}.

(* {"results": [{"new_name": "userId",
                 "suggestions": [{"name": "userID"}, {"name": "uId"}]}]} *)
Definition sample_record : json :=
  JDict (<[k_new_name := JStr (lit "userId")]>
        (<[k_suggestions := JList [named "userID"; named "uId"]]> ∅)).
Definition sample_document : json := JDict {[ k_results := JList [sample_record] ]}.

(* [null, {"name": "a"}, {"name": "b"}, {"name": "c"}, {"name": "d"}, {"name": "e"}] *)
Definition null_then_five : list json :=
  [JNull; named "a"; named "b"; named "c"; named "d"; named "e"].

(** ** Closed forms used in the proofs *)

Module Closed.

Definition unit_interval (q : Q) : Prop := (0 <= q /\ q <= 1)%Q.

Section Similarity.
Context {F : Float}.

(** The value [calculate_similarity] returns. *)
Definition similarity_value (s1 s2 : str) : Q :=
  if decide (s1 = s2) then 1%Q
  else if Z.max (len s1) (len s2) =? 0 then 1%Q
  else rnd (1 - rnd (inject_Z (Levenshtein.lev s1 s2)
                      / inject_Z (Z.max (len s1) (len s2)))).

End Similarity.

(** [a] ranks below [b] or ties with it. *)
Definition at_most (a b : MetricResult) : Prop :=
  Reference.ranks_below a b \/ Reference.ties_with a b.

(** One turn of the loop of [process] on the accumulators. *)
Definition fold_in {F : Float} (acc : BatchResultProcessor.accumulators_t)
    (m : MetricResult * MetricResult) : BatchResultProcessor.accumulators_t :=
  {| BatchResultProcessor.top_1 :=
       BatchResultProcessor._update_accumulator (BatchResultProcessor.top_1 acc) m.1;
     BatchResultProcessor.top_5 :=
       BatchResultProcessor._update_accumulator (BatchResultProcessor.top_5 acc) m.2 |}.

End Closed.

(** ** [ConsoleProgressBar] *)

Module ConsoleProgressBar.

Record t := {
  total_items : Z;
  bar_length : Z;
  start_time : Q
}.

(** What one call of [update] writes: the bar between the brackets, the
    percentage, the two counts, and the elapsed time before it is
    formatted. *)
Record line := {
  bar : str;
  percent : Z;
  current : Z;
  total : Z;
  elapsed : Q
}.

Definition hash : N := 35%N.
Definition dash : N := 45%N.

(** [c * n] for a one-character string [c]: empty when [n <= 0]. *)
Definition times (c : N) (n : Z) : str := repeat c (Z.to_nat n).

(** [int(x)] on a float: towards zero. *)
Definition int_of_float (x : Q) : Z :=
  if Qle_bool 0 x then Qfloor x else Qceiling x.

Section Bar.
Context {F : Float}.

(** [__init__]; [now] is what [time.time()] returns. *)
Definition new (total_items bar_length : Z) (now : Q) : t :=
  {| total_items := total_items; bar_length := bar_length; start_time := now |}.

(** [update]; [round] on a float is the nearest integer, ties to even. *)
Definition update (self : t) (current_item_index : Z) (now : Q)
    : result (option line) :=
  if total_items self =? 0 then Ok None
  else
    percent_complete ←
      fdiv (of_int current_item_index) (of_int (total_items self));
    let arrow :=
      times hash
        (Binary64.rint (fmul percent_complete (of_int (bar_length self)))) in
    let spaces := times dash (bar_length self - len arrow) in
    let elapsed_time := fsub now (start_time self) in
    Ok (Some {| bar := arrow ++ spaces;
                percent := int_of_float (fmul percent_complete (of_int 100));
                current := current_item_index;
                total := total_items self;
                elapsed := elapsed_time |}).
End Bar.

End ConsoleProgressBar.

(** ** Values used to state the further properties *)

Module Derived.

(** The MetricTuple the evaluator returns, in closed form. *)
Definition evaluated {U : Unicode} {F : Float} (ground_truth prediction : str)
    : MetricResult :=
  {| exact_match := if decide (ground_truth = prediction) then 1 else 0;
     edit_similarity := Closed.similarity_value ground_truth prediction;
     token_precision :=
       Reference.precision (IdentifierTokenizer.tokenize ground_truth)
         (IdentifierTokenizer.tokenize prediction);
     token_recall :=
       Reference.recall (IdentifierTokenizer.tokenize ground_truth)
         (IdentifierTokenizer.tokenize prediction);
     token_f1 :=
       Reference.f1 (IdentifierTokenizer.tokenize ground_truth)
         (IdentifierTokenizer.tokenize prediction) |}.

(** The rational a number of an accumulator or of an average stands for. *)
Definition num_value (a : num) : Q :=
  match a with
  | Int z => inject_Z z
  | Flt q => q
  end.

(** Every value of a metric dict lies between 0 and 1. *)
Definition dict_in_unit (d : metric_dict) : Prop :=
  Closed.unit_interval (num_value (d_exact_match d)) /\
  Closed.unit_interval (num_value (d_edit_similarity d)) /\
  Closed.unit_interval (num_value (d_token_precision d)) /\
  Closed.unit_interval (num_value (d_token_recall d)) /\
  Closed.unit_interval (num_value (d_token_f1 d)).

(** The top-1 metric of a record: the first entry of the list, when valid. *)
Definition top_1_value {U : Unicode} {F : Float} {P : Repr}
    (ground_truth : str) (raw_suggestions : json) : MetricResult :=
  match raw_suggestions with
  | JList (first_suggestion :: _) =>
      match Reference.valid_name first_suggestion with
      | Some name => evaluated ground_truth name
      | None => MetricResult_.empty
      end
  | _ => MetricResult_.empty
  end.

(** The warning the top-1 slot prints, if any. *)
Definition first_slot_warning (raw_suggestions : json) (index : Z) : list message :=
  match raw_suggestions with
  | JList (first_suggestion :: _) =>
      (BatchResultProcessor._is_valid_suggestion first_suggestion index 0 true).2
  | _ => []
  end.

(** The candidates of the top-5 tier. *)
Definition candidates {P : Repr} (raw_suggestions : json) : list str :=
  match raw_suggestions with
  | JList l => omap Reference.valid_name (take 5 l)
  | _ => []
  end.

(** The top-5 metric of a record. *)
Definition top_5_value {U : Unicode} {F : Float} {P : Repr}
    (ground_truth : str) (raw_suggestions : json) : MetricResult :=
  BatchResultProcessor._determine_best_candidate
    (map (evaluated ground_truth) (candidates raw_suggestions)).

(** The ground truth and the suggestions of a record. *)
Definition record_ground_truth {P : Repr} (d : gmap str json) : str :=
  let raw_gt_val := default JNull (d !! k_new_name) in
  match raw_gt_val with
  | JNull => []
  | v => py_str v
  end.

Definition record_suggestions (d : gmap str json) : json :=
  default (JList []) (d !! k_suggestions).

(** The two metrics of a record, and the record with them attached. *)
Definition record_metrics {U : Unicode} {F : Float} {P : Repr} (item : json)
    : MetricResult * MetricResult :=
  match item with
  | JDict d =>
      (top_1_value (record_ground_truth d) (record_suggestions d),
       top_5_value (record_ground_truth d) (record_suggestions d))
  | _ => (MetricResult_.empty, MetricResult_.empty)
  end.

Definition annotated {U : Unicode} {F : Float} {P : Repr} (item : json) : json :=
  match item with
  | JDict d =>
      JDict (<[k_performance_metrics :=
                tiers_json
                  {| top_1_performance_metrics := asdict (record_metrics item).1;
                     top_5_performance_metrics := asdict (record_metrics item).2 |}]> d)
  | _ => item
  end.

(** The warnings of a run over [items], the first of them at [index]. *)
Fixpoint warnings_from (index : nat) (items : list json) : list message :=
  match items with
  | [] => []
  | item :: rest =>
      match item with
      | JDict d => first_slot_warning (record_suggestions d) (Z.of_nat index)
      | _ => []
      end ++ warnings_from (S index) rest
  end.

(** What [process] returns on records that are objects, from the
    accumulators [acc]. *)
Definition run_aggregates {U : Unicode} {F : Float} {P : Repr}
    (acc : BatchResultProcessor.accumulators_t) (records : list json) : tiers :=
  let acc' := foldl Closed.fold_in acc (map record_metrics records) in
  if len records =? 0 then
    {| top_1_performance_metrics := Reference.zero_averages;
       top_5_performance_metrics := Reference.zero_averages |}
  else
    {| top_1_performance_metrics :=
         Reference.averaged (len records) (BatchResultProcessor.top_1 acc');
       top_5_performance_metrics :=
         Reference.averaged (len records) (BatchResultProcessor.top_5 acc') |}.

Definition run_output {U : Unicode} {F : Float} {P : Repr}
    (acc : BatchResultProcessor.accumulators_t) (records : list json)
    : BatchResultProcessor.processed :=
  {| BatchResultProcessor.final_output :=
       JDict {[ k_aggregate := tiers_json (run_aggregates acc records) ]};
     BatchResultProcessor.aggregates := run_aggregates acc records;
     BatchResultProcessor.items_after := map annotated records;
     BatchResultProcessor.accumulators_after :=
       foldl Closed.fold_in acc (map record_metrics records);
     BatchResultProcessor.printed :=
       msg_starting (len records) :: warnings_from 0 records |}.

(** A MetricTuple whose fields are within their bounds. *)
Definition within_bounds (m : MetricResult) : Prop :=
  (exact_match m = 0 \/ exact_match m = 1) /\
  Closed.unit_interval (edit_similarity m) /\
  Closed.unit_interval (token_precision m) /\
  Closed.unit_interval (token_recall m) /\
  Closed.unit_interval (token_f1 m).

End Derived.

(** ** The shape of cleaned identifiers *)

Module TokenShape.

Definition not_space (c : N) : bool := negb (c =? space)%N.

(** What steps 1 and 2 make of a character, on the ASCII tables. *)
Definition kept (c : N) : N := if ascii_isalnum c then c else space.

(** [t] is [s] with spaces put in. *)
Inductive spaces_in : str -> str -> Prop :=
| spaces_nil : spaces_in [] []
| spaces_keep c s t : spaces_in s t -> spaces_in (c :: s) (c :: t)
| spaces_put s t : spaces_in s t -> spaces_in s (space :: t).

(** Some character of class [P] is directly followed by one of class [Q]. *)
Fixpoint has_pair (P Q : N -> bool) (s : str) : bool :=
  match s with
  | c :: s' =>
      match s' with
      | d :: _ => P c && Q d
      | [] => false
      end || has_pair P Q s'
  | [] => false
  end.

End TokenShape.

(** * Properties *)

(** ** Binary64 rounding is faithful *)

Module Binary64Facts.
Import Binary64.

Lemma pow2_pos z : (0 < 2 ^ z)%Q.
Proof. apply Qpower_0_lt. reflexivity. Qed.

Lemma pow2_le a b : a <= b -> (2 ^ a <= 2 ^ b)%Q.
Proof. intros H. apply Qpower_le_compat_l; [assumption|]. discriminate. Qed.

Lemma pow2_plus a b : (2 ^ (a + b) == 2 ^ a * 2 ^ b)%Q.
Proof. apply Qpower_plus. discriminate. Qed.

Lemma pow2_Z z : 0 <= z -> (2 ^ z == inject_Z (2 ^ z))%Q.
Proof. intros H. symmetry. apply (Zpower_Qpower 2 z H). Qed.

Lemma pow2_succ a : (2 ^ (a + 1) == 2 * 2 ^ a)%Q.
Proof. rewrite pow2_plus. change (2 ^ 1)%Q with 2%Q. ring. Qed.

Lemma inject_pow2 z : 0 <= z -> inject_Z (2 ^ z) == 2 ^ z.
Proof. intros H. now rewrite pow2_Z. Qed.

Lemma ilog2_spec q :
  (0 < q)%Q -> (2 ^ ilog2 q <= q /\ q < 2 ^ (ilog2 q + 1))%Q.
Proof.
  intros Hq. unfold ilog2.
  set (n := Qnum q). set (d := Z.pos (Qden q)).
  set (ln := Z.log2 n). set (ld := Z.log2 d). set (k := ln - ld).
  assert (Hn : 0 < n) by (destruct q as [qn qd]; unfold Qlt in Hq; simpl in *; lia).
  assert (Hd : 0 < d) by reflexivity.
  destruct (Z.log2_spec n Hn) as [Hn1 Hn2]. fold ln in Hn1, Hn2.
  destruct (Z.log2_spec d Hd) as [Hd1 Hd2]. fold ld in Hd1, Hd2.
  pose proof (Z.log2_nonneg n) as Hln. fold ln in Hln.
  pose proof (Z.log2_nonneg d) as Hld. fold ld in Hld.
  assert (Eq : (q == inject_Z n / inject_Z d)%Q).
  { destruct q as [qn qd]. apply Qmake_Qdiv. }
  assert (HD : (0 < inject_Z d)%Q) by (change (inject_Z 0 < inject_Z d)%Q; now rewrite <- Zlt_Qlt).
  assert (HN1 : (2 ^ ln <= inject_Z n)%Q).
  { rewrite <- inject_pow2 by assumption. now rewrite <- Zle_Qle. }
  assert (HN2 : (inject_Z n < 2 ^ (ln + 1))%Q).
  { rewrite <- inject_pow2 by lia. now rewrite <- Zlt_Qlt. }
  assert (HD1 : (2 ^ ld <= inject_Z d)%Q).
  { rewrite <- inject_pow2 by assumption. now rewrite <- Zle_Qle. }
  assert (HD2 : (inject_Z d < 2 ^ (ld + 1))%Q).
  { rewrite <- inject_pow2 by lia. now rewrite <- Zlt_Qlt. }
  assert (Hup : (q < 2 ^ (k + 1))%Q).
  { rewrite Eq. apply Qlt_shift_div_r; [assumption|].
    assert (E : (2 ^ (ln + 1) == 2 ^ (k + 1) * 2 ^ ld)%Q).
    { rewrite <- pow2_plus. replace (k + 1 + ld) with (ln + 1) by (unfold k; lia).
      reflexivity. }
    pose proof (pow2_pos (k + 1)) as Hp.
    apply Qlt_le_trans with (2 ^ (ln + 1))%Q; [assumption|].
    rewrite E. apply Qmult_le_l; assumption. }
  assert (Hlow : (2 ^ (k - 1) < q)%Q).
  { rewrite Eq. apply Qlt_shift_div_l; [assumption|].
    assert (E : (2 ^ ln == 2 ^ (k - 1) * 2 ^ (ld + 1))%Q).
    { rewrite <- pow2_plus. replace (k - 1 + (ld + 1)) with ln by (unfold k; lia).
      reflexivity. }
    pose proof (pow2_pos (k - 1)) as Hp.
    apply Qlt_le_trans with (2 ^ ln)%Q; [|assumption].
    rewrite E. apply Qmult_lt_l; assumption. }
  destruct (Qle_bool (2 ^ k) q) eqn:E.
  - apply Qle_bool_iff in E. split; assumption.
  - assert (Hk : (q < 2 ^ k)%Q).
    { apply Qnot_le_lt. intros H. apply Qle_bool_iff in H. congruence. }
    replace (k - 1 + 1) with k by lia. split; [apply Qlt_le_weak|]; assumption.
Qed.

(** [rint s] is an integer nearest to [s]. *)
Lemma rint_nearest s K :
  ((s <= inject_Z K -> 2 * s - inject_Z K <= inject_Z (rint s) /\
                       inject_Z (rint s) <= inject_Z K) /\
   (inject_Z K <= s -> inject_Z K <= inject_Z (rint s) /\
                       inject_Z (rint s) <= 2 * s - inject_Z K))%Q.
Proof.
  pose proof (Qfloor_le s) as H1. pose proof (Qlt_floor s) as H2.
  rewrite inject_Z_plus in H2. change (inject_Z 1) with 1%Q in H2.
  assert (Ha : (inject_Z K <= s)%Q -> (inject_Z K <= inject_Z (Qfloor s))%Q).
  { intros H. rewrite <- Zle_Qle. rewrite <- (Qfloor_Z K). now apply Qfloor_resp_le. }
  assert (Hb : (s <= inject_Z K)%Q ->
               (s == inject_Z (Qfloor s) \/ inject_Z (Qfloor s) + 1 <= inject_Z K)%Q).
  { intros H. destruct (Z.eq_dec K (Qfloor s)) as [->|Hne].
    - left. lra.
    - right. assert (H0 : Qfloor s <= K) by (rewrite Zle_Qle; lra).
      assert (H3 : Qfloor s + 1 <= K) by lia.
      rewrite Zle_Qle, inject_Z_plus in H3. exact H3. }
  unfold rint. set (fl := Qfloor s) in *.
  assert (Hfl1 : inject_Z (fl + 1) = (inject_Z fl + 1)%Q) by apply inject_Z_plus.
  destruct (Qcompare_spec (s - inject_Z fl) (1 # 2)) as [E|E|E];
    [destruct (Z.even fl)| |]; rewrite ?Hfl1; split; intros H;
    try (specialize (Ha H)); try (destruct (Hb H)); split; lra.
Qed.

Lemma representable_0 : representable 0.
Proof. exists 0, 0. repeat split; try reflexivity. unfold emin. lia. Qed.

Lemma representable_1 : representable 1.
Proof. exists 1, 0. repeat split; try reflexivity. unfold emin. lia. Qed.

Lemma Qabs_cases x :
  ((0 <= x /\ Qabs x == x) \/ (x <= 0 /\ Qabs x == - x))%Q.
Proof.
  destruct (Qlt_le_dec x 0) as [H|H].
  - right. split; [lra|]. apply Qabs_neg. lra.
  - left. split; [assumption|]. now apply Qabs_pos.
Qed.

Section Core.
Variable x : Q.
Hypothesis x_nonzero : ~ (x == 0)%Q.

Let e := ilog2 (Qabs x).
Let c := Z.max (e - 52) emin.
Let u := (2 ^ c)%Q.
Let s := (x / u)%Q.

Lemma core_value : round_core x = (inject_Z (rint s) * u)%Q.
Proof.
  unfold round_core. destruct (Qeq_bool x 0) eqn:E; [|reflexivity].
  apply Qeq_bool_iff in E. contradiction.
Qed.

Lemma u_pos : (0 < u)%Q.
Proof. apply pow2_pos. Qed.

Lemma x_scaled : (x == s * u)%Q.
Proof. unfold s. field. pose proof u_pos. lra. Qed.

Lemma abs_bounds : (2 ^ e <= Qabs x /\ Qabs x < 2 ^ (e + 1))%Q.
Proof.
  apply ilog2_spec. destruct (Qabs_cases x) as [[H E]|[H E]].
  - assert (0 < x)%Q by (apply Qle_lt_or_eq in H as [|H']; [assumption|]; exfalso; apply x_nonzero; lra).
    lra.
  - assert (x < 0)%Q by (apply Qle_lt_or_eq in H as [|H']; [assumption|]; exfalso; apply x_nonzero; lra).
    lra.
Qed.

(** The rounded value is nearest among the multiples of [u]. *)
Lemma scale_nearest K :
  ((x <= inject_Z K * u ->
      2 * x - inject_Z K * u <= round_core x /\ round_core x <= inject_Z K * u) /\
   (inject_Z K * u <= x ->
      inject_Z K * u <= round_core x /\ round_core x <= 2 * x - inject_Z K * u))%Q.
Proof.
  rewrite core_value. pose proof u_pos as Hu. pose proof x_scaled as Hx.
  destruct (rint_nearest s K) as [Hup Hdown].
  set (M := inject_Z (rint s)) in *. set (k := inject_Z K) in *.
  split; intros H.
  - assert (Hs : (s <= k)%Q) by (apply (Qmult_le_r _ _ u Hu); lra).
    destruct (Hup Hs) as [H1 H2].
    apply (Qmult_le_r _ _ u Hu) in H1, H2. split; lra.
  - assert (Hs : (k <= s)%Q) by (apply (Qmult_le_r _ _ u Hu); lra).
    destruct (Hdown Hs) as [H1 H2].
    apply (Qmult_le_r _ _ u Hu) in H1, H2. split; lra.
Qed.

Lemma core_nearest f :
  representable f ->
  ((x <= f -> 2 * x - f <= round_core x /\ round_core x <= f) /\
   (f <= x -> f <= round_core x /\ round_core x <= 2 * x - f))%Q.
Proof.
  intros (m & ef & Hm & Hef & Hf).
  destruct (Z_le_gt_dec c ef) as [Hc|Hc].
  - assert (E : (f == inject_Z (m * 2 ^ (ef - c)) * u)%Q).
    { rewrite Hf, inject_Z_mult, inject_pow2 by lia. unfold u.
      rewrite <- Qmult_assoc, <- pow2_plus.
      replace (ef - c + c) with ef by lia. reflexivity. }
    destruct (scale_nearest (m * 2 ^ (ef - c))) as [H1 H2].
    split; intros H; [destruct H1 as [? ?]|destruct H2 as [? ?]]; try split; lra.
  - assert (Ec : c = e - 52) by (unfold c in *; lia).
    assert (EB : (2 ^ e == inject_Z (2 ^ 52) * u)%Q).
    { rewrite inject_pow2 by lia. unfold u. rewrite <- pow2_plus.
      replace (52 + c) with e by lia. reflexivity. }
    assert (EB' : (- 2 ^ e == inject_Z (- 2 ^ 52) * u)%Q).
    { rewrite inject_Z_opp. lra. }
    assert (Hsmall : (- 2 ^ e < f /\ f < 2 ^ e)%Q).
    { assert (Hp : (2 ^ ef <= 2 ^ (c - 1))%Q) by (apply pow2_le; lia).
      assert (ET : (2 ^ e == inject_Z (2 ^ 53) * 2 ^ (c - 1))%Q).
      { rewrite inject_pow2 by lia. rewrite <- pow2_plus.
        replace (53 + (c - 1)) with e by lia. reflexivity. }
      pose proof (pow2_pos ef) as Hp0.
      assert (Hm1 : (inject_Z m < inject_Z (2 ^ 53))%Q) by (rewrite <- Zlt_Qlt; lia).
      assert (Hm2 : (- inject_Z (2 ^ 53) < inject_Z m)%Q).
      { rewrite <- inject_Z_opp, <- Zlt_Qlt. lia. }
      rewrite Hf, ET.
      set (T := inject_Z (2 ^ 53)) in *. set (p := (2 ^ ef)%Q) in *.
      set (P := (2 ^ (c - 1))%Q) in *. set (mq := inject_Z m) in *.
      destruct (Qlt_le_dec mq 0); split; nra. }
    destruct abs_bounds as [Hlo _].
    destruct (Qabs_cases x) as [[Hx0 Ex]|[Hx0 Ex]].
    + destruct (scale_nearest (2 ^ 52)) as [_ H2].
      split; intros H; [lra|]. destruct H2 as [? ?]; [lra|]. split; lra.
    + destruct (scale_nearest (- 2 ^ 52)) as [H1 _].
      split; intros H; [|lra]. destruct H1 as [? ?]; [lra|]. split; lra.
Qed.

Lemma core_representable : representable (round_core x).
Proof.
  rewrite core_value. pose proof u_pos as Hu. pose proof x_scaled as Hx.
  destruct abs_bounds as [_ Hhi].
  assert (Hc : e - 52 <= c /\ emin <= c) by (unfold c; lia).
  assert (ET : (2 ^ (53 + c) == inject_Z (2 ^ 53) * u)%Q).
  { rewrite inject_pow2 by lia. apply pow2_plus. }
  assert (Hle : (2 ^ (e + 1) <= 2 ^ (53 + c))%Q) by (apply pow2_le; lia).
  assert (Hs : (- inject_Z (2 ^ 53) < s /\ s < inject_Z (2 ^ 53))%Q).
  { split; apply (Qmult_lt_r _ _ u Hu); destruct (Qabs_cases x) as [[? ?]|[? ?]]; lra. }
  destruct (rint_nearest s (2 ^ 53)) as [[_ H1] _]; [lra|].
  destruct (rint_nearest s (- 2 ^ 53)) as [_ [H2 _]]; [rewrite inject_Z_opp; lra|].
  rewrite <- Zle_Qle in H1, H2.
  set (M := rint s) in *.
  destruct (Z.eq_dec M (2 ^ 53)) as [E|N1]; [|destruct (Z.eq_dec M (- 2 ^ 53)) as [E|N2]].
  - exists (2 ^ 52), (c + 1). split; [reflexivity|split; [lia|]].
    rewrite E, pow2_succ. fold u.
    change (inject_Z (2 ^ 53)) with (inject_Z (2 ^ 52) * 2)%Q. ring.
  - exists (- 2 ^ 52), (c + 1). split; [reflexivity|split; [lia|]].
    rewrite E, pow2_succ. fold u.
    change (inject_Z (- 2 ^ 53)) with (inject_Z (- 2 ^ 52) * 2)%Q. ring.
  - exists M, c. split; [|split; [lia|reflexivity]].
    assert (P53 : 2 ^ 53 = 9007199254740992) by reflexivity.
    rewrite P53 in *. lia.
Qed.
End Core.

Lemma round_core_nearest x f :
  representable f ->
  ((x <= f -> 2 * x - f <= round_core x /\ round_core x <= f) /\
   (f <= x -> f <= round_core x /\ round_core x <= 2 * x - f))%Q.
Proof.
  destruct (Qeq_dec x 0) as [E|N]; [|now apply core_nearest].
  intros _. unfold round_core.
  replace (Qeq_bool x 0) with true by (symmetry; now apply Qeq_bool_iff).
  split; intros H; split; lra.
Qed.

Lemma round_core_representable x : representable (round_core x).
Proof.
  destruct (Qeq_dec x 0) as [E|N]; [|now apply core_representable].
  unfold round_core.
  replace (Qeq_bool x 0) with true by (symmetry; now apply Qeq_bool_iff).
  apply representable_0.
Qed.

Lemma round64_nearest x f :
  representable f ->
  ((x <= f -> 2 * x - f <= round64 x /\ round64 x <= f) /\
   (f <= x -> f <= round64 x /\ round64 x <= 2 * x - f))%Q.
Proof.
  intros Hf. unfold round64.
  destruct (round_core_nearest (Qred x) f Hf) as [H1 H2].
  pose proof (Qred_correct x) as E.
  pose proof (Qred_correct (round_core (Qred x))) as E'.
  split; intros H; [destruct H1 as [? ?]|destruct H2 as [? ?]]; try split; lra.
Qed.

Lemma round64_representable x : representable (round64 x).
Proof.
  destruct (round_core_representable (Qred x)) as (m & e & Hm & He & E).
  exists m, e. split; [assumption|]. split; [assumption|].
  unfold round64. now rewrite Qred_correct.
Qed.

Lemma round64_compat x y : (x == y)%Q -> round64 x = round64 y.
Proof. intros H. unfold round64. now rewrite (Qred_complete x y H). Qed.

(** A representable number is its own rounding. *)
Lemma round64_exact f : representable f -> (round64 f == f)%Q.
Proof.
  intros Hf. destruct (round64_nearest f f Hf) as [[H1 H2] _]; lra.
Qed.

Lemma round64_monotone x y : (x <= y)%Q -> (round64 x <= round64 y)%Q.
Proof.
  intros Hxy. apply Qnot_lt_le. intros Hlt.
  pose proof (round64_representable x) as Fx.
  pose proof (round64_representable y) as Fy.
  destruct (round64_nearest x (round64 y) Fy) as [A1 A2].
  destruct (round64_nearest y (round64 x) Fx) as [B1 B2].
  destruct (Qlt_le_dec (round64 y) x) as [Ha|Ha]; [|destruct A1; lra].
  destruct A2 as [_ A2]; [lra|].
  destruct (Qlt_le_dec y (round64 x)) as [Hb|Hb]; [|destruct B2; lra].
  destruct B1 as [B1 _]; [lra|].
  assert (E : (x == y)%Q) by lra.
  rewrite (round64_compat x y E) in Hlt. lra.
Qed.

End Binary64Facts.

Lemma binary64_faithful : faithful_rounding binary64.
Proof.
  split; [|split; [|split]]; cbn [rnd binary64].
  - apply Binary64Facts.round64_monotone.
  - apply Binary64Facts.round64_exact, Binary64Facts.representable_0.
  - apply Binary64Facts.round64_exact, Binary64Facts.representable_1.
  - intros x. apply Binary64Facts.round64_exact, Binary64Facts.round64_representable.
Qed.

(** ** The Levenshtein routine *)

Module LevenshteinFacts.
Import Levenshtein StringDistanceCalculator.

Lemma len_cons {A} (x : A) (l : list A) : len (x :: l) = len l + 1.
Proof. unfold len. simpl. lia. Qed.

Lemma len_nonneg {A} (l : list A) : 0 <= len l.
Proof. unfold len. lia. Qed.

Lemma differ_bounds c d : 0 <= differ c d <= 1.
Proof. unfold differ. destruct (c =? d)%N; lia. Qed.

Lemma differ_same c : differ c c = 0.
Proof. unfold differ. now rewrite N.eqb_refl. Qed.

Lemma differ_other c d : c <> d -> differ c d = 1.
Proof. unfold differ. intros H. apply N.eqb_neq in H. now rewrite H. Qed.

Lemma lev_nil_r a : lev a [] = len a.
Proof. destruct a; reflexivity. Qed.

Lemma lev_cons c d a b :
  lev (c :: a) (d :: b) =
  Z.min (lev a (d :: b) + 1) (Z.min (lev (c :: a) b + 1) (lev a b + differ c d)).
Proof. reflexivity. Qed.

Lemma lev_nonneg a b : 0 <= lev a b.
Proof.
  revert b. induction a as [|c a IHa]; intros b.
  - apply len_nonneg.
  - induction b as [|d b IHb].
    + rewrite lev_nil_r. apply len_nonneg.
    + rewrite lev_cons. pose proof (IHa (d :: b)). pose proof (IHa b).
      pose proof (differ_bounds c d). lia.
Qed.

Lemma lev_delete c a b : lev (c :: a) b <= lev a b + 1.
Proof.
  destruct b as [|d b].
  - rewrite !lev_nil_r, len_cons. lia.
  - rewrite lev_cons. lia.
Qed.

Lemma lev_insert d a b : lev a (d :: b) <= lev a b + 1.
Proof.
  destruct a as [|c a].
  - simpl. rewrite len_cons. lia.
  - rewrite lev_cons. lia.
Qed.

Lemma edit_inserts b : edit [] b (len b).
Proof.
  induction b as [|d b IH]; [constructor|].
  rewrite len_cons. now constructor.
Qed.

Lemma edit_deletes a : edit a [] (len a).
Proof.
  induction a as [|c a IH]; [constructor|].
  rewrite len_cons. now constructor.
Qed.

(** The recurrence is the cost of a script. *)
Lemma edit_lev a b : edit a b (lev a b).
Proof.
  revert b. induction a as [|c a IHa]; intros b.
  - apply edit_inserts.
  - induction b as [|d b IHb].
    + rewrite lev_nil_r. apply edit_deletes.
    + rewrite lev_cons.
      destruct (Z.min_spec (lev a (d :: b) + 1)
                  (Z.min (lev (c :: a) b + 1) (lev a b + differ c d)))
        as [[_ ->]|[_ ->]].
      * apply edit_delete, IHa.
      * destruct (Z.min_spec (lev (c :: a) b + 1) (lev a b + differ c d))
          as [[_ ->]|[_ ->]].
        -- apply edit_insert, IHb.
        -- destruct (N.eq_dec c d) as [->|Hne].
           ++ rewrite differ_same, Z.add_0_r. apply edit_keep, IHa.
           ++ rewrite differ_other by assumption.
              now apply edit_substitute.
Qed.

(** No script is cheaper than the recurrence. *)
Lemma lev_le_edit a b n : edit a b n -> lev a b <= n.
Proof.
  induction 1 as [|c a b n _ IH|c d a b n Hne _ IH|c a b n _ IH|d a b n _ IH].
  - reflexivity.
  - rewrite lev_cons, differ_same. lia.
  - rewrite lev_cons, differ_other by assumption. lia.
  - pose proof (lev_delete c a b). lia.
  - pose proof (lev_insert d a b). lia.
Qed.

Lemma lev_distance a b : distance_is a b (lev a b).
Proof. split; [apply edit_lev | apply lev_le_edit]. Qed.

(** Scripts can be read backwards and in the other direction. *)
Lemma edit_snoc_keep c a b n : edit a b n -> edit (a ++ [c]) (b ++ [c]) n.
Proof.
  induction 1; simpl; try (constructor; assumption).
  apply edit_keep, edit_done.
Qed.

Lemma edit_snoc_substitute c d a b n :
  c <> d -> edit a b n -> edit (a ++ [c]) (b ++ [d]) (n + 1).
Proof.
  intros Hne. induction 1; simpl; try (constructor; assumption).
  apply (edit_substitute c d [] [] 0 Hne edit_done).
Qed.

Lemma edit_snoc_delete c a b n : edit a b n -> edit (a ++ [c]) b (n + 1).
Proof.
  induction 1; simpl; try (constructor; assumption).
  apply (edit_delete c [] [] 0 edit_done).
Qed.

Lemma edit_snoc_insert d a b n : edit a b n -> edit a (b ++ [d]) (n + 1).
Proof.
  induction 1; simpl; try (constructor; assumption).
  apply (edit_insert d [] [] 0 edit_done).
Qed.

Lemma edit_rev a b n : edit a b n -> edit (rev a) (rev b) n.
Proof.
  induction 1; simpl.
  - constructor.
  - now apply edit_snoc_keep.
  - now apply edit_snoc_substitute.
  - now apply edit_snoc_delete.
  - now apply edit_snoc_insert.
Qed.

Lemma edit_sym a b n : edit a b n -> edit b a n.
Proof.
  induction 1; try (constructor; assumption).
  apply edit_substitute; [congruence | assumption].
Qed.

Lemma lev_rev a b : lev (rev a) (rev b) = lev a b.
Proof.
  apply Z.le_antisymm.
  - apply lev_le_edit, edit_rev, edit_lev.
  - rewrite <- (rev_involutive a), <- (rev_involutive b) at 1.
    apply lev_le_edit, edit_rev, edit_lev.
Qed.

Lemma lev_sym a b : lev a b = lev b a.
Proof.
  apply Z.le_antisymm; apply lev_le_edit, edit_sym, edit_lev.
Qed.

Lemma lev_le_max a b : lev a b <= Z.max (len a) (len b).
Proof.
  revert b. induction a as [|c a IHa]; intros b.
  - simpl. lia.
  - destruct b as [|d b].
    + rewrite lev_nil_r. lia.
    + rewrite lev_cons, !len_cons. pose proof (IHa b).
      pose proof (differ_bounds c d). lia.
Qed.

Lemma partial_row_lookup A s2 j k :
  (k <= j)%nat -> partial_row A s2 j !! k = Some (lev A (rev (take k s2))).
Proof.
  intros Hk. unfold partial_row.
  rewrite list_lookup_fmap, lookup_seq_lt by lia. reflexivity.
Qed.

Lemma partial_row_snoc A s2 j :
  partial_row A s2 j ++ [lev A (rev (take (S j) s2))] = partial_row A s2 (S j).
Proof.
  unfold partial_row. rewrite (seq_S (S j) 0), map_app. reflexivity.
Qed.

Lemma index_lookup {A} (l : list A) i x : l !! i = Some x -> index l i = Ok x.
Proof. unfold index. now intros ->. Qed.

Lemma row_of_index A s2 k :
  (k <= length s2)%nat -> index (row_of A s2) k = Ok (lev A (rev (take k s2))).
Proof. intros Hk. now apply index_lookup, partial_row_lookup. Qed.

Lemma inner_loop_spec c1 A s2 suf :
  forall pre, s2 = pre ++ suf ->
    inner_loop c1 (row_of A s2) (length pre) suf
      (partial_row (c1 :: A) s2 (length pre)) = Ok (row_of (c1 :: A) s2).
Proof.
  induction suf as [|c2 suf IH]; intros pre Hs2.
  - simpl. rewrite app_nil_r in Hs2. subst s2. reflexivity.
  - assert (Hlen : (S (length pre) <= length s2)%nat).
    { subst s2. rewrite length_app. simpl. lia. }
    assert (Hpre : take (length pre) s2 = pre).
    { subst s2. now rewrite take_app_length. }
    assert (Hnext : take (S (length pre)) s2 = pre ++ [c2]).
    { subst s2. rewrite (cons_middle c2 pre suf), app_assoc.
      rewrite <- (take_app_length (pre ++ [c2]) suf) at 2.
      f_equal. rewrite length_app. simpl. lia. }
    cbn [inner_loop].
    rewrite (row_of_index A s2 (length pre + 1)) by lia.
    cbn [mbind result_bind].
    rewrite (index_lookup _ _ _ (partial_row_lookup (c1 :: A) s2 (length pre) (length pre) ltac:(lia))).
    cbn [mbind result_bind].
    rewrite (row_of_index A s2 (length pre)) by lia.
    cbn [mbind result_bind].
    replace (length pre + 1)%nat with (S (length pre)) by lia.
    rewrite Hpre, Hnext, rev_unit, <- lev_cons.
    rewrite <- (rev_unit pre c2), <- Hnext, partial_row_snoc.
    specialize (IH (pre ++ [c2])).
    rewrite length_app in IH. simpl in IH.
    replace (length pre + 1)%nat with (S (length pre)) in IH by lia.
    apply IH. subst s2. now rewrite <- app_assoc.
Qed.

Lemma outer_loop_spec s2 s1 :
  forall A, outer_loop (length A) s1 s2 (row_of A s2) = Ok (row_of (rev s1 ++ A) s2).
Proof.
  induction s1 as [|c1 s1 IH]; intros A; [reflexivity|].
  cbn [outer_loop].
  replace [Z.of_nat (length A) + 1] with (partial_row (c1 :: A) s2 (length (@nil N))).
  2:{ unfold partial_row. cbn [seq map length take rev]. rewrite lev_nil_r, len_cons. reflexivity. }
  change 0%nat with (length (@nil N)) at 1.
  rewrite (inner_loop_spec c1 A s2 s2 [] eq_refl).
  cbn [mbind result_bind].
  change (S (length A)) with (length (c1 :: A)).
  rewrite (IH (c1 :: A)). simpl. now rewrite <- app_assoc.
Qed.

Lemma range_row s2 : range (length s2 + 1) = row_of [] s2.
Proof.
  unfold range, row_of, partial_row.
  replace (length s2 + 1)%nat with (S (length s2)) by lia.
  apply map_ext_in. intros k Hk. apply in_seq in Hk.
  cbn [lev]. unfold len. rewrite length_rev, length_take. f_equal. lia.
Qed.

Lemma row_of_last A s2 : index_last (row_of A s2) = Ok (lev A (rev s2)).
Proof.
  unfold index_last, row_of. rewrite last_lookup.
  assert (Hlen : length (partial_row A s2 (length s2)) = S (length s2)).
  { unfold partial_row. now rewrite length_map, length_seq. }
  rewrite Hlen. cbn [pred].
  rewrite partial_row_lookup by lia.
  now rewrite firstn_all.
Qed.

Lemma levenshtein_rows_spec s1 s2 : levenshtein_rows s1 s2 = Ok (lev s1 s2).
Proof.
  unfold levenshtein_rows.
  destruct (len s2 =? 0) eqn:Hz.
  - apply Z.eqb_eq in Hz. destruct s2; [|rewrite len_cons in Hz; pose proof (len_nonneg s2); lia].
    now rewrite lev_nil_r.
  - rewrite range_row.
    change 0%nat with (length (@nil N)) at 1.
    rewrite (outer_loop_spec s2 s1 []). cbn [mbind result_bind].
    rewrite app_nil_r, row_of_last. now rewrite lev_rev.
Qed.

(** The routine returns the value of the recurrence. *)
Lemma calculate_levenshtein_distance_spec s1 s2 :
  calculate_levenshtein_distance s1 s2 = Ok (lev s1 s2).
Proof.
  unfold calculate_levenshtein_distance.
  destruct (len s1 <? len s2).
  - rewrite levenshtein_rows_spec. now rewrite lev_sym.
  - apply levenshtein_rows_spec.
Qed.

End LevenshteinFacts.

(** C4. For every pair of strings the dynamic-programming routine returns a
    number [d], and [d] is the classic Levenshtein distance: some script of
    insertions, deletions and substitutions, each of cost 1, turns [a] into
    [b] at cost [d], no script does it for less, and [d] is not negative. *)
Theorem levenshtein_is_edit_distance (a b : str) :
  exists d,
    StringDistanceCalculator.calculate_levenshtein_distance a b = Ok d /\
    Levenshtein.distance_is a b d /\ 0 <= d.
Proof.
  exists (Levenshtein.lev a b). repeat split.
  - apply LevenshteinFacts.calculate_levenshtein_distance_spec.
  - apply LevenshteinFacts.edit_lev.
  - apply LevenshteinFacts.lev_le_edit.
  - apply LevenshteinFacts.lev_nonneg.
Qed.

(** ** Counters and token bags *)

Module CounterFacts.
Import Reference.

Lemma get_insert (c : gmap str Z) x v t :
  Counter.get (<[x := v]> c) t = if decide (x = t) then v else Counter.get c t.
Proof.
  unfold Counter.get. rewrite lookup_insert.
  destruct (decide (x = t)); reflexivity.
Qed.

Lemma of_list_snoc l x :
  Counter.of_list (l ++ [x]) =
  <[x := Counter.get (Counter.of_list l) x + 1]> (Counter.of_list l).
Proof. unfold Counter.of_list. now rewrite foldl_app. Qed.

Lemma bag_snoc l x t : bag (l ++ [x]) t = bag l t + (if decide (x = t) then 1 else 0).
Proof.
  induction l as [|y l IH]; simpl; [lia|]. rewrite IH. lia.
Qed.

Lemma bag_nonneg l t : 0 <= bag l t.
Proof.
  induction l as [|y l IH]; simpl; [lia|]. destruct (decide (y = t)); lia.
Qed.

(** A counter built from a list counts the occurrences in the list. *)
Lemma of_list_get l t : Counter.get (Counter.of_list l) t = bag l t.
Proof.
  induction l as [|x l IH] using rev_ind; [reflexivity|].
  rewrite of_list_snoc, get_insert, bag_snoc.
  destruct (decide (x = t)) as [->|]; lia.
Qed.

Lemma of_list_keys l t : is_Some (Counter.of_list l !! t) -> t ∈ l.
Proof.
  induction l as [|x l IH] using rev_ind.
  - unfold Counter.of_list. simpl. rewrite lookup_empty. intros [? ?]. discriminate.
  - rewrite of_list_snoc, lookup_insert.
    destruct (decide (x = t)) as [->|]; intros H; set_solver.
Qed.

Lemma sum_over_ext f g ts :
  (forall t, t ∈ ts -> f t = g t) -> sum_over f ts = sum_over g ts.
Proof.
  induction ts as [|t ts IH]; intros H; simpl; [reflexivity|].
  rewrite (H t), IH; [reflexivity| |]; set_solver.
Qed.

Lemma sum_over_le f g ts :
  (forall t, f t <= g t) -> sum_over f ts <= sum_over g ts.
Proof.
  intros H. induction ts as [|t ts IH]; simpl; [lia|]. specialize (H t). lia.
Qed.

Lemma sum_over_nonneg f ts : (forall t, 0 <= f t) -> 0 <= sum_over f ts.
Proof.
  intros H. induction ts as [|t ts IH]; simpl; [lia|]. specialize (H t). lia.
Qed.

(** [sum(c.values())] is the sum of the counts over any duplicate-free list
    that holds every key. *)
Lemma total_sum ts :
  forall c : gmap str Z,
    NoDup ts -> (forall t, is_Some (c !! t) -> t ∈ ts) ->
    Counter.total c = sum_over (Counter.get c) ts.
Proof.
  induction ts as [|t ts IH]; intros c Hnd Hkeys.
  - assert (c = ∅) as ->.
    { apply map_eq. intros t. rewrite lookup_empty.
      destruct (c !! t) eqn:E; [|reflexivity].
      exfalso. specialize (Hkeys t (mk_is_Some _ _ E)). set_solver. }
    reflexivity.
  - apply NoDup_cons in Hnd as [Hnotin Hnd]. simpl.
    destruct (c !! t) as [v|] eqn:E.
    + unfold Counter.total.
      rewrite (map_fold_delete_L _ _ t v c); [|intros; lia|exact E].
      fold (Counter.total (delete t c)).
      rewrite (IH (delete t c) Hnd).
      * assert (Counter.get c t = v) as -> by (unfold Counter.get; now rewrite E).
        rewrite (sum_over_ext (Counter.get (delete t c)) (Counter.get c)); [lia|].
        intros t' Ht'. unfold Counter.get.
        rewrite lookup_delete_ne; [reflexivity|]. intros ->. contradiction.
      * intros t' [v' Hv']. rewrite lookup_delete in Hv'.
        destruct (decide (t = t')); [discriminate|].
        pose proof (Hkeys t' (mk_is_Some _ _ Hv')) as Hin.
        apply elem_of_cons in Hin as [->|]; [contradiction|assumption].
    + rewrite (IH c Hnd).
      * assert (Counter.get c t = 0) as -> by (unfold Counter.get; now rewrite E).
        lia.
      * intros t' [v' Hv'].
        pose proof (Hkeys t' (mk_is_Some _ _ Hv')) as Hin.
        apply elem_of_cons in Hin as [->|]; [congruence|assumption].
Qed.

(** The intersection holds the lesser count. *)
Lemma and_get (a b : gmap str Z) t :
  0 <= Counter.get a t -> 0 <= Counter.get b t ->
  Counter.get (Counter.and_ a b) t = Z.min (Counter.get a t) (Counter.get b t).
Proof.
  intros Ha Hb. remember (Counter.get b t) as o eqn:Ho.
  unfold Counter.and_, Counter.get in *.
  rewrite map_lookup_imap.
  destruct (a !! t) as [v|]; simpl in *; [|lia].
  rewrite <- Ho.
  destruct (v <? o) eqn:E1; [apply Z.ltb_lt in E1 | apply Z.ltb_ge in E1].
  - destruct (0 <? v) eqn:E2; simpl;
      [apply Z.ltb_lt in E2 | apply Z.ltb_ge in E2]; lia.
  - destruct (0 <? o) eqn:E2; simpl;
      [apply Z.ltb_lt in E2 | apply Z.ltb_ge in E2]; lia.
Qed.

Lemma and_keys (a b : gmap str Z) t :
  is_Some (Counter.and_ a b !! t) -> is_Some (a !! t).
Proof.
  unfold Counter.and_. rewrite map_lookup_imap.
  destruct (a !! t); simpl; [eauto|]. intros [? ?]. discriminate.
Qed.

Lemma vocabulary_NoDup g p : NoDup (vocabulary g p).
Proof. apply NoDup_remove_dups. Qed.

Lemma vocabulary_left g p t : t ∈ g -> t ∈ vocabulary g p.
Proof. unfold vocabulary. rewrite elem_of_remove_dups. set_solver. Qed.

Lemma vocabulary_right g p t : t ∈ p -> t ∈ vocabulary g p.
Proof. unfold vocabulary. rewrite elem_of_remove_dups. set_solver. Qed.

Lemma gt_total_spec g p : Counter.total (Counter.of_list g) = size_G g p.
Proof.
  rewrite (total_sum (vocabulary g p)).
  - apply sum_over_ext. intros. apply of_list_get.
  - apply vocabulary_NoDup.
  - intros t Ht. now apply vocabulary_left, of_list_keys.
Qed.

Lemma pred_total_spec g p : Counter.total (Counter.of_list p) = size_P g p.
Proof.
  rewrite (total_sum (vocabulary g p)).
  - apply sum_over_ext. intros. apply of_list_get.
  - apply vocabulary_NoDup.
  - intros t Ht. now apply vocabulary_right, of_list_keys.
Qed.

Lemma intersection_total_spec g p :
  Counter.total (Counter.and_ (Counter.of_list g) (Counter.of_list p)) = common g p.
Proof.
  rewrite (total_sum (vocabulary g p)).
  - apply sum_over_ext. intros t _.
    rewrite and_get; rewrite !of_list_get; try apply bag_nonneg. reflexivity.
  - apply vocabulary_NoDup.
  - intros t Ht. now apply vocabulary_left, of_list_keys, (and_keys _ _ _ Ht).
Qed.

Lemma common_nonneg g p : 0 <= common g p.
Proof.
  apply sum_over_nonneg. intros t.
  pose proof (bag_nonneg g t). pose proof (bag_nonneg p t). lia.
Qed.

Lemma common_le_P g p : common g p <= size_P g p.
Proof. apply sum_over_le. intros t. lia. Qed.

Lemma common_le_G g p : common g p <= size_G g p.
Proof. apply sum_over_le. intros t. lia. Qed.

End CounterFacts.


(** ** The single-prediction evaluator *)

Module EvaluatorFacts.
Import Reference Closed.

Section Rounding.
Context {F : Float}.
Hypothesis faithful : faithful_rounding F.

Lemma rnd_mono x y : (x <= y)%Q -> (rnd x <= rnd y)%Q.
Proof. apply faithful. Qed.

Lemma rnd_0 : (rnd 0 == 0)%Q.
Proof. apply faithful. Qed.

Lemma rnd_1 : (rnd 1 == 1)%Q.
Proof. apply faithful. Qed.

Lemma rnd_fixed x : (rnd (rnd x) == rnd x)%Q.
Proof. apply faithful. Qed.

Lemma rnd_nonneg x : (0 <= x)%Q -> (0 <= rnd x)%Q.
Proof.
  intros H. apply Qle_trans with (rnd 0); [|now apply rnd_mono].
  pose proof rnd_0. lra.
Qed.

Lemma rnd_unit x : unit_interval x -> unit_interval (rnd x).
Proof.
  intros [H0 H1]. split.
  - now apply rnd_nonneg.
  - apply Qle_trans with (rnd 1); [now apply rnd_mono|].
    pose proof rnd_1. lra.
Qed.

(** Rounding cannot push a value above a float that bounds it. *)
Lemma rnd_below x y : (x <= rnd y)%Q -> (rnd x <= rnd y)%Q.
Proof.
  intros H. apply Qle_trans with (rnd (rnd y)); [now apply rnd_mono|].
  pose proof (rnd_fixed y). lra.
Qed.
End Rounding.

Lemma ratio_unit a b : 0 <= a <= b -> 0 < b -> unit_interval (inject_Z a / inject_Z b).
Proof.
  intros [Ha Hab] Hb.
  assert (Hb' : (0 < inject_Z b)%Q).
  { change (inject_Z 0 < inject_Z b)%Q. now rewrite <- Zlt_Qlt. }
  split.
  - apply Qle_shift_div_l; [assumption|]. rewrite Qmult_0_l.
    change (inject_Z 0 <= inject_Z a)%Q. now rewrite <- Zle_Qle.
  - apply Qle_shift_div_r; [assumption|]. rewrite Qmult_1_l.
    now rewrite <- Zle_Qle.
Qed.

Section Fields.
Context {F : Float}.

Lemma calculate_similarity_spec s1 s2 :
  calculate_similarity s1 s2 = Ok (similarity_value s1 s2).
Proof.
  unfold calculate_similarity, similarity_value.
  destruct (decide (s1 = s2)); [reflexivity|].
  destruct (Z.max (len s1) (len s2) =? 0) eqn:Hz; [reflexivity|].
  rewrite LevenshteinFacts.calculate_levenshtein_distance_spec.
  cbn [mbind result_bind]. unfold truediv. rewrite Hz. reflexivity.
Qed.

Lemma size_P_nonneg g p : 0 <= size_P g p.
Proof. apply CounterFacts.sum_over_nonneg, CounterFacts.bag_nonneg. Qed.

Lemma size_G_nonneg g p : 0 <= size_G g p.
Proof. apply CounterFacts.sum_over_nonneg. intros. apply CounterFacts.bag_nonneg. Qed.

Lemma positive_test n : 0 <= n -> (0 <? n) = negb (n =? 0).
Proof.
  intros Hn. destruct (n =? 0) eqn:E; simpl.
  - apply Z.eqb_eq in E. subst. reflexivity.
  - apply Z.eqb_neq in E. apply Z.ltb_lt. lia.
Qed.

Context {U : Unicode}.
Import RenamePredictionEvaluator.

Lemma precision_spec gt pred :
  _calculate_token_precision (new gt pred) =
  Ok (precision (IdentifierTokenizer.tokenize gt) (IdentifierTokenizer.tokenize pred)).
Proof.
  unfold _calculate_token_precision, new, precision. cbn [_pred_total _intersection_total].
  rewrite (CounterFacts.pred_total_spec (IdentifierTokenizer.tokenize gt)).
  rewrite CounterFacts.intersection_total_spec.
  rewrite positive_test by apply size_P_nonneg.
  unfold truediv. destruct (size_P _ _ =? 0); reflexivity.
Qed.

Lemma recall_spec gt pred :
  _calculate_token_recall (new gt pred) =
  Ok (recall (IdentifierTokenizer.tokenize gt) (IdentifierTokenizer.tokenize pred)).
Proof.
  unfold _calculate_token_recall, new, recall. cbn [_gt_total _intersection_total].
  rewrite (CounterFacts.gt_total_spec _ (IdentifierTokenizer.tokenize pred)).
  rewrite CounterFacts.intersection_total_spec.
  rewrite positive_test by apply size_G_nonneg.
  unfold truediv. destruct (size_G _ _ =? 0); reflexivity.
Qed.

Lemma f1_spec gt pred :
  _calculate_token_f1 (new gt pred) =
  Ok (f1 (IdentifierTokenizer.tokenize gt) (IdentifierTokenizer.tokenize pred)).
Proof.
  unfold _calculate_token_f1. rewrite precision_spec, recall_spec.
  unfold new, f1. cbn [_gt_total _pred_total mbind result_bind].
  rewrite (CounterFacts.gt_total_spec _ (IdentifierTokenizer.tokenize pred)).
  rewrite (CounterFacts.pred_total_spec (IdentifierTokenizer.tokenize gt)).
  destruct ((size_G _ _ =? 0) && (size_P _ _ =? 0)); [reflexivity|].
  unfold fadd, fdiv, fmul.
  destruct (Qeq_bool (rnd (precision _ _ + recall _ _)) 0); reflexivity.
Qed.

(** The evaluator never raises, and its five fields in closed form. *)
Lemma run_spec gt pred :
  run gt pred =
  Ok {| exact_match := if decide (gt = pred) then 1 else 0;
        edit_similarity := similarity_value gt pred;
        token_precision :=
          precision (IdentifierTokenizer.tokenize gt) (IdentifierTokenizer.tokenize pred);
        token_recall :=
          recall (IdentifierTokenizer.tokenize gt) (IdentifierTokenizer.tokenize pred);
        token_f1 :=
          f1 (IdentifierTokenizer.tokenize gt) (IdentifierTokenizer.tokenize pred) |}.
Proof.
  unfold run, evaluate.
  rewrite precision_spec, recall_spec, f1_spec.
  unfold _calculate_edit_similarity, _calculate_exact_match.
  cbn [ground_truth prediction new].
  rewrite calculate_similarity_spec. reflexivity.
Qed.
End Fields.

End EvaluatorFacts.

(** C3. For every pair of strings the evaluator returns a MetricTuple (no
    input raises), and its token fields are the reference definitions over
    the two TokenBags: precision is [I/|P|] when [|P| > 0] and 0 otherwise,
    recall is [I/|G|] when [|G| > 0] and 0 otherwise, F1 is 1 when both bags
    are empty, else 0 when precision + recall is 0, else [2pr/(p+r)]. *)
Theorem evaluator_token_fields {U : Unicode} {F : Float} (ground_truth prediction : str) :
  exists m,
    RenamePredictionEvaluator.run ground_truth prediction = Ok m /\
    token_precision m =
      Reference.precision (IdentifierTokenizer.tokenize ground_truth)
        (IdentifierTokenizer.tokenize prediction) /\
    token_recall m =
      Reference.recall (IdentifierTokenizer.tokenize ground_truth)
        (IdentifierTokenizer.tokenize prediction) /\
    token_f1 m =
      Reference.f1 (IdentifierTokenizer.tokenize ground_truth)
        (IdentifierTokenizer.tokenize prediction).
Proof.
  eexists. split; [apply EvaluatorFacts.run_spec|]. repeat split.
Qed.

(** ** Every field lies between 0 and 1 *)

Module BoundFacts.
Import Reference Closed EvaluatorFacts.

Section Bounds.
Context {F : Float}.
Hypothesis faithful : faithful_rounding F.

Lemma unit_0 : unit_interval 0.
Proof. split; lra. Qed.

Lemma unit_1 : unit_interval 1.
Proof. split; lra. Qed.

Lemma similarity_unit s1 s2 : unit_interval (similarity_value s1 s2).
Proof.
  unfold similarity_value.
  destruct (decide (s1 = s2)); [apply unit_1|].
  destruct (Z.max (len s1) (len s2) =? 0) eqn:Hz; [apply unit_1|].
  apply Z.eqb_neq in Hz.
  pose proof (LevenshteinFacts.len_nonneg s1) as Hlen.
  pose proof (LevenshteinFacts.lev_nonneg s1 s2) as Hlev.
  pose proof (LevenshteinFacts.lev_le_max s1 s2) as Hmax.
  apply (rnd_unit faithful).
  destruct (rnd_unit faithful _
              (ratio_unit (Levenshtein.lev s1 s2) (Z.max (len s1) (len s2))
                 ltac:(lia) ltac:(lia))) as [H0 H1].
  split; lra.
Qed.

Lemma precision_unit g p : unit_interval (precision g p).
Proof.
  unfold precision. destruct (0 <? size_P g p) eqn:E; [|apply unit_0].
  apply Z.ltb_lt in E. apply (rnd_unit faithful), ratio_unit; [|assumption].
  split; [apply CounterFacts.common_nonneg | apply CounterFacts.common_le_P].
Qed.

Lemma recall_unit g p : unit_interval (recall g p).
Proof.
  unfold recall. destruct (0 <? size_G g p) eqn:E; [|apply unit_0].
  apply Z.ltb_lt in E. apply (rnd_unit faithful), ratio_unit; [|assumption].
  split; [apply CounterFacts.common_nonneg | apply CounterFacts.common_le_G].
Qed.

(** Precision and recall are floats: rounding leaves them alone. *)
Lemma precision_fixed g p : (rnd (precision g p) == precision g p)%Q.
Proof.
  unfold precision. destruct (0 <? size_P g p);
    [apply (rnd_fixed faithful) | apply (rnd_0 faithful)].
Qed.

Lemma recall_fixed g p : (rnd (recall g p) == recall g p)%Q.
Proof.
  unfold recall. destruct (0 <? size_G g p);
    [apply (rnd_fixed faithful) | apply (rnd_0 faithful)].
Qed.

(** The rounded product of two floats of the unit interval is below each. *)
Lemma product_below x y :
  unit_interval x -> unit_interval y -> (rnd x == x)%Q -> (rnd y == y)%Q ->
  (0 <= rnd (x * y) /\ rnd (x * y) <= x /\ rnd (x * y) <= y)%Q.
Proof.
  intros [Hx0 Hx1] [Hy0 Hy1] Hx Hy. repeat split.
  - apply (rnd_nonneg faithful). nra.
  - apply Qle_trans with (rnd x); [apply (rnd_mono faithful); nra | lra].
  - apply Qle_trans with (rnd y); [apply (rnd_mono faithful); nra | lra].
Qed.

Lemma f1_unit g p : unit_interval (f1 g p).
Proof.
  unfold f1.
  destruct ((size_G g p =? 0) && (size_P g p =? 0)); [apply unit_1|].
  destruct (Qeq_bool (rnd (precision g p + recall g p)) 0) eqn:E; [apply unit_0|].
  apply Qeq_bool_neq in E.
  pose proof (precision_unit g p) as Hp. pose proof (recall_unit g p) as Hr.
  destruct (product_below _ _ Hp Hr (precision_fixed g p) (recall_fixed g p))
    as (Hm0 & Hmp & Hmr).
  destruct Hp as [Hp0 _], Hr as [Hr0 _].
  set (num := rnd (2 * rnd (precision g p * recall g p))) in *.
  set (den := rnd (precision g p + recall g p)) in *.
  assert (Hnum : (0 <= num)%Q) by (apply (rnd_nonneg faithful); lra).
  assert (Hle : (num <= den)%Q) by (apply (rnd_mono faithful); lra).
  assert (Hden : (0 < den)%Q).
  { assert (Hden0 : (0 <= den)%Q) by (apply (rnd_nonneg faithful); lra).
    apply Qle_lt_or_eq in Hden0 as [|Heq]; [assumption|].
    exfalso. apply E. now symmetry. }
  apply (rnd_unit faithful). split.
  - apply Qle_shift_div_l; [assumption|]. lra.
  - apply Qle_shift_div_r; [assumption|]. lra.
Qed.
End Bounds.

End BoundFacts.

(** C6. Under a faithful rounding, for every pair of strings the evaluator
    returns a MetricTuple whose [exact_match] is 0 or 1 and whose
    [edit_similarity], [token_precision], [token_recall] and [token_f1] are
    each at least 0 and at most 1. *)
Theorem metric_fields_in_unit_interval {U : Unicode} {F : Float}
    (faithful : faithful_rounding F) (ground_truth prediction : str) :
  exists m,
    RenamePredictionEvaluator.run ground_truth prediction = Ok m /\
    (exact_match m = 0 \/ exact_match m = 1) /\
    (0 <= edit_similarity m /\ edit_similarity m <= 1)%Q /\
    (0 <= token_precision m /\ token_precision m <= 1)%Q /\
    (0 <= token_recall m /\ token_recall m <= 1)%Q /\
    (0 <= token_f1 m /\ token_f1 m <= 1)%Q.
Proof.
  eexists. split; [apply EvaluatorFacts.run_spec|]. cbn [exact_match edit_similarity
    token_precision token_recall token_f1].
  split; [destruct (decide (ground_truth = prediction)); auto|].
  split; [apply (BoundFacts.similarity_unit faithful)|].
  split; [apply (BoundFacts.precision_unit faithful)|].
  split; [apply (BoundFacts.recall_unit faithful)|].
  apply (BoundFacts.f1_unit faithful).
Qed.

Lemma exact_arithmetic_faithful : faithful_rounding exact_arithmetic.
Proof.
  repeat split; simpl; intros; try assumption; reflexivity.
Qed.

(** The bounds of C6 on the end-to-end scenario of the specification. *)
Lemma metric_fields_in_unit_interval_witness :
  exists m,
    @RenamePredictionEvaluator.run ascii_unicode binary64
      (lit "userId") (lit "userID") = Ok m /\
    (exact_match m = 0 \/ exact_match m = 1) /\
    (0 <= edit_similarity m /\ edit_similarity m <= 1)%Q /\
    (0 <= token_precision m /\ token_precision m <= 1)%Q /\
    (0 <= token_recall m /\ token_recall m <= 1)%Q /\
    (0 <= token_f1 m /\ token_f1 m <= 1)%Q.
Proof.
  exact (@metric_fields_in_unit_interval ascii_unicode binary64
           binary64_faithful (lit "userId") (lit "userID")).
Defined.

(** ** The selection of the best candidate *)

Module SelectionFacts.
Import Reference Closed BatchResultProcessor.

Ltac lex :=
  solve [ lra | lia | assumption
        | left; lex
        | right; split; [lex | lex]
        | split; [lex | lex] ].

Lemma Qgtb_spec x y : Qgtb x y = true <-> (y < x)%Q.
Proof.
  unfold Qgtb. rewrite negb_true_iff.
  destruct (Qle_bool x y) eqn:E.
  - apply Qle_bool_iff in E. split; [discriminate | lra].
  - split; [|reflexivity]. intros _.
    apply Qnot_le_lt. intros H. apply Qle_bool_iff in H. congruence.
Qed.

Lemma Qgtb_false x y : Qgtb x y = false -> (x <= y)%Q.
Proof.
  unfold Qgtb. rewrite negb_false_iff. apply Qle_bool_iff.
Qed.

(** [>] on keys is the strict order of the specification. *)
Lemma key_gt_ranks a b : key_gt (key a) (key b) = true -> ranks_below b a.
Proof.
  unfold key_gt, key, ranks_below.
  destruct (Qeq_bool (token_f1 a) (token_f1 b)) eqn:E1; simpl;
    [apply Qeq_bool_iff in E1 | intros H%Qgtb_spec; lex].
  destruct (exact_match a =? exact_match b) eqn:E2; simpl;
    [apply Z.eqb_eq in E2 | intros H%Z.gtb_lt; lex].
  destruct (Qeq_bool (edit_similarity a) (edit_similarity b)) eqn:E3; simpl;
    [apply Qeq_bool_iff in E3 | intros H%Qgtb_spec; lex].
  destruct (Qeq_bool (token_precision a) (token_precision b)) eqn:E4; simpl;
    [discriminate | intros H%Qgtb_spec; lex].
Qed.

Lemma key_not_gt a b : key_gt (key a) (key b) = false -> at_most a b.
Proof.
  unfold key_gt, key, at_most, ranks_below, ties_with.
  destruct (Qeq_bool (token_f1 a) (token_f1 b)) eqn:E1; simpl;
    [apply Qeq_bool_iff in E1
    | apply Qeq_bool_neq in E1; intros H%Qgtb_false; left; left; lra].
  destruct (exact_match a =? exact_match b) eqn:E2; simpl;
    [apply Z.eqb_eq in E2
    | apply Z.eqb_neq in E2; intros H; left; right; split; [lra|left];
      destruct (Z.gtb_spec (exact_match a) (exact_match b)); [discriminate|lia]].
  destruct (Qeq_bool (edit_similarity a) (edit_similarity b)) eqn:E3; simpl;
    [apply Qeq_bool_iff in E3
    | apply Qeq_bool_neq in E3; intros H%Qgtb_false; left; right; split; [lra|];
      right; split; [lia|]; left; lra].
  destruct (Qeq_bool (token_precision a) (token_precision b)) eqn:E4; simpl;
    [apply Qeq_bool_iff in E4; intros _; right; lex
    | apply Qeq_bool_neq in E4; intros H%Qgtb_false; left; right; split; [lra|];
      right; split; [lia|]; right; split; [lra|lra]].
Qed.

Lemma ranks_below_trans a b c : ranks_below a b -> ranks_below b c -> ranks_below a c.
Proof.
  unfold ranks_below.
  intros [H1|[E1 [H2|[E2 [H3|[E3 H4]]]]]] [G1|[F1 [G2|[F2 [G3|[F3 G4]]]]]]; lex.
Qed.

Lemma at_most_ranks_below a b c : at_most a b -> ranks_below b c -> ranks_below a c.
Proof.
  intros [H|(E1 & E2 & E3 & E4)]; [apply ranks_below_trans, H|].
  unfold ranks_below.
  intros [G1|[F1 [G2|[F2 [G3|[F3 G4]]]]]]; lex.
Qed.

Lemma at_most_refl a : at_most a a.
Proof. right. unfold ties_with. lex. Qed.

Lemma at_most_trans a b c : at_most a b -> at_most b c -> at_most a c.
Proof.
  intros Hab [Hbc|(E1 & E2 & E3 & E4)].
  - left. now apply (at_most_ranks_below a b c).
  - destruct Hab as [Hab|(F1 & F2 & F3 & F4)].
    + left. unfold ranks_below in *.
      destruct Hab as [H1|[G1 [H2|[G2 [H3|[G3 H4]]]]]]; lex.
    + right. unfold ties_with. lex.
Qed.

(** [max] returns an item of the list that none outranks and that outranks
    every item before it. *)
Lemma max_from_spec rest :
  forall first,
    exists i,
      (first :: rest) !! i = Some (max_from first rest) /\
      (forall j x, (first :: rest) !! j = Some x -> at_most x (max_from first rest)) /\
      (forall j x, (j < i)%nat -> (first :: rest) !! j = Some x ->
                   ranks_below x (max_from first rest)).
Proof.
  induction rest as [|item rest IH]; intros first.
  - exists 0%nat. cbn [max_from]. repeat split.
    + intros [|j] x Hx; [|discriminate]. injection Hx as <-. apply at_most_refl.
    + intros j x Hj. lia.
  - cbn [max_from]. destruct (key_gt (key item) (key first)) eqn:E.
    + destruct (IH item) as (i & Hi & Hall & Hbefore).
      assert (Hfirst : ranks_below first (max_from item rest)).
      { apply key_gt_ranks in E.
        destruct (Hall 0%nat item eq_refl) as [Hlt|Htie].
        - now apply (ranks_below_trans first item).
        - unfold ranks_below, ties_with in *.
          destruct Htie as (E1 & E2 & E3 & E4).
          destruct E as [H1|[G1 [H2|[G2 [H3|[G3 H4]]]]]]; lex. }
      exists (S i). repeat split.
      * exact Hi.
      * intros [|j] x Hx; [injection Hx as <-; now left | now apply (Hall j)].
      * intros [|j] x Hj Hx; [injection Hx as <-; assumption|].
        apply (Hbefore j); [lia | assumption].
    + destruct (IH first) as (i & Hi & Hall & Hbefore).
      apply key_not_gt in E.
      destruct i as [|i].
      * exists 0%nat. repeat split.
        -- exact Hi.
        -- intros [|[|j]] x Hx.
           ++ now apply (Hall 0%nat).
           ++ injection Hx as <-.
              now apply (at_most_trans item first), (Hall 0%nat).
           ++ now apply (Hall (S j)).
        -- intros j x Hj. lia.
      * exists (S (S i)). repeat split.
        -- exact Hi.
        -- intros [|[|j]] x Hx.
           ++ now apply (Hall 0%nat).
           ++ injection Hx as <-.
              now apply (at_most_trans item first), (Hall 0%nat).
           ++ now apply (Hall (S j)).
        -- intros [|[|j]] x Hj Hx.
           ++ apply (Hbefore 0%nat); [lia | assumption].
           ++ injection Hx as <-.
              apply (at_most_ranks_below item first); [assumption|].
              apply (Hbefore 0%nat); [lia | reflexivity].
           ++ apply (Hbefore (S j)); [lia | assumption].
Qed.

End SelectionFacts.

(** C2. The selection over an empty list of evaluated candidates is the
    all-zero MetricTuple.  Over a non-empty list it is an item of the list
    that is maximal for the order token_f1, then exact_match, then
    edit_similarity, then token_precision: every item ranks below it or has
    the same four-field key, and every item before it in rank order ranks
    strictly below it, so among equal keys the earliest is returned. *)
Theorem best_candidate_is_first_maximum (results : list MetricResult) :
  (results = [] ->
   BatchResultProcessor._determine_best_candidate results = MetricResult_.empty) /\
  (results <> [] ->
   exists i,
     results !! i = Some (BatchResultProcessor._determine_best_candidate results) /\
     (forall j x, results !! j = Some x ->
        Reference.ranks_below x (BatchResultProcessor._determine_best_candidate results) \/
        Reference.ties_with x (BatchResultProcessor._determine_best_candidate results)) /\
     (forall j x, (j < i)%nat -> results !! j = Some x ->
        Reference.ranks_below x (BatchResultProcessor._determine_best_candidate results))).
Proof.
  split.
  - now intros ->.
  - destruct results as [|first rest]; [congruence|]. intros _.
    apply SelectionFacts.max_from_spec.
Qed.

(** ** The extraction of candidates *)

Module ExtractionFacts.
Import Reference BatchResultProcessor.

Section Extraction.
Context {P : Repr}.

(** The validity test and the reference reading of a suggestion agree, and
    a valid suggestion can be subscripted by ["name"]. *)
Lemma valid_name_some sugg n item_index sugg_index warn :
  valid_name sugg = Some n ->
  _is_valid_suggestion sugg item_index sugg_index warn = (true, []) /\
  exists v, py_getitem sugg k_name = Ok v /\ py_str v = n.
Proof.
  destruct sugg as [| | | | |l|d]; try discriminate. simpl.
  destruct (d !! k_name) as [v|]; [|discriminate].
  destruct v; try discriminate; intros [= <-]; (split; [reflexivity|]); eauto.
Qed.

Lemma valid_name_none sugg item_index sugg_index warn :
  valid_name sugg = None ->
  (_is_valid_suggestion sugg item_index sugg_index warn).1 = false.
Proof.
  destruct sugg as [| | | | |l|d]; try reflexivity. simpl.
  destruct (d !! k_name) as [v|]; [|reflexivity].
  destruct v; try discriminate; reflexivity.
Qed.

Lemma collect_valid_spec suggestions item_index :
  forall i valid_names,
    collect_valid suggestions item_index i valid_names =
    Ok (valid_names ++ omap valid_name suggestions).
Proof.
  induction suggestions as [|sugg rest IH]; intros i valid_names.
  - simpl. now rewrite app_nil_r.
  - cbn [collect_valid omap list_omap]. fold (omap valid_name rest).
    destruct (valid_name sugg) as [n|] eqn:E.
    + destruct (valid_name_some sugg n item_index (Z.of_nat i) false E)
        as (-> & v & -> & <-).
      cbn [fst mbind result_bind]. rewrite IH. now rewrite <- app_assoc.
    + rewrite (valid_name_none sugg item_index (Z.of_nat i) false E). apply IH.
Qed.

Lemma extract_spec l item_index limit :
  _extract_valid_candidates (JList l) item_index limit =
  Ok (omap valid_name (slice_to l limit)).
Proof. unfold _extract_valid_candidates. apply collect_valid_spec. Qed.

Lemma slice_to_5 {A} (l : list A) : slice_to l 5 = take 5 l.
Proof. reflexivity. Qed.

Lemma omap_length_le {A B} (f : A -> option B) (l : list A) :
  (length (omap f l) <= length l)%nat.
Proof.
  induction l as [|x l IH]; [reflexivity|].
  cbn [omap list_omap length]. fold (omap f l).
  destruct (f x); cbn [length]; lia.
Qed.
End Extraction.

End ExtractionFacts.

(** C1, as the code has it.  With cap 5 the selector looks at the first five
    entries of the suggestion list only: it returns, in rank order, the names
    of the valid entries among them.  An invalid entry among the first five
    is skipped and still uses up one of the five places, so at most five
    names come back and an entry past the fifth place is never a
    candidate. *)
Theorem selection_scans_first_five {P : Repr} (suggestions : list json) (item_index : Z) :
  exists names,
    BatchResultProcessor._extract_valid_candidates (JList suggestions) item_index 5
      = Ok names /\
    names = omap Reference.valid_name (take 5 suggestions) /\
    (length names <= 5)%nat /\
    BatchResultProcessor._extract_valid_candidates (JList (take 5 suggestions))
      item_index 5 = Ok names.
Proof.
  eexists. split; [apply ExtractionFacts.extract_spec|].
  rewrite ExtractionFacts.slice_to_5. split; [reflexivity|]. split.
  - etransitivity; [apply ExtractionFacts.omap_length_le|].
    rewrite length_take. lia.
  - rewrite ExtractionFacts.extract_spec, ExtractionFacts.slice_to_5.
    now rewrite take_take.
Qed.

(** C1, as the specification words it, fails: after one null entry and five
    valid ones, a scan of the whole list finds five candidates, the code
    returns the four that stand among the first five entries. *)
Lemma selection_counts_invalid_entries :
  @BatchResultProcessor._extract_valid_candidates sample_repr
    (JList null_then_five) 0 5 = Ok [lit "a"; lit "b"; lit "c"; lit "d"] /\
  @Reference.scan_valid sample_repr null_then_five 5
    = [lit "a"; lit "b"; lit "c"; lit "d"; lit "e"] /\
  @BatchResultProcessor._extract_valid_candidates sample_repr
    (JList null_then_five) 0 5
    <> Ok (@Reference.scan_valid sample_repr null_then_five 5).
Proof.
  assert (H1 : @BatchResultProcessor._extract_valid_candidates sample_repr
                 (JList null_then_five) 0 5
               = Ok [lit "a"; lit "b"; lit "c"; lit "d"]) by (vm_compute; reflexivity).
  assert (H2 : @Reference.scan_valid sample_repr null_then_five 5
               = [lit "a"; lit "b"; lit "c"; lit "d"; lit "e"])
    by (vm_compute; reflexivity).
  split; [exact H1|]. split; [exact H2|].
  rewrite H1, H2. intros H. discriminate H.
Qed.

(** C10. A suggestion is valid exactly when it is an object whose [name] is
    present and not null, whatever the value is otherwise (0, an empty string,
    a list, an object); and for such a suggestion the candidate, on the top-5
    path and on the top-1 path, is [str()] of that value. *)
Theorem non_null_name_is_valid {U : Unicode} {F : Float} {P : Repr} :
  (forall sugg item_index sugg_index warn,
     (BatchResultProcessor._is_valid_suggestion sugg item_index sugg_index warn).1 = true
     <-> exists d v, sugg = JDict d /\ d !! k_name = Some v /\ v <> JNull) /\
  (forall d v item_index ground_truth,
     d !! k_name = Some v -> v <> JNull ->
     BatchResultProcessor._extract_valid_candidates (JList [JDict d]) item_index 5
       = Ok [py_str v] /\
     BatchResultProcessor.top_1_of ground_truth (JList [JDict d]) item_index
       = (m ← RenamePredictionEvaluator.run ground_truth (py_str v); Ok (m, []))).
Proof.
  split.
  - intros sugg item_index sugg_index warn. split.
    + destruct sugg as [| | | | |l|d]; simpl;
        try (destruct warn; discriminate).
      destruct (d !! k_name) as [v|] eqn:E; [|destruct warn; discriminate].
      destruct v; try (destruct warn; discriminate); intros _;
        exists d; eexists; (split; [reflexivity|]); (split; [exact E|]); discriminate.
    + intros (d & v & -> & E & Hv). simpl. rewrite E.
      destruct v; [contradiction| | | | | |]; reflexivity.
  - intros d v item_index ground_truth E Hv.
    assert (Hvalid : Reference.valid_name (JDict d) = Some (py_str v)).
    { simpl. rewrite E. destruct v; [contradiction| | | | | |]; reflexivity. }
    split.
    + rewrite ExtractionFacts.extract_spec, ExtractionFacts.slice_to_5.
      cbn [take omap list_omap]. now rewrite Hvalid.
    + unfold BatchResultProcessor.top_1_of.
      destruct (ExtractionFacts.valid_name_some _ _ item_index 0 true Hvalid)
        as (-> & w & Hw & _).
      unfold py_getitem. rewrite E. reflexivity.
Qed.

(** ** The tokenizer on ASCII identifiers *)

Module TokenizerFacts.
Import Re IdentifierTokenizer.

(** Replacing one class of characters is a character-wise map. *)
Lemma sub_one_class (f : N -> bool) (r : str) (s : str) :
  sub [Bare (One f)] [Lit r] s = concat (map (fun c => if f c then r else [c]) s).
Proof.
  unfold sub. induction s as [|c s IH]; [reflexivity|].
  cbn [sub_from map concat]. unfold match_at. cbn [match_pieces match_atoms].
  destruct (f c).
  - cbn [expand map concat length]. rewrite app_nil_r.
    replace (S (length s) - length s - 1)%nat with 0%nat by lia.
    now rewrite IH.
  - now rewrite IH.
Qed.

Section Agreement.
Context {U : Unicode}.
Hypothesis compatible : ascii_compatible U.

Lemma strip_non_word_ascii s :
  forallb is_ascii s = true ->
  @strip_non_word U s = @strip_non_word ascii_unicode s.
Proof.
  intros Hs. unfold strip_non_word. rewrite !sub_one_class. f_equal.
  apply map_ext_in. intros c Hc.
  rewrite forallb_forall in Hs. specialize (Hs c Hc).
  unfold word_char. cbn [isalnum ascii_unicode].
  destruct compatible as (Halnum & _ & _). rewrite (Halnum c Hs), Hs. reflexivity.
Qed.

Lemma split_from_ascii s :
  forall cur,
    forallb is_ascii s = true ->
    @split_from U s cur = @split_from ascii_unicode s cur.
Proof.
  induction s as [|c s IH]; intros cur Hs; [reflexivity|].
  cbn [forallb] in Hs. apply andb_true_iff in Hs as [Hc Hs].
  cbn [split_from]. cbn [isspace ascii_unicode].
  destruct compatible as (_ & Hspace & _). rewrite (Hspace c Hc), Hc. cbn [andb].
  destruct (ascii_isspace c); [destruct cur|]; now rewrite IH.
Qed.

Lemma lower_ascii toks :
  forallb (forallb is_ascii) toks = true ->
  map (@lower U) toks = map (@lower ascii_unicode) toks.
Proof.
  intros H. apply map_ext_in. intros t Ht.
  rewrite forallb_forall in H. destruct compatible as (_ & _ & Hlower).
  now apply Hlower, H.
Qed.

(** On an identifier that is ASCII and stays so, every runtime that agrees
    with CPython on ASCII yields the tokens of the ASCII tables. *)
Lemma tokenize_ascii s :
  forallb is_ascii s = true ->
  forallb is_ascii (@clean_identifier ascii_unicode s) = true ->
  forallb (forallb is_ascii) (@split ascii_unicode (@clean_identifier ascii_unicode s))
    = true ->
  @tokenize U s = @tokenize ascii_unicode s.
Proof.
  intros Hs Hclean Htoks. unfold tokenize. destruct s as [|c s]; [reflexivity|].
  assert (Hc : @clean_identifier U (c :: s) = @clean_identifier ascii_unicode (c :: s)).
  { unfold clean_identifier. now rewrite strip_non_word_ascii. }
  rewrite Hc. unfold split. rewrite split_from_ascii by assumption.
  now apply lower_ascii.
Qed.
End Agreement.

Lemma ascii_unicode_compatible : ascii_compatible ascii_unicode.
Proof.
  repeat split; cbn [isalnum isspace lower ascii_unicode]; intros c Hc;
    try rewrite Hc; reflexivity.
Defined.

End TokenizerFacts.

(** C5. On any runtime that agrees with CPython on ASCII, the tokenizer
    yields no token for the empty string and [xml, http, request, 2] for
    [XMLHttpRequest2]; steps 1 to 5 run in the order of the specification,
    the acronym rule before the camelCase rule: the acronym rule turns the
    identifier into [XML HttpRequest2] and the camelCase rule turns that into
    [XML Http Request2]. *)
Theorem tokenizer_test_vectors {U : Unicode} (compatible : ascii_compatible U) :
  IdentifierTokenizer.tokenize (lit "") = [] /\
  IdentifierTokenizer.tokenize (lit "XMLHttpRequest2")
    = [lit "xml"; lit "http"; lit "request"; lit "2"] /\
  (forall s,
     IdentifierTokenizer.clean_identifier s =
     IdentifierTokenizer.split_letter_digit
       (IdentifierTokenizer.split_digit_letter
          (IdentifierTokenizer.split_camel
             (IdentifierTokenizer.split_acronyms
                (IdentifierTokenizer.strip_underscores
                   (IdentifierTokenizer.strip_non_word s)))))) /\
  IdentifierTokenizer.split_acronyms (lit "XMLHttpRequest2") = lit "XML HttpRequest2" /\
  IdentifierTokenizer.split_camel (lit "XML HttpRequest2") = lit "XML Http Request2".
Proof.
  split; [reflexivity|]. split; [|split; [reflexivity|split; vm_compute; reflexivity]].
  rewrite (TokenizerFacts.tokenize_ascii compatible) by (vm_compute; reflexivity).
  vm_compute. reflexivity.
Qed.

(** The test vectors of C5 on the ASCII tables. *)
Lemma tokenizer_test_vectors_witness :
  @IdentifierTokenizer.tokenize ascii_unicode (lit "") = [] /\
  @IdentifierTokenizer.tokenize ascii_unicode (lit "XMLHttpRequest2")
    = [lit "xml"; lit "http"; lit "request"; lit "2"] /\
  (forall s,
     @IdentifierTokenizer.clean_identifier ascii_unicode s =
     IdentifierTokenizer.split_letter_digit
       (IdentifierTokenizer.split_digit_letter
          (IdentifierTokenizer.split_camel
             (IdentifierTokenizer.split_acronyms
                (IdentifierTokenizer.strip_underscores
                   (@IdentifierTokenizer.strip_non_word ascii_unicode s)))))) /\
  IdentifierTokenizer.split_acronyms (lit "XMLHttpRequest2") = lit "XML HttpRequest2" /\
  IdentifierTokenizer.split_camel (lit "XML HttpRequest2") = lit "XML Http Request2".
Proof.
  exact (@tokenizer_test_vectors ascii_unicode TokenizerFacts.ascii_unicode_compatible).
Defined.


(** ** The batch aggregation *)

Module ProcessFacts.
Import Reference Closed BatchResultProcessor.

Section Loop.
Context {U : Unicode} {F : Float} {P : Repr}.

Lemma evaluate_all_ok ground_truth candidates :
  exists ms, evaluate_all ground_truth candidates = Ok ms.
Proof.
  induction candidates as [|pred rest [ms IH]]; [now exists []|].
  cbn [evaluate_all]. rewrite EvaluatorFacts.run_spec, IH. eauto.
Qed.

Lemma top_1_of_ok ground_truth raw_suggestions index :
  exists m w, top_1_of ground_truth raw_suggestions index = Ok (m, w).
Proof.
  unfold top_1_of.
  destruct raw_suggestions as [| | | | |[|first rest]|d]; try (now eauto).
  destruct (valid_name first) as [n|] eqn:E.
  - destruct (ExtractionFacts.valid_name_some first n index 0 true E)
      as (-> & v & -> & _).
    cbn [mbind result_bind]. rewrite EvaluatorFacts.run_spec. eauto.
  - pose proof (ExtractionFacts.valid_name_none first index 0 true E) as Hno.
    destruct (_is_valid_suggestion first index 0 true) as [valid w].
    cbn [fst] in Hno. subst valid. eauto.
Qed.

Lemma top_5_of_ok ground_truth raw_suggestions index :
  exists m, top_5_of ground_truth raw_suggestions index = Ok m.
Proof.
  unfold top_5_of.
  assert (Hx : exists names,
            _extract_valid_candidates raw_suggestions index 5 = Ok names).
  { destruct raw_suggestions; try (now eexists).
    eexists. apply ExtractionFacts.extract_spec. }
  destruct Hx as [names ->]. cbn [mbind result_bind].
  destruct (evaluate_all_ok ground_truth names) as [ms ->]. eauto.
Qed.

(** A record that is an object is processed without an exception. *)
Lemma process_item_ok index item :
  is_object item = true ->
  exists item' m1 m5 w, process_item index item = Ok (item', m1, m5, w).
Proof.
  destruct item as [| | | | | |d]; try discriminate. intros _.
  unfold process_item, ground_truth_of. cbn [py_get mbind result_bind].
  match goal with
  | |- context [top_1_of ?g ?r index] =>
      destruct (top_1_of_ok g r index) as (m1 & w & ->);
      destruct (top_5_of_ok g r index) as (m5 & ->)
  end.
  cbn [mbind result_bind attach]. eauto 10.
Qed.

Lemma process_loop_spec items :
  forall index acc,
    forallb is_object items = true ->
    exists items' ms w,
      process_loop index items acc = Ok (items', foldl fold_in acc ms, w) /\
      length ms = length items /\
      forall i item, items !! i = Some item ->
        exists m1 m5 item' w',
          ms !! i = Some (m1, m5) /\
          process_item (Z.of_nat (index + i)) item = Ok (item', m1, m5, w').
Proof.
  induction items as [|item rest IH]; intros index acc Hobj.
  - exists [], [], []. repeat split. intros i item Hi. discriminate.
  - cbn [forallb] in Hobj. apply andb_true_iff in Hobj as [Hitem Hrest].
    destruct (process_item_ok (Z.of_nat index) item Hitem) as (item' & m1 & m5 & w & E).
    cbn [process_loop]. rewrite E. cbn [mbind result_bind].
    destruct (IH (S index)
                {| top_1 := _update_accumulator (top_1 acc) m1;
                   top_5 := _update_accumulator (top_5 acc) m5 |} Hrest)
      as (rest' & ms & ws & E' & Hlen & Hall).
    rewrite E'.
    cbn [mbind result_bind].
    exists (item' :: rest'), ((m1, m5) :: ms), (w ++ ws). repeat split.
    + cbn [length]. now rewrite Hlen.
    + intros [|i] x Hx.
      * injection Hx as <-. rewrite Nat.add_0_r. eauto 10.
      * destruct (Hall i x Hx) as (n1 & n5 & x' & w' & Hms & Hx').
        replace (index + S i)%nat with (S index + i)%nat by lia. eauto 10.
Qed.

(** The accumulators in closed form. *)
Lemma update_fold ms :
  forall a b c d e,
    foldl _update_accumulator
      {| d_exact_match := Int a; d_edit_similarity := Flt b;
         d_token_precision := Flt c; d_token_recall := Flt d;
         d_token_f1 := Flt e |} ms =
    {| d_exact_match := Int (foldl (fun acc m => acc + exact_match m) a ms);
       d_edit_similarity :=
         Flt (foldl (fun acc m => fadd acc (edit_similarity m)) b ms);
       d_token_precision :=
         Flt (foldl (fun acc m => fadd acc (token_precision m)) c ms);
       d_token_recall :=
         Flt (foldl (fun acc m => fadd acc (token_recall m)) d ms);
       d_token_f1 :=
         Flt (foldl (fun acc m => fadd acc (token_f1 m)) e ms) |}.
Proof.
  induction ms as [|m ms IH]; intros a b c d e; [reflexivity|].
  cbn [foldl]. unfold _update_accumulator at 2.
  cbn [asdict d_exact_match d_edit_similarity d_token_precision d_token_recall
       d_token_f1 num_add to_float].
  apply IH.
Qed.

Lemma fold_in_tiers ms :
  forall acc,
    foldl fold_in acc ms =
    {| top_1 := foldl _update_accumulator (top_1 acc) (map fst ms);
       top_5 := foldl _update_accumulator (top_5 acc) (map snd ms) |}.
Proof.
  induction ms as [|m ms IH]; intros acc; [now destruct acc|].
  cbn [foldl map]. now rewrite IH.
Qed.

Lemma fold_in_zero ms :
  foldl fold_in {| top_1 := _init_zero_metrics; top_5 := _init_zero_metrics |} ms =
  {| top_1 := sums (map fst ms); top_5 := sums (map snd ms) |}.
Proof.
  rewrite fold_in_tiers. cbn [top_1 top_5]. unfold _init_zero_metrics.
  now rewrite !update_fold.
Qed.

Hypothesis faithful : faithful_rounding F.

Lemma of_int_positive n : 0 < n -> Qeq_bool (of_int n) 0 = false.
Proof.
  intros Hn. destruct (Qeq_bool (of_int n) 0) eqn:E; [|reflexivity].
  apply Qeq_bool_iff in E. unfold of_int in E.
  assert (H1 : (1 <= inject_Z n)%Q).
  { change (inject_Z 1 <= inject_Z n)%Q. rewrite <- Zle_Qle. lia. }
  pose proof (EvaluatorFacts.rnd_mono faithful _ _ H1) as Hm.
  pose proof (EvaluatorFacts.rnd_1 faithful) as H1'. lra.
Qed.

Lemma num_truediv_share a n : 0 < n -> num_truediv a n = Ok (share n a).
Proof.
  intros Hn. destruct a as [x|x]; unfold num_truediv, share.
  - unfold truediv. replace (n =? 0) with false by (symmetry; apply Z.eqb_neq; lia).
    reflexivity.
  - unfold fdiv. now rewrite of_int_positive.
Qed.

Lemma get_avg_dict_spec acc n : 0 < n -> get_avg_dict acc n = Ok (averaged n acc).
Proof.
  intros Hn. unfold get_avg_dict. rewrite !num_truediv_share by assumption.
  reflexivity.
Qed.

Lemma final_averages_spec n acc :
  0 <= n ->
  _calculate_final_averages n acc =
  Ok (if n =? 0 then
        {| top_1_performance_metrics := zero_averages;
           top_5_performance_metrics := zero_averages |}
      else
        {| top_1_performance_metrics := averaged n (top_1 acc);
           top_5_performance_metrics := averaged n (top_5 acc) |}).
Proof.
  intros Hn. unfold _calculate_final_averages.
  destruct (n =? 0) eqn:E; [reflexivity|]. apply Z.eqb_neq in E.
  rewrite !get_avg_dict_spec by lia. reflexivity.
Qed.
End Loop.

End ProcessFacts.

(** C9. Under a faithful rounding, for every list of records (JSON objects)
    the run raises nothing, the accumulators hold the running sums of the
    per-record metrics of each tier, and every field of the final averages is
    the accumulated field divided by the number of records; for the empty
    list both tiers are all-zero and nothing is divided. *)
Theorem averages_divide_by_record_count {U : Unicode} {F : Float} {P : Repr}
    (faithful : faithful_rounding F) (records : list json) :
  forallb Reference.is_object records = true ->
  exists self out ms,
    BatchResultProcessor.new (JDict {[ k_results := JList records ]}) = Ok self /\
    BatchResultProcessor.total_items self = len records /\
    BatchResultProcessor.process self = Ok out /\
    length ms = length records /\
    (forall i item, records !! i = Some item ->
       exists m1 m5 item' w,
         ms !! i = Some (m1, m5) /\
         BatchResultProcessor.process_item (Z.of_nat i) item = Ok (item', m1, m5, w)) /\
    BatchResultProcessor.accumulators_after out =
      {| BatchResultProcessor.top_1 := Reference.sums (map fst ms);
         BatchResultProcessor.top_5 := Reference.sums (map snd ms) |} /\
    BatchResultProcessor.aggregates out =
      (if len records =? 0 then
         {| top_1_performance_metrics := Reference.zero_averages;
            top_5_performance_metrics := Reference.zero_averages |}
       else
         {| top_1_performance_metrics :=
              Reference.averaged (len records) (Reference.sums (map fst ms));
            top_5_performance_metrics :=
              Reference.averaged (len records) (Reference.sums (map snd ms)) |}).
Proof.
  intros Hobj.
  destruct (ProcessFacts.process_loop_spec records 0
              {| BatchResultProcessor.top_1 := BatchResultProcessor._init_zero_metrics;
                 BatchResultProcessor.top_5 := BatchResultProcessor._init_zero_metrics |}
              Hobj) as (items' & ms & w & Hloop & Hlen & Hall).
  rewrite ProcessFacts.fold_in_zero in Hloop.
  eexists. eexists. exists ms.
  split.
  { unfold BatchResultProcessor.new. cbn [py_get].
    rewrite lookup_singleton_eq.
    cbn [default from_option id mbind result_bind py_len]. reflexivity. }
  split; [reflexivity|].
  split.
  { unfold BatchResultProcessor.process.
    cbn [BatchResultProcessor.results BatchResultProcessor.accumulators
         BatchResultProcessor.total_items py_iter mbind result_bind id].
    rewrite Hloop. cbn [mbind result_bind].
    rewrite (ProcessFacts.final_averages_spec faithful)
      by apply LevenshteinFacts.len_nonneg.
    cbn [mbind result_bind]. reflexivity. }
  split; [exact Hlen|].
  split; [exact Hall|].
  split; reflexivity.
Qed.

(** C9 on the document of the end-to-end scenario, on binary64 floats. *)
Lemma averages_divide_by_record_count_witness :
  forallb Reference.is_object [sample_record] = true /\
  exists self out ms,
    BatchResultProcessor.new (JDict {[ k_results := JList [sample_record] ]})
      = Ok self /\
    BatchResultProcessor.total_items self = len [sample_record] /\
    @BatchResultProcessor.process ascii_unicode binary64 sample_repr self
      = Ok out /\
    length ms = length [sample_record] /\
    (forall i item, [sample_record] !! i = Some item ->
       exists m1 m5 item' w,
         ms !! i = Some (m1, m5) /\
         @BatchResultProcessor.process_item ascii_unicode binary64 sample_repr
           (Z.of_nat i) item = Ok (item', m1, m5, w)) /\
    BatchResultProcessor.accumulators_after out =
      {| BatchResultProcessor.top_1 := @Reference.sums binary64 (map fst ms);
         BatchResultProcessor.top_5 := @Reference.sums binary64 (map snd ms) |} /\
    BatchResultProcessor.aggregates out =
      (if len [sample_record] =? 0 then
         {| top_1_performance_metrics := Reference.zero_averages;
            top_5_performance_metrics := Reference.zero_averages |}
       else
         {| top_1_performance_metrics :=
              @Reference.averaged binary64 (len [sample_record])
                (@Reference.sums binary64 (map fst ms));
            top_5_performance_metrics :=
              @Reference.averaged binary64 (len [sample_record])
                (@Reference.sums binary64 (map snd ms)) |}).
Proof.
  split; [reflexivity|].
  exact (@averages_divide_by_record_count ascii_unicode binary64 sample_repr
           binary64_faithful [sample_record] eq_refl).
Defined.

(** ** The entry point *)

(** C7, what the code does.  The document the program writes holds the
    aggregate object and nothing else: it has no record list, although the
    records were augmented in memory.  On the end-to-end scenario the written
    document has no [results] while the document in memory holds the one
    record with its [performance_metrics]. *)
Theorem written_document_drops_records {U : Unicode} {F : Float} {P : Repr} :
  (forall data w,
     written (main (Document data)) = Some w ->
     (exists agg, w = JDict {[ k_aggregate := agg ]}) /\ records_of w = None) /\
  exists w m r,
    written (@main ascii_unicode binary64 sample_repr (Document sample_document))
      = Some w /\
    records_of w = None /\
    in_memory (@main ascii_unicode binary64 sample_repr (Document sample_document))
      = Some m /\
    records_of m = Some [r] /\
    py_contains r k_performance_metrics = Ok true.
Proof.
  split.
  - intros data w. unfold main.
    destruct (try_body data) as [[out data']|e] eqn:E; [|discriminate].
    cbn [written]. intros [= <-].
    unfold try_body in E.
    destruct (py_contains data k_results) as [present|]; [|discriminate].
    cbn [mbind result_bind] in E. destruct (negb present); [discriminate|].
    destruct (BatchResultProcessor.new data) as [self|]; [|discriminate].
    cbn [mbind result_bind] in E.
    unfold BatchResultProcessor.process in E.
    destruct (py_iter _) as [items|]; [|discriminate].
    cbn [mbind result_bind] in E.
    destruct (BatchResultProcessor.process_loop _ _ _) as [[[items' acc] ws]|];
      [|discriminate].
    cbn [mbind result_bind] in E.
    destruct (BatchResultProcessor._calculate_final_averages _ _) as [agg|];
      [|discriminate].
    cbn [mbind result_bind] in E. injection E as <- _.
    cbn [BatchResultProcessor.final_output]. split; [eauto|].
    unfold records_of. rewrite lookup_singleton_ne; [reflexivity|].
    vm_compute. discriminate.
  - eexists. eexists. eexists.
    split; [vm_compute; reflexivity|].
    split; [vm_compute; reflexivity|].
    split; [vm_compute; reflexivity|].
    split; vm_compute; reflexivity.
Qed.

(** C8, what the code does.  An undecodable document and a document without
    [results] are reported and nothing is written, but the program then ends
    normally, with exit status 0; only a missing file ends it with status 1. *)
Theorem fatal_errors_exit_zero {U : Unicode} {F : Float} {P : Repr} :
  main Undecodable =
    {| exit_code := 0; stdout := [msg_decode_failed];
       written := None; in_memory := None |} /\
  (forall data,
     py_contains data k_results = Ok false ->
     main (Document data) =
       {| exit_code := 0;
          stdout := [msg_traceback ValueError; msg_unexpected ValueError];
          written := None; in_memory := None |}) /\
  exit_code (main (Document (JDict ∅))) = 0 /\
  exit_code (main Missing) = 1.
Proof.
  split; [reflexivity|]. split; [|split; reflexivity].
  intros data H. unfold main, try_body. rewrite H. reflexivity.
Qed.


(** ** The test vectors of the specification, on binary64 floats *)

Module TestVectors.
Local Open Scope string_scope.

Definition metrics_of (ground_truth prediction : string) : result MetricResult :=
  @RenamePredictionEvaluator.run ascii_unicode binary64 (lit ground_truth) (lit prediction).

Definition select_best (ground_truth : string) (candidates : list string)
    : result MetricResult :=
  @BatchResultProcessor.top_5_of ascii_unicode binary64 sample_repr
    (lit ground_truth) (JList (map named candidates)) 0.

Example distance_kitten_sitting :
  StringDistanceCalculator.calculate_levenshtein_distance (lit "kitten") (lit "sitting")
  = Ok 3.
Proof. vm_compute. reflexivity. Qed.

Example evaluate_empty_empty :
  metrics_of "" "" =
  Ok {| exact_match := 1; edit_similarity := 1; token_precision := 0;
        token_recall := 0; token_f1 := 1 |}.
Proof. vm_compute. reflexivity. Qed.

Example evaluate_foo_bar :
  metrics_of "foo" "bar" =
  Ok {| exact_match := 0; edit_similarity := 0; token_precision := 0;
        token_recall := 0; token_f1 := 0 |}.
Proof. vm_compute. reflexivity. Qed.

(* 1.0 - 1/6 is the double 0.8333333333333334 *)
Example evaluate_userId_userID :
  metrics_of "userId" "userID" =
  Ok {| exact_match := 0;
        edit_similarity := 7505999378950827 # 9007199254740992;
        token_precision := 1; token_recall := 1; token_f1 := 1 |}.
Proof. vm_compute. reflexivity. Qed.

Example select_best_fooBar :
  select_best "fooBar" ["foo"; "fooBar"; "foobar"] = metrics_of "fooBar" "fooBar" /\
  select_best "fooBar" ["fooBar"; "foo"; "foobar"] = metrics_of "fooBar" "fooBar" /\
  select_best "fooBar" ["foobar"; "foo"; "fooBar"] = metrics_of "fooBar" "fooBar".
Proof. repeat split; vm_compute; reflexivity. Qed.

Example select_best_userId :
  select_best "userId" ["userID"; "uId"] = metrics_of "userId" "userID".
Proof. vm_compute. reflexivity. Qed.

(* {"name": 0}, {"name": ""}, {"name": []}, {"name": {}} are valid;
   {"name": null}, {} and "x" are not *)
Example falsy_names_are_valid :
  map (fun sugg => (BatchResultProcessor._is_valid_suggestion sugg 0 0 false).1)
    [JDict {[ k_name := JInt 0 ]}; JDict {[ k_name := JStr [] ]};
     JDict {[ k_name := JList [] ]}; JDict {[ k_name := JDict ∅ ]};
     JDict {[ k_name := JNull ]}; JDict ∅; JStr (lit "x")]
  = [true; true; true; true; false; false; false] /\
  @BatchResultProcessor._extract_valid_candidates sample_repr
    (JList [JDict {[ k_name := JInt 0 ]}; named "a"]) 0 5 = Ok [lit "0"; lit "a"].
Proof. split; vm_compute; reflexivity. Qed.

End TestVectors.

(** * Further properties *)

(** ** The Levenshtein routine as a metric *)

Module MetricFacts.
Import Levenshtein StringDistanceCalculator LevenshteinFacts.

Lemma edit_nonneg a b n : edit a b n -> 0 <= n.
Proof. induction 1; lia. Qed.

Lemma edit_refl a : edit a a 0.
Proof. induction a; now constructor. Qed.

Lemma edit_zero a b n : edit a b n -> n = 0 -> a = b.
Proof.
  induction 1 as [|c a b n H IH|c d a b n Hne H IH|c a b n H IH|d a b n H IH];
    intros Hn; try (apply edit_nonneg in H; lia).
  - reflexivity.
  - f_equal. now apply IH.
Qed.

Lemma edit_length a b n : edit a b n -> Z.abs (len a - len b) <= n.
Proof.
  induction 1; rewrite ?len_cons; lia.
Qed.

(** Two scripts in a row are worth one that costs no more. *)
Lemma edit_compose a b n :
  edit a b n -> forall c m, edit b c m -> exists k, k <= n + m /\ edit a c k.
Proof.
  induction 1 as [|x a b n H IH|x y a b n Hne H IH|x a b n H IH|y a b n H IH];
    intros c m H2.
  - exists m. split; [lia | assumption].
  - remember (x :: b) as b' eqn:E. revert E.
    induction H2 as [|z b0 c0 m0 H2 IH2|z d b0 c0 m0 Hzd H2 IH2
                    |z b0 c0 m0 H2 IH2|d b0 c0 m0 H2 IH2]; intros E.
    + discriminate.
    + injection E as -> ->. destruct (IH _ _ H2) as (k & Hk & Hed).
      exists k. split; [lia | now constructor].
    + injection E as -> ->. destruct (IH _ _ H2) as (k & Hk & Hed).
      exists (k + 1). split; [lia | now constructor].
    + injection E as -> ->. destruct (IH _ _ H2) as (k & Hk & Hed).
      exists (k + 1). split; [lia | now constructor].
    + destruct (IH2 E) as (k & Hk & Hed).
      exists (k + 1). split; [lia | now constructor].
  - remember (y :: b) as b' eqn:E. revert E.
    induction H2 as [|z b0 c0 m0 H2 IH2|z d b0 c0 m0 Hzd H2 IH2
                    |z b0 c0 m0 H2 IH2|d b0 c0 m0 H2 IH2]; intros E.
    + discriminate.
    + injection E as -> ->. destruct (IH _ _ H2) as (k & Hk & Hed).
      exists (k + 1). split; [lia | now constructor].
    + injection E as -> ->. destruct (IH _ _ H2) as (k & Hk & Hed).
      destruct (N.eq_dec x d) as [->|Hxd].
      * exists k. split; [lia | now constructor].
      * exists (k + 1). split; [lia | now constructor].
    + injection E as -> ->. destruct (IH _ _ H2) as (k & Hk & Hed).
      exists (k + 1). split; [lia | now constructor].
    + destruct (IH2 E) as (k & Hk & Hed).
      exists (k + 1). split; [lia | now constructor].
  - destruct (IH _ _ H2) as (k & Hk & Hed).
    exists (k + 1). split; [lia | now constructor].
  - remember (y :: b) as b' eqn:E. revert E.
    induction H2 as [|z b0 c0 m0 H2 IH2|z d b0 c0 m0 Hzd H2 IH2
                    |z b0 c0 m0 H2 IH2|d b0 c0 m0 H2 IH2]; intros E.
    + discriminate.
    + injection E as -> ->. destruct (IH _ _ H2) as (k & Hk & Hed).
      exists (k + 1). split; [lia | now constructor].
    + injection E as -> ->. destruct (IH _ _ H2) as (k & Hk & Hed).
      exists (k + 1). split; [lia | now constructor].
    + injection E as -> ->. destruct (IH _ _ H2) as (k & Hk & Hed).
      exists k. split; [lia | assumption].
    + destruct (IH2 E) as (k & Hk & Hed).
      exists (k + 1). split; [lia | now constructor].
Qed.

Lemma lev_triangle a b c : lev a c <= lev a b + lev b c.
Proof.
  destruct (edit_compose a b _ (edit_lev a b) c _ (edit_lev b c)) as (k & Hk & Hed).
  apply lev_le_edit in Hed. lia.
Qed.

Lemma lev_zero a b : lev a b = 0 <-> a = b.
Proof.
  split.
  - intros H. apply (edit_zero a b (lev a b)); [apply edit_lev | assumption].
  - intros ->. apply Z.le_antisymm; [|apply lev_nonneg].
    apply lev_le_edit, edit_refl.
Qed.

Lemma lev_length a b : Z.abs (len a - len b) <= lev a b.
Proof. apply edit_length, edit_lev. Qed.

End MetricFacts.

(** X1. The distance does not depend on the order of its arguments. *)
Theorem distance_symmetric (a b : str) :
  StringDistanceCalculator.calculate_levenshtein_distance a b =
  StringDistanceCalculator.calculate_levenshtein_distance b a.
Proof.
  rewrite !LevenshteinFacts.calculate_levenshtein_distance_spec.
  now rewrite LevenshteinFacts.lev_sym.
Qed.

(** X2. The distance is 0 exactly between a string and itself. *)
Theorem distance_zero_iff_equal (a b : str) :
  StringDistanceCalculator.calculate_levenshtein_distance a b = Ok 0 <-> a = b.
Proof.
  rewrite LevenshteinFacts.calculate_levenshtein_distance_spec.
  rewrite <- MetricFacts.lev_zero. split; [now intros [= ->] | now intros ->].
Qed.

(** X3. The triangle inequality: going through a third string is never
    shorter. *)
Theorem distance_triangle (a b c : str) :
  exists dab dbc dac,
    StringDistanceCalculator.calculate_levenshtein_distance a b = Ok dab /\
    StringDistanceCalculator.calculate_levenshtein_distance b c = Ok dbc /\
    StringDistanceCalculator.calculate_levenshtein_distance a c = Ok dac /\
    dac <= dab + dbc.
Proof.
  exists (Levenshtein.lev a b), (Levenshtein.lev b c), (Levenshtein.lev a c).
  rewrite !LevenshteinFacts.calculate_levenshtein_distance_spec.
  repeat split. apply MetricFacts.lev_triangle.
Qed.

(** X4. The distance is at least the difference of the two lengths and at
    most the greater length. *)
Theorem distance_bounds (a b : str) :
  exists d,
    StringDistanceCalculator.calculate_levenshtein_distance a b = Ok d /\
    Z.abs (len a - len b) <= d /\ d <= Z.max (len a) (len b).
Proof.
  exists (Levenshtein.lev a b).
  rewrite LevenshteinFacts.calculate_levenshtein_distance_spec.
  split; [reflexivity|]. split.
  - apply MetricFacts.lev_length.
  - apply LevenshteinFacts.lev_le_max.
Qed.

(** ** More on the single-prediction evaluator *)

Module ScoreFacts.
Import Reference Closed EvaluatorFacts.

Lemma Qplus_swap (x y : Q) : (x + y)%Q = (y + x)%Q.
Proof.
  unfold Qplus. f_equal; [lia | apply Pos.mul_comm].
Qed.

Lemma Qmult_swap (x y : Q) : (x * y)%Q = (y * x)%Q.
Proof.
  unfold Qmult. f_equal; [lia | apply Pos.mul_comm].
Qed.

(** [&] on counters commutes. *)
Lemma and_comm (a b : gmap str Z) : Counter.and_ a b = Counter.and_ b a.
Proof.
  apply map_eq. intros t. unfold Counter.and_. rewrite !map_lookup_imap.
  unfold Counter.get.
  destruct (a !! t) as [v|] eqn:Ea, (b !! t) as [w|] eqn:Eb; simpl;
    try reflexivity.
  - destruct (v <? w) eqn:E1, (w <? v) eqn:E2;
      try apply Z.ltb_lt in E1; try apply Z.ltb_ge in E1;
      try apply Z.ltb_lt in E2; try apply Z.ltb_ge in E2;
      try lia; try reflexivity.
    assert (v = w) by lia. subst. reflexivity.
  - destruct (v <? 0) eqn:E1; [apply Z.ltb_lt in E1 | apply Z.ltb_ge in E1].
    + replace (0 <? v) with false by (symmetry; apply Z.ltb_ge; lia). reflexivity.
    + reflexivity.
  - destruct (w <? 0) eqn:E1; [apply Z.ltb_lt in E1 | apply Z.ltb_ge in E1].
    + replace (0 <? w) with false by (symmetry; apply Z.ltb_ge; lia). reflexivity.
    + reflexivity.
Qed.

Lemma common_comm g p : common g p = common p g.
Proof.
  rewrite <- !CounterFacts.intersection_total_spec. now rewrite and_comm.
Qed.

Lemma size_swap g p : size_P g p = size_G p g.
Proof.
  rewrite <- (CounterFacts.pred_total_spec g p).
  now rewrite <- (CounterFacts.gt_total_spec p g).
Qed.

Section Swap.
Context {F : Float}.

Lemma precision_swap g p : precision g p = recall p g.
Proof. unfold precision, recall. now rewrite common_comm, size_swap. Qed.

Lemma f1_swap g p : f1 g p = f1 p g.
Proof.
  assert (Er : recall g p = precision p g) by (symmetry; apply precision_swap).
  assert (Es : size_G g p = size_P p g) by (symmetry; apply size_swap).
  unfold f1. rewrite (precision_swap g p), Er, (size_swap g p), Es.
  rewrite (andb_comm (size_P p g =? 0)).
  rewrite (Qplus_swap (recall p g) (precision p g)).
  rewrite (Qmult_swap (recall p g) (precision p g)). reflexivity.
Qed.

Lemma similarity_swap a b : similarity_value a b = similarity_value b a.
Proof.
  unfold similarity_value.
  rewrite (Z.max_comm (len a)), (LevenshteinFacts.lev_sym a b).
  destruct (decide (a = b)) as [->|Hne].
  - now rewrite decide_True.
  - rewrite decide_False by congruence. reflexivity.
Qed.
End Swap.

(** The counts of a bag add up to the number of tokens. *)
Lemma sum_indicator (x : str) ts :
  NoDup ts -> x ∈ ts ->
  sum_over (fun t => if decide (x = t) then 1 else 0) ts = 1.
Proof.
  induction ts as [|t ts IH]; intros Hnd Hin; [set_solver|].
  apply NoDup_cons in Hnd as [Hnotin Hnd]. simpl.
  destruct (decide (x = t)) as [->|Hne].
  - rewrite (CounterFacts.sum_over_ext _ (fun _ => 0)).
    + clear. induction ts; simpl; lia.
    + intros t' Ht'. rewrite decide_False; [reflexivity|]. intros ->. contradiction.
  - apply elem_of_cons in Hin as [->|Hin]; [contradiction|].
    rewrite IH; [lia|assumption|assumption].
Qed.

Lemma sum_over_plus f g ts :
  sum_over (fun t => f t + g t) ts = sum_over f ts + sum_over g ts.
Proof. induction ts as [|t ts IH]; simpl; lia. Qed.

Lemma sum_bag l ts :
  NoDup ts -> (forall t, t ∈ l -> t ∈ ts) -> sum_over (bag l) ts = len l.
Proof.
  intros Hnd. induction l as [|x l IH]; intros Hin.
  - simpl. clear. induction ts; simpl; unfold len in *; simpl in *; lia.
  - rewrite LevenshteinFacts.len_cons.
    change (bag (x :: l)) with (fun t => (if decide (x = t) then 1 else 0) + bag l t).
    rewrite sum_over_plus, sum_indicator, IH; [lia| | assumption |]; set_solver.
Qed.

Lemma size_P_len g p : size_P g p = len p.
Proof.
  apply sum_bag; [apply CounterFacts.vocabulary_NoDup|].
  intros t. apply CounterFacts.vocabulary_right.
Qed.

Lemma size_G_len g p : size_G g p = len g.
Proof.
  apply sum_bag; [apply CounterFacts.vocabulary_NoDup|].
  intros t. apply CounterFacts.vocabulary_left.
Qed.

Lemma common_self g : common g g = len g.
Proof.
  rewrite <- (size_P_len g g). unfold common, size_P.
  apply CounterFacts.sum_over_ext. intros. apply Z.min_id.
Qed.

Lemma common_nil_l p : common [] p = 0.
Proof.
  pose proof (CounterFacts.common_nonneg [] p).
  pose proof (CounterFacts.common_le_G [] p). rewrite size_G_len in *.
  unfold len in *. simpl in *. lia.
Qed.

Lemma common_nil_r g : common g [] = 0.
Proof. rewrite common_comm. apply common_nil_l. Qed.

(** A counter depends on the bag only. *)
Lemma bag_perm l l' t : l ≡ₚ l' -> bag l t = bag l' t.
Proof.
  induction 1; simpl; lia.
Qed.

Lemma of_list_lookup l t :
  Counter.of_list l !! t = if 0 <? bag l t then Some (bag l t) else None.
Proof.
  induction l as [|x l IH] using rev_ind.
  - reflexivity.
  - rewrite CounterFacts.of_list_snoc, lookup_insert, CounterFacts.bag_snoc.
    rewrite CounterFacts.of_list_get.
    pose proof (CounterFacts.bag_nonneg l t).
    destruct (decide (x = t)) as [->|Hne].
    + replace (0 <? bag l t + 1) with true by (symmetry; apply Z.ltb_lt; lia).
      reflexivity.
    + rewrite IH, Z.add_0_r. reflexivity.
Qed.

Lemma of_list_perm l l' : l ≡ₚ l' -> Counter.of_list l = Counter.of_list l'.
Proof.
  intros H. apply map_eq. intros t.
  now rewrite !of_list_lookup, (bag_perm l l' t H).
Qed.

Section Perm.
Context {F : Float}.

Lemma common_perm g g' p p' : g ≡ₚ g' -> p ≡ₚ p' -> common g p = common g' p'.
Proof.
  intros Hg Hp. rewrite <- !CounterFacts.intersection_total_spec.
  now rewrite (of_list_perm g g' Hg), (of_list_perm p p' Hp).
Qed.

Lemma size_P_perm g g' p p' : p ≡ₚ p' -> size_P g p = size_P g' p'.
Proof. intros Hp. rewrite !size_P_len. unfold len. now rewrite Hp. Qed.

Lemma size_G_perm g g' p p' : g ≡ₚ g' -> size_G g p = size_G g' p'.
Proof. intros Hg. rewrite !size_G_len. unfold len. now rewrite Hg. Qed.

Lemma precision_perm g g' p p' :
  g ≡ₚ g' -> p ≡ₚ p' -> precision g p = precision g' p'.
Proof.
  intros Hg Hp. unfold precision.
  now rewrite (common_perm g g' p p' Hg Hp), (size_P_perm g g' p p' Hp).
Qed.

Lemma recall_perm g g' p p' :
  g ≡ₚ g' -> p ≡ₚ p' -> recall g p = recall g' p'.
Proof.
  intros Hg Hp. unfold recall.
  now rewrite (common_perm g g' p p' Hg Hp), (size_G_perm g g' p p' Hg).
Qed.

Lemma f1_perm g g' p p' : g ≡ₚ g' -> p ≡ₚ p' -> f1 g p = f1 g' p'.
Proof.
  intros Hg Hp. unfold f1.
  now rewrite (precision_perm g g' p p' Hg Hp), (recall_perm g g' p p' Hg Hp),
    (size_P_perm g g' p p' Hp), (size_G_perm g g' p p' Hg).
Qed.
End Perm.

(** A faithful rounding maps equal rationals to equal rationals. *)
Section Values.
Context {F : Float}.
Hypothesis faithful : faithful_rounding F.

Lemma rnd_eq x y : (x == y)%Q -> (rnd x == rnd y)%Q.
Proof.
  intros E. apply Qle_antisym; apply (rnd_mono faithful); lra.
Qed.

Lemma rnd_is_0 x : (x == 0)%Q -> (rnd x == 0)%Q.
Proof. intros E. rewrite (rnd_eq x 0 E). apply (rnd_0 faithful). Qed.

Lemma rnd_is_1 x : (x == 1)%Q -> (rnd x == 1)%Q.
Proof. intros E. rewrite (rnd_eq x 1 E). apply (rnd_1 faithful). Qed.

Lemma rnd_2_pos : (1 <= rnd 2)%Q.
Proof.
  apply Qle_trans with (rnd 1); [pose proof (rnd_1 faithful); lra|].
  apply (rnd_mono faithful). lra.
Qed.

Lemma ratio_self n : 0 < n -> (inject_Z n / inject_Z n == 1)%Q.
Proof.
  intros Hn. field. intros E.
  assert (Hq : (0 < inject_Z n)%Q).
  { change (inject_Z 0 < inject_Z n)%Q. now rewrite <- Zlt_Qlt. }
  lra.
Qed.

Lemma ratio_zero n : (inject_Z 0 / inject_Z n == 0)%Q.
Proof. unfold Qdiv. change (inject_Z 0) with 0%Q. lra. Qed.

(** Identical token lists: precision and recall are 1, or 0 when there is
    no token, and F1 is 1. *)
Lemma precision_self g :
  (precision g g == if len g =? 0 then 0 else 1)%Q.
Proof.
  unfold precision. rewrite common_self, size_P_len.
  pose proof (LevenshteinFacts.len_nonneg g).
  destruct (len g =? 0) eqn:E.
  - apply Z.eqb_eq in E. rewrite E. reflexivity.
  - apply Z.eqb_neq in E.
    replace (0 <? len g) with true by (symmetry; apply Z.ltb_lt; lia).
    apply rnd_is_1, ratio_self. lia.
Qed.

Lemma recall_self g : (recall g g == if len g =? 0 then 0 else 1)%Q.
Proof. rewrite <- precision_swap. apply precision_self. Qed.

Lemma f1_self g : (f1 g g == 1)%Q.
Proof.
  unfold f1. rewrite size_G_len, size_P_len.
  pose proof (precision_self g) as Hp. pose proof (recall_self g) as Hr.
  destruct (len g =? 0); [reflexivity|]. cbn [andb].
  pose proof rnd_2_pos as H2.
  assert (Hden : (rnd (precision g g + recall g g) == rnd 2)%Q)
    by (apply rnd_eq; lra).
  assert (Hnum : (rnd (2 * rnd (precision g g * recall g g)) == rnd 2)%Q).
  { apply rnd_eq.
    assert (Hm : (rnd (precision g g * recall g g) == 1)%Q)
      by (apply rnd_is_1; rewrite Hp, Hr; lra).
    lra. }
  destruct (Qeq_bool (rnd (precision g g + recall g g)) 0) eqn:E.
  - apply Qeq_bool_iff in E. lra.
  - apply rnd_is_1. rewrite Hden, Hnum. field. lra.
Qed.

(** One side without a token: nothing is shared. *)
Lemma precision_no_token g p :
  g = [] \/ p = [] -> (precision g p == 0)%Q.
Proof.
  intros H. unfold precision.
  destruct (0 <? size_P g p); [|reflexivity].
  apply rnd_is_0.
  assert (E : common g p = 0) by (destruct H as [-> | ->];
                                   [apply common_nil_l | apply common_nil_r]).
  rewrite E. apply ratio_zero.
Qed.

Lemma recall_no_token g p :
  g = [] \/ p = [] -> (recall g p == 0)%Q.
Proof. intros H. rewrite <- precision_swap. apply precision_no_token. tauto. Qed.

Lemma f1_no_token g p :
  g = [] \/ p = [] ->
  f1 g p = match g, p with [], [] => 1%Q | _, _ => 0%Q end.
Proof.
  intros H. unfold f1. rewrite size_G_len, size_P_len.
  assert (Hs : (rnd (precision g p + recall g p) == 0)%Q).
  { apply rnd_is_0. rewrite (precision_no_token g p H), (recall_no_token g p H). lra. }
  apply Qeq_bool_iff in Hs. rewrite Hs.
  destruct g as [|x g], p as [|y p]; reflexivity.
Qed.

(** Against the empty string every character has to be inserted. *)
Lemma similarity_empty a : a <> [] -> (similarity_value [] a == 0)%Q.
Proof.
  intros Ha. unfold similarity_value.
  rewrite decide_False by congruence.
  assert (Hlen : 0 < len a).
  { destruct a; [contradiction|]. rewrite LevenshteinFacts.len_cons.
    pose proof (LevenshteinFacts.len_nonneg a). lia. }
  replace (Z.max (len []) (len a)) with (len a) by (unfold len at 2; simpl; lia).
  replace (len a =? 0) with false by (symmetry; apply Z.eqb_neq; lia).
  cbn [Levenshtein.lev].
  apply rnd_is_0.
  assert (E : (rnd (inject_Z (len a) / inject_Z (len a)) == 1)%Q)
    by (apply rnd_is_1, ratio_self; assumption).
  lra.
Qed.
End Values.

End ScoreFacts.

(** X5. Swapping ground truth and prediction swaps precision and recall and
    leaves exact match, edit similarity and F1 as they are. *)
Theorem evaluate_swapped {U : Unicode} {F : Float} (a b : str) :
  exists m m',
    RenamePredictionEvaluator.run a b = Ok m /\
    RenamePredictionEvaluator.run b a = Ok m' /\
    exact_match m' = exact_match m /\
    edit_similarity m' = edit_similarity m /\
    token_precision m' = token_recall m /\
    token_recall m' = token_precision m /\
    token_f1 m' = token_f1 m.
Proof.
  eexists. eexists.
  split; [apply EvaluatorFacts.run_spec|]. split; [apply EvaluatorFacts.run_spec|].
  cbn [exact_match edit_similarity token_precision token_recall token_f1].
  split.
  { destruct (decide (a = b)) as [->|Hne].
    - now rewrite decide_True.
    - now rewrite decide_False by congruence. }
  split; [apply ScoreFacts.similarity_swap|].
  split; [apply ScoreFacts.precision_swap|].
  split; [symmetry; apply ScoreFacts.precision_swap|].
  apply ScoreFacts.f1_swap.
Qed.

(** X6. An exact match gets full marks: for equal strings [exact_match] is 1,
    [edit_similarity] is 1 and [token_f1] is 1; precision and recall are 1
    when the string has a token and 0 when it has none. *)
Theorem exact_match_is_perfect {U : Unicode} {F : Float}
    (faithful : faithful_rounding F) (s : str) :
  exists m,
    RenamePredictionEvaluator.run s s = Ok m /\
    exact_match m = 1 /\ edit_similarity m = 1%Q /\ (token_f1 m == 1)%Q /\
    (token_precision m == if len (IdentifierTokenizer.tokenize s) =? 0 then 0 else 1)%Q /\
    (token_recall m == if len (IdentifierTokenizer.tokenize s) =? 0 then 0 else 1)%Q.
Proof.
  eexists. split; [apply EvaluatorFacts.run_spec|].
  cbn [exact_match edit_similarity token_precision token_recall token_f1].
  split; [now rewrite decide_True|].
  split; [unfold Closed.similarity_value; now rewrite decide_True|].
  split; [apply (ScoreFacts.f1_self faithful)|].
  split; [apply (ScoreFacts.precision_self faithful)
         | apply (ScoreFacts.recall_self faithful)].
Qed.

Lemma exact_match_is_perfect_witness :
  exists m,
    @RenamePredictionEvaluator.run ascii_unicode binary64 (lit "fooBar") (lit "fooBar")
      = Ok m /\
    exact_match m = 1 /\ edit_similarity m = 1%Q /\ (token_f1 m == 1)%Q /\
    (token_precision m ==
       if len (@IdentifierTokenizer.tokenize ascii_unicode (lit "fooBar")) =? 0
       then 0 else 1)%Q /\
    (token_recall m ==
       if len (@IdentifierTokenizer.tokenize ascii_unicode (lit "fooBar")) =? 0
       then 0 else 1)%Q.
Proof.
  exact (@exact_match_is_perfect ascii_unicode binary64 binary64_faithful (lit "fooBar")).
Defined.

(** X7. When one of the two strings has no token, precision and recall are
    0; F1 is then 1 if neither has a token (also when the strings differ) and
    0 otherwise. *)
Theorem no_token_scores {U : Unicode} {F : Float}
    (faithful : faithful_rounding F) (ground_truth prediction : str) :
  IdentifierTokenizer.tokenize ground_truth = [] \/
  IdentifierTokenizer.tokenize prediction = [] ->
  exists m,
    RenamePredictionEvaluator.run ground_truth prediction = Ok m /\
    (token_precision m == 0)%Q /\ (token_recall m == 0)%Q /\
    token_f1 m =
      match IdentifierTokenizer.tokenize ground_truth,
            IdentifierTokenizer.tokenize prediction with
      | [], [] => 1%Q
      | _, _ => 0%Q
      end.
Proof.
  intros H. eexists. split; [apply EvaluatorFacts.run_spec|].
  cbn [token_precision token_recall token_f1].
  split; [now apply (ScoreFacts.precision_no_token faithful)|].
  split; [now apply (ScoreFacts.recall_no_token faithful)|].
  now apply (ScoreFacts.f1_no_token faithful).
Qed.

(* "$" against "_": two different strings without a token *)
Lemma no_token_scores_witness :
  (@IdentifierTokenizer.tokenize ascii_unicode (lit "$") = [] \/
   @IdentifierTokenizer.tokenize ascii_unicode (lit "_") = []) /\
  exists m,
    @RenamePredictionEvaluator.run ascii_unicode binary64 (lit "$") (lit "_") = Ok m /\
    (token_precision m == 0)%Q /\ (token_recall m == 0)%Q /\
    token_f1 m =
      match @IdentifierTokenizer.tokenize ascii_unicode (lit "$"),
            @IdentifierTokenizer.tokenize ascii_unicode (lit "_") with
      | [], [] => 1%Q
      | _, _ => 0%Q
      end.
Proof.
  split; [left; reflexivity|].
  exact (@no_token_scores ascii_unicode binary64 binary64_faithful (lit "$") (lit "_")
           (or_introl eq_refl)).
Defined.

(** X8. Against an empty ground truth (a missing [new_name]) a non-empty
    prediction scores 0 on exact match and on edit similarity. *)
Theorem empty_ground_truth_scores {U : Unicode} {F : Float}
    (faithful : faithful_rounding F) (prediction : str) :
  prediction <> [] ->
  exists m,
    RenamePredictionEvaluator.run [] prediction = Ok m /\
    exact_match m = 0 /\ (edit_similarity m == 0)%Q.
Proof.
  intros H. eexists. split; [apply EvaluatorFacts.run_spec|].
  cbn [exact_match edit_similarity].
  split; [now rewrite decide_False by congruence|].
  now apply (ScoreFacts.similarity_empty faithful).
Qed.

Lemma empty_ground_truth_scores_witness :
  lit "userId" <> [] /\
  exists m,
    @RenamePredictionEvaluator.run ascii_unicode binary64 [] (lit "userId") = Ok m /\
    exact_match m = 0 /\ (edit_similarity m == 0)%Q.
Proof.
  split; [discriminate|].
  exact (@empty_ground_truth_scores ascii_unicode binary64 binary64_faithful
           (lit "userId") ltac:(discriminate)).
Defined.

(** X9. The token metrics depend on the two bags of tokens only: strings
    whose tokens are the same up to order get the same precision, recall and
    F1. *)
Theorem token_metrics_ignore_order {U : Unicode} {F : Float}
    (ground_truth ground_truth' prediction prediction' : str) :
  IdentifierTokenizer.tokenize ground_truth ≡ₚ IdentifierTokenizer.tokenize ground_truth' ->
  IdentifierTokenizer.tokenize prediction ≡ₚ IdentifierTokenizer.tokenize prediction' ->
  exists m m',
    RenamePredictionEvaluator.run ground_truth prediction = Ok m /\
    RenamePredictionEvaluator.run ground_truth' prediction' = Ok m' /\
    token_precision m' = token_precision m /\
    token_recall m' = token_recall m /\
    token_f1 m' = token_f1 m.
Proof.
  intros Hg Hp. eexists. eexists.
  split; [apply EvaluatorFacts.run_spec|]. split; [apply EvaluatorFacts.run_spec|].
  cbn [token_precision token_recall token_f1].
  split; [symmetry; now apply ScoreFacts.precision_perm|].
  split; [symmetry; now apply ScoreFacts.recall_perm|].
  symmetry; now apply ScoreFacts.f1_perm.
Qed.

Lemma sample_tokens_permuted :
  @IdentifierTokenizer.tokenize ascii_unicode (lit "userId") ≡ₚ
  @IdentifierTokenizer.tokenize ascii_unicode (lit "ID_user").
Proof.
  replace (@IdentifierTokenizer.tokenize ascii_unicode (lit "userId"))
    with [lit "user"; lit "id"] by (vm_compute; reflexivity).
  replace (@IdentifierTokenizer.tokenize ascii_unicode (lit "ID_user"))
    with [lit "id"; lit "user"] by (vm_compute; reflexivity).
  apply perm_swap.
Defined.

(* "userId" and "ID_user" against "getUser" *)
Lemma token_metrics_ignore_order_witness :
  exists m m',
    @RenamePredictionEvaluator.run ascii_unicode binary64 (lit "userId") (lit "getUser")
      = Ok m /\
    @RenamePredictionEvaluator.run ascii_unicode binary64 (lit "ID_user") (lit "getUser")
      = Ok m' /\
    token_precision m' = token_precision m /\
    token_recall m' = token_recall m /\
    token_f1 m' = token_f1 m.
Proof.
  exact (@token_metrics_ignore_order ascii_unicode binary64
           (lit "userId") (lit "ID_user") (lit "getUser") (lit "getUser")
           sample_tokens_permuted (Permutation_refl _)).
Defined.

(** ** The two tiers of a record *)

Module TierFacts.
Import Reference Closed BatchResultProcessor Derived.

Section Tiers.
Context {U : Unicode} {F : Float} {P : Repr}.

Lemma run_evaluated ground_truth prediction :
  RenamePredictionEvaluator.run ground_truth prediction
  = Ok (evaluated ground_truth prediction).
Proof. apply EvaluatorFacts.run_spec. Qed.

Lemma evaluate_all_spec ground_truth cs :
  evaluate_all ground_truth cs = Ok (map (evaluated ground_truth) cs).
Proof.
  induction cs as [|c cs IH]; [reflexivity|].
  cbn [evaluate_all]. now rewrite run_evaluated, IH.
Qed.

Lemma extract_candidates raw_suggestions index :
  _extract_valid_candidates raw_suggestions index 5 = Ok (candidates raw_suggestions).
Proof.
  destruct raw_suggestions; try reflexivity.
  now rewrite ExtractionFacts.extract_spec, ExtractionFacts.slice_to_5.
Qed.

Lemma top_5_of_spec ground_truth raw_suggestions index :
  top_5_of ground_truth raw_suggestions index
  = Ok (top_5_value ground_truth raw_suggestions).
Proof.
  unfold top_5_of. rewrite extract_candidates. cbn [mbind result_bind].
  now rewrite evaluate_all_spec.
Qed.

Lemma top_1_of_spec ground_truth raw_suggestions index :
  top_1_of ground_truth raw_suggestions index
  = Ok (top_1_value ground_truth raw_suggestions,
        first_slot_warning raw_suggestions index).
Proof.
  unfold top_1_of, top_1_value, first_slot_warning.
  destruct raw_suggestions as [| | | | |[|first rest]|d]; try reflexivity.
  destruct (valid_name first) as [n|] eqn:E.
  - destruct (ExtractionFacts.valid_name_some first n index 0 true E)
      as (-> & v & -> & <-).
    cbn [mbind result_bind]. now rewrite run_evaluated.
  - pose proof (ExtractionFacts.valid_name_none first index 0 true E) as Hno.
    destruct (_is_valid_suggestion first index 0 true) as [valid w].
    cbn [fst] in Hno. subst valid. reflexivity.
Qed.

(** The best candidate is one of the candidates and none outranks it. *)
Lemma best_member ms :
  ms <> [] -> _determine_best_candidate ms ∈ ms.
Proof.
  destruct ms as [|m ms]; [congruence|]. intros _.
  destruct (SelectionFacts.max_from_spec ms m) as (i & Hi & _).
  apply list_elem_of_lookup. eauto.
Qed.

Lemma best_at_most ms x :
  x ∈ ms -> at_most x (_determine_best_candidate ms).
Proof.
  destruct ms as [|m ms]; [intros H; inversion H|]. intros Hx.
  destruct (SelectionFacts.max_from_spec ms m) as (i & _ & Hall & _).
  apply list_elem_of_lookup in Hx as [j Hj]. now apply (Hall j).
Qed.

Hypothesis faithful : faithful_rounding F.

Lemma evaluated_bounds ground_truth prediction :
  (exact_match (evaluated ground_truth prediction) = 0 \/
   exact_match (evaluated ground_truth prediction) = 1) /\
  unit_interval (edit_similarity (evaluated ground_truth prediction)) /\
  unit_interval (token_precision (evaluated ground_truth prediction)) /\
  unit_interval (token_recall (evaluated ground_truth prediction)) /\
  unit_interval (token_f1 (evaluated ground_truth prediction)).
Proof.
  unfold evaluated. cbn [exact_match edit_similarity token_precision token_recall token_f1].
  split; [destruct (decide (ground_truth = prediction)); auto|].
  split; [apply (BoundFacts.similarity_unit faithful)|].
  split; [apply (BoundFacts.precision_unit faithful)|].
  split; [apply (BoundFacts.recall_unit faithful)|].
  apply (BoundFacts.f1_unit faithful).
Qed.

Lemma empty_within_bounds : within_bounds MetricResult_.empty.
Proof.
  unfold within_bounds, unit_interval. cbn.
  split; [auto|]. repeat split; lra.
Qed.

Lemma best_within_bounds ground_truth cs :
  within_bounds (_determine_best_candidate (map (evaluated ground_truth) cs)).
Proof.
  destruct cs as [|c cs]; [apply empty_within_bounds|].
  assert (Hin : _determine_best_candidate (map (evaluated ground_truth) (c :: cs))
                ∈ map (evaluated ground_truth) (c :: cs))
    by (apply best_member; discriminate).
  apply list_elem_of_fmap in Hin as (x & -> & _). apply evaluated_bounds.
Qed.

Lemma top_1_within_bounds ground_truth raw_suggestions :
  within_bounds (top_1_value ground_truth raw_suggestions).
Proof.
  unfold top_1_value.
  destruct raw_suggestions as [| | | | |[|first rest]|d];
    try apply empty_within_bounds.
  destruct (valid_name first); [apply evaluated_bounds | apply empty_within_bounds].
Qed.

Lemma empty_at_most m : within_bounds m -> at_most MetricResult_.empty m.
Proof.
  unfold within_bounds, unit_interval, at_most, ranks_below, ties_with.
  cbn [MetricResult_.empty exact_match edit_similarity token_precision token_recall token_f1].
  intros (Hem & [Hs _] & [Hp _] & _ & [Hf _]).
  destruct (Qlt_le_dec 0 (token_f1 m)); [left; now left|].
  destruct (Z_lt_le_dec 0 (exact_match m)); [left; right; split; [lra|now left]|].
  destruct (Qlt_le_dec 0 (edit_similarity m));
    [left; right; split; [lra|right; split; [lia|now left]]|].
  destruct (Qlt_le_dec 0 (token_precision m));
    [left; right; split; [lra|right; split; [lia|right; split; [lra|assumption]]]|].
  right. repeat split; try lra; lia.
Qed.

Lemma evaluated_self_f1 s : (token_f1 (evaluated s s) == 1)%Q.
Proof. apply (ScoreFacts.f1_self faithful). Qed.

(** A perfect match cannot be outranked: whatever ranks at least as high
    has [exact_match] 1 as well. *)
Lemma at_most_exact s m :
  within_bounds m -> at_most (evaluated s s) m -> exact_match m = 1.
Proof.
  intros (Hem & _ & _ & _ & [_ Hf1]) H.
  pose proof (evaluated_self_f1 s) as Hs.
  assert (He : exact_match (evaluated s s) = 1)
    by (unfold evaluated; cbn [exact_match]; now rewrite decide_True).
  destruct H as [H|(E1 & E2 & _)]; [|lia].
  unfold ranks_below in H. rewrite He in H.
  destruct H as [H|[E [H|[E2 _]]]]; [lra|lia|lia].
Qed.

(** The top-5 tuple ranks at least as high as the top-1 tuple. *)
Lemma top_1_at_most_top_5 ground_truth raw_suggestions :
  at_most (top_1_value ground_truth raw_suggestions)
          (top_5_value ground_truth raw_suggestions).
Proof.
  unfold top_1_value, top_5_value, candidates.
  destruct raw_suggestions as [| | | | |[|first rest]|d];
    try apply SelectionFacts.at_most_refl.
  destruct (valid_name first) as [n|] eqn:E.
  - apply best_at_most. cbn [take omap list_omap]. rewrite E.
    cbn [map]. apply list_elem_of_here.
  - apply empty_at_most, best_within_bounds.
Qed.

Lemma top_5_within_bounds ground_truth raw_suggestions :
  within_bounds (top_5_value ground_truth raw_suggestions).
Proof. apply best_within_bounds. Qed.

(** Per field: F1 and exact match of top-5 are not below those of top-1. *)
Lemma top_5_f1_ge ground_truth raw_suggestions :
  (token_f1 (top_1_value ground_truth raw_suggestions)
   <= token_f1 (top_5_value ground_truth raw_suggestions))%Q.
Proof.
  destruct (top_1_at_most_top_5 ground_truth raw_suggestions) as [H|(E & _)]; [|lra].
  destruct H as [H|[E _]]; lra.
Qed.

Lemma top_1_exact_is_self ground_truth raw_suggestions :
  exact_match (top_1_value ground_truth raw_suggestions) = 1 ->
  top_1_value ground_truth raw_suggestions = evaluated ground_truth ground_truth.
Proof.
  unfold top_1_value.
  destruct raw_suggestions as [| | | | |[|first rest]|d]; try discriminate.
  destruct (valid_name first) as [n|]; [|discriminate].
  unfold evaluated at 1. cbn [exact_match].
  destruct (decide (ground_truth = n)) as [<-|]; [reflexivity|discriminate].
Qed.

Lemma top_5_exact_ge ground_truth raw_suggestions :
  exact_match (top_1_value ground_truth raw_suggestions)
  <= exact_match (top_5_value ground_truth raw_suggestions).
Proof.
  destruct (top_1_within_bounds ground_truth raw_suggestions) as ([H0|H1] & _).
  - destruct (top_5_within_bounds ground_truth raw_suggestions) as ([?|?] & _); lia.
  - rewrite H1.
    pose proof (top_1_at_most_top_5 ground_truth raw_suggestions) as H.
    rewrite (top_1_exact_is_self _ _ H1) in H.
    rewrite (at_most_exact _ _ (top_5_within_bounds _ _) H). lia.
Qed.

(** Hit at 5. *)
Lemma top_5_exact_iff ground_truth raw_suggestions :
  exact_match (top_5_value ground_truth raw_suggestions) = 1
  <-> ground_truth ∈ candidates raw_suggestions.
Proof.
  unfold top_5_value. generalize (candidates raw_suggestions) as cs. intros cs. split.
  - intros H. destruct cs as [|c cs']; [discriminate|].
    assert (Hin : _determine_best_candidate (map (evaluated ground_truth) (c :: cs'))
                  ∈ map (evaluated ground_truth) (c :: cs'))
      by (apply best_member; discriminate).
    apply list_elem_of_fmap in Hin as (x & Hx & Hin). rewrite Hx in H.
    unfold evaluated in H. cbn [exact_match] in H.
    destruct (decide (ground_truth = x)) as [->|]; [assumption|discriminate].
  - intros Hin. apply (at_most_exact ground_truth); [apply best_within_bounds|].
    apply best_at_most, list_elem_of_fmap. eauto.
Qed.
End Tiers.

End TierFacts.

(** ** The loop of [process], record by record *)

Module RecordFacts.
Import Reference Closed BatchResultProcessor Derived TierFacts.

Lemma metrics_key_not_new_name : k_performance_metrics <> k_new_name.
Proof. intros H. vm_compute in H. discriminate H. Qed.

Lemma metrics_key_not_suggestions : k_performance_metrics <> k_suggestions.
Proof. intros H. vm_compute in H. discriminate H. Qed.

Section Records.
Context {U : Unicode} {F : Float} {P : Repr}.

(** One turn of the loop on a record that is an object. *)
Lemma process_item_spec index d :
  process_item index (JDict d)
  = Ok (annotated (JDict d), (record_metrics (JDict d)).1,
        (record_metrics (JDict d)).2,
        first_slot_warning (record_suggestions d) index).
Proof.
  assert (Eg : ground_truth_of (JDict d) = Ok (record_ground_truth d)) by reflexivity.
  assert (Es : py_get (JDict d) k_suggestions (JList []) = Ok (record_suggestions d))
    by reflexivity.
  unfold process_item. rewrite Eg, Es. cbn [mbind result_bind].
  rewrite top_1_of_spec, top_5_of_spec. reflexivity.
Qed.


(** An annotated record has the ground truth, the suggestions and the
    metrics of the record it comes from. *)
Lemma annotated_metrics d :
  record_metrics (annotated (JDict d)) = record_metrics (JDict d).
Proof.
  cbn [annotated record_metrics]. unfold record_ground_truth, record_suggestions.
  rewrite !lookup_insert_ne
    by (apply metrics_key_not_new_name || apply metrics_key_not_suggestions).
  reflexivity.
Qed.

Lemma annotated_twice d : annotated (annotated (JDict d)) = annotated (JDict d).
Proof.
  pose proof (annotated_metrics d) as E.
  cbn [annotated] in *. rewrite E. now rewrite insert_insert_eq.
Qed.

(** The loop on records that are objects. *)
Lemma process_loop_values items :
  forall index acc,
    forallb is_object items = true ->
    process_loop index items acc
    = Ok (map annotated items, foldl fold_in acc (map record_metrics items),
          warnings_from index items).
Proof.
  induction items as [|item rest IH]; intros index acc Hobj; [reflexivity|].
  cbn [forallb] in Hobj. apply andb_true_iff in Hobj as [Hitem Hrest].
  destruct item as [| | | | | |d]; try discriminate.
  cbn [process_loop]. rewrite process_item_spec. cbn [mbind result_bind].
  rewrite (IH (S index)
             {| top_1 := _update_accumulator (top_1 acc) (record_metrics (JDict d)).1;
                top_5 := _update_accumulator (top_5 acc) (record_metrics (JDict d)).2 |}
             Hrest).
  reflexivity.
Qed.


(** Annotating changes neither the warnings nor the metrics. *)
Lemma annotated_object item : is_object (annotated item) = is_object item.
Proof. now destruct item. Qed.

Lemma annotated_all_objects items :
  forallb is_object (map annotated items) = forallb is_object items.
Proof.
  induction items as [|item rest IH]; [reflexivity|].
  cbn [map forallb]. now rewrite annotated_object, IH.
Qed.

Lemma annotated_idem item : annotated (annotated item) = annotated item.
Proof. destruct item; try reflexivity. apply annotated_twice. Qed.

Lemma annotated_record_metrics item :
  record_metrics (annotated item) = record_metrics item.
Proof. destruct item; try reflexivity. apply annotated_metrics. Qed.

Lemma annotated_warnings items :
  forall index, warnings_from index (map annotated items) = warnings_from index items.
Proof.
  induction items as [|item rest IH]; intros index; [reflexivity|].
  cbn [map warnings_from]. rewrite IH. f_equal.
  destruct item; try reflexivity. cbn [annotated].
  unfold record_suggestions.
  now rewrite lookup_insert_ne by apply metrics_key_not_suggestions.
Qed.
End Records.

End RecordFacts.

(** ** The accumulators and the averages of a run *)

Module AggregateFacts.
Import Reference Closed BatchResultProcessor Derived TierFacts RecordFacts.

Section Run.
Context {U : Unicode} {F : Float} {P : Repr}.

Lemma new_spec d :
  new (JDict d)
  = Ok {| full_json_data := JDict d;
          results := default (JList []) (d !! k_results);
          total_items := default 0 (match py_len (default (JList []) (d !! k_results)) with
                                    | Ok n => Some n
                                    | Raise _ => None
                                    end);
          accumulators := {| top_1 := _init_zero_metrics;
                             top_5 := _init_zero_metrics |} |}
    \/ exists e, new (JDict d) = Raise e.
Proof.
  unfold new. cbn [py_get mbind result_bind].
  destruct (py_len (default (JList []) (d !! k_results))); eauto.
Qed.

Lemma new_records d records :
  d !! k_results = Some (JList records) ->
  new (JDict d)
  = Ok {| full_json_data := JDict d;
          results := JList records;
          total_items := len records;
          accumulators := {| top_1 := _init_zero_metrics;
                             top_5 := _init_zero_metrics |} |}.
Proof. intros E. unfold new. cbn [py_get]. rewrite E. reflexivity. Qed.

(** The integer sum continues from its start. *)
Lemma foldl_int_from (field : MetricResult -> Z) ms :
  forall a, foldl (fun acc m => acc + field m) a ms = a + accumulated_int field ms.
Proof.
  unfold accumulated_int.
  induction ms as [|m ms IH]; intros a; cbn [foldl]; [lia|].
  rewrite (IH (a + field m)), (IH (0 + field m)). lia.
Qed.

Hypothesis faithful : faithful_rounding F.

(** A run over records that are objects, from any accumulators. *)
Lemma process_spec self records :
  results self = JList records ->
  total_items self = len records ->
  forallb is_object records = true ->
  process self = Ok (run_output (accumulators self) records).
Proof.
  intros Hres Htot Hobj. unfold process. rewrite Hres, Htot.
  cbn [py_iter mbind result_bind].
  rewrite process_loop_values by assumption. cbn [mbind result_bind].
  rewrite (ProcessFacts.final_averages_spec faithful)
    by apply LevenshteinFacts.len_nonneg.
  reflexivity.
Qed.

Lemma len_map {A B} (f : A -> B) l : len (map f l) = len l.
Proof. unfold len. now rewrite length_map. Qed.

(** A run over annotated records is the run over the records. *)
Lemma run_output_annotated acc records :
  run_output acc (map annotated records) = run_output acc records.
Proof.
  assert (Em : map record_metrics (map annotated records) = map record_metrics records).
  { rewrite map_map. apply map_ext. intros item. apply annotated_record_metrics. }
  assert (Ea : map annotated (map annotated records) = map annotated records).
  { rewrite map_map. apply map_ext. intros item. apply annotated_idem. }
  unfold run_output, run_aggregates.
  now rewrite Em, Ea, len_map, annotated_warnings.
Qed.

(** The body of [main] on a document whose records are objects. *)
Lemma try_body_records d records :
  d !! k_results = Some (JList records) ->
  forallb is_object records = true ->
  try_body (JDict d)
  = Ok (run_output {| top_1 := _init_zero_metrics; top_5 := _init_zero_metrics |}
          records,
        JDict (<[k_results := JList (map annotated records)]> d)).
Proof.
  intros E Hobj. unfold try_body. cbn [py_contains mbind result_bind].
  rewrite bool_decide_eq_true_2 by (rewrite E; eauto). cbn [negb].
  rewrite (new_records d records E). cbn [mbind result_bind].
  rewrite (process_spec _ records) by (reflexivity || assumption).
  cbn [mbind result_bind accumulators items_after run_output].
  unfold document_after. now rewrite E.
Qed.

(** *** Sums of fields that are ordered record by record *)

Lemma foldl_fadd_mono (field : MetricResult -> Q) (ms : list (MetricResult * MetricResult)) :
  (forall m, m ∈ ms -> (field m.1 <= field m.2)%Q) ->
  forall s s', (s <= s')%Q ->
    (foldl (fun acc m => fadd acc (field m)) s (map fst ms)
     <= foldl (fun acc m => fadd acc (field m)) s' (map snd ms))%Q.
Proof.
  induction ms as [|m ms IH]; intros Hall s s' Hs; [exact Hs|].
  cbn [map foldl]. apply IH.
  - intros x Hx. apply Hall. now right.
  - unfold fadd. apply (EvaluatorFacts.rnd_mono faithful).
    pose proof (Hall m ltac:(left)). lra.
Qed.

Lemma accumulated_mono field (ms : list (MetricResult * MetricResult)) :
  (forall m, m ∈ ms -> (field m.1 <= field m.2)%Q) ->
  (accumulated field (map fst ms) <= accumulated field (map snd ms))%Q.
Proof. intros H. apply foldl_fadd_mono; [assumption|lra]. Qed.

Lemma accumulated_int_mono (field : MetricResult -> Z)
    (ms : list (MetricResult * MetricResult)) :
  (forall m, m ∈ ms -> field m.1 <= field m.2) ->
  accumulated_int field (map fst ms) <= accumulated_int field (map snd ms).
Proof.
  induction ms as [|m ms IH]; intros Hall; [reflexivity|].
  unfold accumulated_int. cbn [map foldl].
  rewrite (foldl_int_from field (map fst ms)), (foldl_int_from field (map snd ms)).
  pose proof (Hall m ltac:(left)).
  assert (forall x, x ∈ ms -> field x.1 <= field x.2) as Hrest
    by (intros x Hx; apply Hall; now right).
  specialize (IH Hrest). lia.
Qed.

Lemma of_int_ge_1 n : 0 < n -> (1 <= rnd (inject_Z n))%Q.
Proof.
  intros Hn.
  assert (H1 : (1 <= inject_Z n)%Q).
  { change (inject_Z 1 <= inject_Z n)%Q. rewrite <- Zle_Qle. lia. }
  pose proof (EvaluatorFacts.rnd_mono faithful _ _ H1) as Hm.
  pose proof (EvaluatorFacts.rnd_1 faithful) as H1'. lra.
Qed.

Lemma share_float_mono n x y :
  0 < n -> (x <= y)%Q ->
  (num_value (share n (Flt x)) <= num_value (share n (Flt y)))%Q.
Proof.
  intros Hn Hxy. cbn [share num_value].
  apply (EvaluatorFacts.rnd_mono faithful).
  pose proof (of_int_ge_1 n Hn) as Hd.
  unfold Qdiv. apply Qmult_le_compat_r; [assumption|].
  apply Qinv_le_0_compat. lra.
Qed.

Lemma share_int_mono n x y :
  0 < n -> x <= y ->
  (num_value (share n (Int x)) <= num_value (share n (Int y)))%Q.
Proof.
  intros Hn Hxy. cbn [share num_value].
  apply (EvaluatorFacts.rnd_mono faithful).
  assert (Hn' : (0 < inject_Z n)%Q).
  { change (inject_Z 0 < inject_Z n)%Q. now rewrite <- Zlt_Qlt. }
  unfold Qdiv. apply Qmult_le_compat_r.
  - now rewrite <- Zle_Qle.
  - apply Qinv_le_0_compat. lra.
Qed.

(** *** Sums of fields between 0 and 1 *)

Lemma foldl_fadd_bounds (field : MetricResult -> Q) N ms :
  (forall k, 0 <= k <= N -> (rnd (inject_Z k) == inject_Z k)%Q) ->
  (forall m, m ∈ ms -> unit_interval (field m)) ->
  forall s k,
    0 <= k -> k + len ms <= N ->
    (0 <= s /\ s <= inject_Z k)%Q ->
    (0 <= foldl (fun acc m => fadd acc (field m)) s ms
     /\ foldl (fun acc m => fadd acc (field m)) s ms <= inject_Z (k + len ms))%Q.
Proof.
  intros Hint.
  induction ms as [|m ms IH]; intros Hall s k Hk HN [Hs0 Hsk].
  - cbn [foldl]. change (len (@nil MetricResult)) with 0. rewrite Z.add_0_r. now split.
  - rewrite LevenshteinFacts.len_cons in HN |- *.
    pose proof (LevenshteinFacts.len_nonneg ms) as Hlen.
    cbn [foldl]. replace (k + (len ms + 1)) with ((k + 1) + len ms) by lia.
    destruct (Hall m ltac:(left)) as [Hm0 Hm1].
    apply IH; [intros x Hx; apply Hall; now right|lia|lia|].
    unfold fadd. split.
    + apply (EvaluatorFacts.rnd_nonneg faithful). lra.
    + apply Qle_trans with (rnd (inject_Z (k + 1))).
      * apply (EvaluatorFacts.rnd_mono faithful).
        rewrite inject_Z_plus. change (inject_Z 1) with 1%Q. lra.
      * rewrite Hint by lia. lra.
Qed.

Lemma accumulated_bounds field ms :
  (forall k, 0 <= k <= len ms -> (rnd (inject_Z k) == inject_Z k)%Q) ->
  (forall m, m ∈ ms -> unit_interval (field m)) ->
  (0 <= accumulated field ms /\ accumulated field ms <= inject_Z (len ms))%Q.
Proof.
  intros Hint Hall.
  apply (foldl_fadd_bounds field (len ms) ms Hint Hall 0 0); [lia|lia|].
  change (inject_Z 0) with 0%Q. lra.
Qed.

Lemma accumulated_int_bounds (field : MetricResult -> Z) ms :
  (forall m, m ∈ ms -> 0 <= field m <= 1) ->
  0 <= accumulated_int field ms <= len ms.
Proof.
  induction ms as [|m ms IH]; intros Hall.
  - change (len (@nil MetricResult)) with 0. unfold accumulated_int. cbn. lia.
  - rewrite LevenshteinFacts.len_cons. unfold accumulated_int. cbn [foldl].
    rewrite (foldl_int_from field ms).
    pose proof (Hall m ltac:(left)).
    assert (forall x, x ∈ ms -> 0 <= field x <= 1) as Hrest
      by (intros x Hx; apply Hall; now right).
    specialize (IH Hrest). lia.
Qed.

Lemma share_float_unit n x :
  0 < n -> (rnd (inject_Z n) == inject_Z n)%Q ->
  (0 <= x /\ x <= inject_Z n)%Q ->
  unit_interval (num_value (share n (Flt x))).
Proof.
  intros Hn Hfix [H0 H1]. cbn [share num_value].
  apply (EvaluatorFacts.rnd_unit faithful).
  assert (Hn' : (0 < inject_Z n)%Q).
  { change (inject_Z 0 < inject_Z n)%Q. now rewrite <- Zlt_Qlt. }
  assert (Hd : (0 < rnd (inject_Z n))%Q) by lra.
  split.
  - apply Qle_shift_div_l; [assumption|]. lra.
  - apply Qle_shift_div_r; [assumption|]. lra.
Qed.

Lemma share_int_unit n x :
  0 < n -> 0 <= x <= n -> unit_interval (num_value (share n (Int x))).
Proof.
  intros Hn Hx. cbn [share num_value].
  apply (EvaluatorFacts.rnd_unit faithful), EvaluatorFacts.ratio_unit; lia.
Qed.

Lemma zero_averages_unit : dict_in_unit zero_averages.
Proof.
  unfold dict_in_unit, unit_interval, zero_averages; cbn.
  change (inject_Z 0) with 0%Q. repeat split; lra.
Qed.

Lemma averaged_sums_unit ms :
  ms <> [] ->
  (forall k, 0 <= k <= len ms -> (rnd (inject_Z k) == inject_Z k)%Q) ->
  (forall m, m ∈ ms -> within_bounds m) ->
  dict_in_unit (averaged (len ms) (sums ms)).
Proof.
  intros Hne Hint Hall.
  assert (Hn : 0 < len ms).
  { destruct ms; [congruence|]. rewrite LevenshteinFacts.len_cons.
    pose proof (LevenshteinFacts.len_nonneg ms). lia. }
  assert (Hfix : (rnd (inject_Z (len ms)) == inject_Z (len ms))%Q)
    by (apply Hint; lia).
  unfold dict_in_unit, averaged, sums.
  cbn [d_exact_match d_edit_similarity d_token_precision d_token_recall d_token_f1].
  split; [|split; [|split; [|split]]].
  - apply share_int_unit; [assumption|].
    apply accumulated_int_bounds. intros m Hm.
    destruct (Hall m Hm) as ([E|E] & _); lia.
  - apply share_float_unit; try assumption.
    apply accumulated_bounds; [assumption|]. intros m Hm. apply (Hall m Hm).
  - apply share_float_unit; try assumption.
    apply accumulated_bounds; [assumption|]. intros m Hm. apply (Hall m Hm).
  - apply share_float_unit; try assumption.
    apply accumulated_bounds; [assumption|]. intros m Hm. apply (Hall m Hm).
  - apply share_float_unit; try assumption.
    apply accumulated_bounds; [assumption|]. intros m Hm. apply (Hall m Hm).
Qed.

(** *** The metrics of the records *)

Lemma record_metrics_bounds item :
  within_bounds (record_metrics item).1 /\ within_bounds (record_metrics item).2.
Proof.
  destruct item; cbn [record_metrics fst snd];
    try (split; apply empty_within_bounds).
  split; [now apply top_1_within_bounds|now apply top_5_within_bounds].
Qed.

Lemma record_metrics_f1 item :
  (token_f1 (record_metrics item).1 <= token_f1 (record_metrics item).2)%Q.
Proof.
  destruct item; cbn [record_metrics fst snd]; try apply Qle_refl.
  now apply top_5_f1_ge.
Qed.

Lemma record_metrics_exact item :
  exact_match (record_metrics item).1 <= exact_match (record_metrics item).2.
Proof.
  destruct item; cbn [record_metrics fst snd]; try reflexivity.
  now apply top_5_exact_ge.
Qed.

End Run.

End AggregateFacts.

(** ** The two tiers of a record *)

(** X10. Hit at 5: under a faithful rounding the top-5 metric of a record
    always exists, its exact_match is 0 or 1, and it is 1 exactly when the
    ground truth is the name of a valid entry among the first five slots of
    the suggestion list. *)
Theorem top_5_exact_match_is_hit_at_5 {U : Unicode} {F : Float} {P : Repr}
    (faithful : faithful_rounding F)
    (ground_truth : str) (suggestions : list json) (index : Z) :
  exists m,
    BatchResultProcessor.top_5_of ground_truth (JList suggestions) index = Ok m /\
    (exact_match m = 0 \/ exact_match m = 1) /\
    (exact_match m = 1 <->
     ground_truth ∈ omap Reference.valid_name (take 5 suggestions)).
Proof.
  exists (Derived.top_5_value ground_truth (JList suggestions)).
  split; [apply TierFacts.top_5_of_spec|]. split.
  - apply (TierFacts.top_5_within_bounds faithful).
  - apply (TierFacts.top_5_exact_iff faithful ground_truth (JList suggestions)).
Qed.

Lemma top_5_exact_match_is_hit_at_5_witness :
  exists m,
    @BatchResultProcessor.top_5_of ascii_unicode binary64 sample_repr
      (lit "e") (JList null_then_five) 7 = Ok m /\
    (exact_match m = 0 \/ exact_match m = 1) /\
    (exact_match m = 1 <->
     lit "e" ∈ omap (@Reference.valid_name sample_repr) (take 5 null_then_five)).
Proof.
  exact (@top_5_exact_match_is_hit_at_5 ascii_unicode binary64 sample_repr
           binary64_faithful (lit "e") null_then_five 7).
Defined.

(** X11. The top-1 metric of a record reads the first entry of the list and
    nothing else: the rest of the list is immaterial; an invalid first entry
    gives the all-zero tuple and exactly one warning line, a valid one gives
    no warning; exact_match is 1 exactly when the first entry is valid and
    its name is the ground truth.  An empty list gives the all-zero tuple and
    no warning. *)
Theorem top_1_reads_first_entry {U : Unicode} {F : Float} {P : Repr}
    (ground_truth : str) (first : json) (rest : list json) (index : Z) :
  BatchResultProcessor.top_1_of ground_truth (JList (first :: rest)) index
    = BatchResultProcessor.top_1_of ground_truth (JList [first]) index /\
  (exists m w,
     BatchResultProcessor.top_1_of ground_truth (JList (first :: rest)) index
       = Ok (m, w) /\
     (exact_match m = 1 <-> Reference.valid_name first = Some ground_truth) /\
     (Reference.valid_name first = None ->
        m = MetricResult_.empty /\ exists line, w = [line]) /\
     (Reference.valid_name first <> None -> w = [])) /\
  BatchResultProcessor.top_1_of ground_truth (JList []) index
    = Ok (MetricResult_.empty, []).
Proof.
  split; [reflexivity|]. split; [|reflexivity].
  rewrite TierFacts.top_1_of_spec. do 2 eexists. split; [reflexivity|].
  unfold Derived.top_1_value, Derived.first_slot_warning.
  destruct (Reference.valid_name first) as [n|] eqn:E.
  - destruct (ExtractionFacts.valid_name_some first n index 0 true E)
      as (Hv & _).
    split; [|split; [discriminate|]].
    + unfold Derived.evaluated. cbn [exact_match].
      destruct (decide (ground_truth = n)) as [->|Hne]; split; intros H;
        try reflexivity; try discriminate.
      injection H as ->. congruence.
    + intros _. now rewrite Hv.
  - pose proof (ExtractionFacts.valid_name_none first index 0 true E) as Hno.
    split; [split; intros H; [cbn in H|]; discriminate H|]. split; [|congruence].
    intros _. split; [reflexivity|].
    unfold BatchResultProcessor._is_valid_suggestion, Reference.valid_name in *.
    destruct first as [| | | | | |d]; try (cbn [snd]; eauto; fail).
    destruct (d !! k_name) as [[]|]; try discriminate; cbn [snd]; eauto.
Qed.

(** X12. Under a faithful rounding the top-5 metric of a record never ranks
    below its top-1 metric in the order of the selection, and neither its
    token_f1 nor its exact_match is smaller. *)
Theorem top_5_not_below_top_1 {U : Unicode} {F : Float} {P : Repr}
    (faithful : faithful_rounding F)
    (ground_truth : str) (raw_suggestions : json) (index : Z) :
  exists m1 w m5,
    BatchResultProcessor.top_1_of ground_truth raw_suggestions index = Ok (m1, w) /\
    BatchResultProcessor.top_5_of ground_truth raw_suggestions index = Ok m5 /\
    Closed.at_most m1 m5 /\
    (token_f1 m1 <= token_f1 m5)%Q /\
    exact_match m1 <= exact_match m5.
Proof.
  do 3 eexists. split; [apply TierFacts.top_1_of_spec|].
  split; [apply TierFacts.top_5_of_spec|]. split; [|split].
  - now apply TierFacts.top_1_at_most_top_5.
  - now apply TierFacts.top_5_f1_ge.
  - now apply TierFacts.top_5_exact_ge.
Qed.

Lemma top_5_not_below_top_1_witness :
  exists m1 w m5,
    @BatchResultProcessor.top_1_of ascii_unicode binary64 sample_repr
      (lit "e") (JList null_then_five) 7 = Ok (m1, w) /\
    @BatchResultProcessor.top_5_of ascii_unicode binary64 sample_repr
      (lit "e") (JList null_then_five) 7 = Ok m5 /\
    Closed.at_most m1 m5 /\
    (token_f1 m1 <= token_f1 m5)%Q /\
    exact_match m1 <= exact_match m5.
Proof.
  exact (@top_5_not_below_top_1 ascii_unicode binary64 sample_repr
           binary64_faithful (lit "e") (JList null_then_five) 7).
Defined.

(** ** A run over a document *)

(** X13. Under a faithful rounding, on a document whose records are objects,
    the dataset averages of token_f1 and of exact_match of the top-5 tier are
    not below those of the top-1 tier. *)
Theorem top_5_averages_not_below_top_1 {U : Unicode} {F : Float} {P : Repr}
    (faithful : faithful_rounding F)
    (d : gmap str json) (records : list json) :
  d !! k_results = Some (JList records) ->
  forallb Reference.is_object records = true ->
  exists self out,
    BatchResultProcessor.new (JDict d) = Ok self /\
    BatchResultProcessor.process self = Ok out /\
    (Derived.num_value
       (d_token_f1 (top_1_performance_metrics (BatchResultProcessor.aggregates out)))
     <= Derived.num_value
          (d_token_f1 (top_5_performance_metrics (BatchResultProcessor.aggregates out))))%Q /\
    (Derived.num_value
       (d_exact_match (top_1_performance_metrics (BatchResultProcessor.aggregates out)))
     <= Derived.num_value
          (d_exact_match (top_5_performance_metrics (BatchResultProcessor.aggregates out))))%Q.
Proof.
  intros E Hobj. do 2 eexists.
  split; [apply (AggregateFacts.new_records d records E)|].
  split; [apply (AggregateFacts.process_spec faithful _ records);
          reflexivity || assumption|].
  cbn [BatchResultProcessor.aggregates Derived.run_output
       BatchResultProcessor.accumulators].
  unfold Derived.run_aggregates. rewrite ProcessFacts.fold_in_zero.
  cbn [BatchResultProcessor.top_1 BatchResultProcessor.top_5].
  destruct (len records =? 0) eqn:En.
  - cbn. split; apply Qle_refl.
  - apply Z.eqb_neq in En. pose proof (LevenshteinFacts.len_nonneg records).
    cbn [top_1_performance_metrics top_5_performance_metrics Reference.averaged
         Reference.sums d_token_f1 d_exact_match].
    split.
    + apply (AggregateFacts.share_float_mono faithful); [lia|].
      apply (AggregateFacts.accumulated_mono faithful).
      intros m Hm. apply list_elem_of_fmap in Hm as (item & -> & _).
      now apply AggregateFacts.record_metrics_f1.
    + apply (AggregateFacts.share_int_mono faithful); [lia|].
      apply AggregateFacts.accumulated_int_mono.
      intros m Hm. apply list_elem_of_fmap in Hm as (item & -> & _).
      now apply AggregateFacts.record_metrics_exact.
Qed.

Lemma top_5_averages_not_below_top_1_witness :
  exists self out,
    BatchResultProcessor.new (JDict {[ k_results := JList [sample_record] ]})
      = Ok self /\
    @BatchResultProcessor.process ascii_unicode binary64 sample_repr self = Ok out /\
    (Derived.num_value
       (d_token_f1 (top_1_performance_metrics (BatchResultProcessor.aggregates out)))
     <= Derived.num_value
          (d_token_f1 (top_5_performance_metrics (BatchResultProcessor.aggregates out))))%Q /\
    (Derived.num_value
       (d_exact_match (top_1_performance_metrics (BatchResultProcessor.aggregates out)))
     <= Derived.num_value
          (d_exact_match (top_5_performance_metrics (BatchResultProcessor.aggregates out))))%Q.
Proof.
  apply (@top_5_averages_not_below_top_1 ascii_unicode binary64 sample_repr
           binary64_faithful {[ k_results := JList [sample_record] ]} [sample_record]).
  - apply lookup_singleton_eq.
  - reflexivity.
Defined.

Module AverageFacts.

(** Under a faithful rounding that leaves the integers up to the number of
    records alone, every average lies between 0 and 1. *)
Lemma averages_unit {U : Unicode} {F : Float} {P : Repr}
    (faithful : faithful_rounding F)
    (d : gmap str json) (records : list json) :
  (forall k, 0 <= k <= len records -> (rnd (inject_Z k) == inject_Z k)%Q) ->
  d !! k_results = Some (JList records) ->
  forallb Reference.is_object records = true ->
  exists self out,
    BatchResultProcessor.new (JDict d) = Ok self /\
    BatchResultProcessor.process self = Ok out /\
    Derived.dict_in_unit (top_1_performance_metrics (BatchResultProcessor.aggregates out)) /\
    Derived.dict_in_unit (top_5_performance_metrics (BatchResultProcessor.aggregates out)).
Proof.
  intros Hint E Hobj. do 2 eexists.
  split; [apply (AggregateFacts.new_records d records E)|].
  split; [apply (AggregateFacts.process_spec faithful _ records);
          reflexivity || assumption|].
  cbn [BatchResultProcessor.aggregates Derived.run_output
       BatchResultProcessor.accumulators].
  unfold Derived.run_aggregates. rewrite ProcessFacts.fold_in_zero.
  cbn [BatchResultProcessor.top_1 BatchResultProcessor.top_5].
  destruct (len records =? 0) eqn:En.
  - cbn [top_1_performance_metrics top_5_performance_metrics].
    split; apply AggregateFacts.zero_averages_unit.
  - apply Z.eqb_neq in En.
    cbn [top_1_performance_metrics top_5_performance_metrics].
    assert (Hl1 : len (map fst (map Derived.record_metrics records)) = len records)
      by now rewrite !AggregateFacts.len_map.
    assert (Hl5 : len (map snd (map Derived.record_metrics records)) = len records)
      by now rewrite !AggregateFacts.len_map.
    split.
    + rewrite <- Hl1 at 1. apply (AggregateFacts.averaged_sums_unit faithful).
      * destruct records; [now contradiction En|discriminate].
      * now rewrite Hl1.
      * intros m Hm. apply list_elem_of_fmap in Hm as ([m1 m5] & -> & Hm).
        apply list_elem_of_fmap in Hm as (item & Ei & _).
        pose proof (AggregateFacts.record_metrics_bounds faithful item) as [H1 _].
        now rewrite <- Ei in H1.
    + rewrite <- Hl5 at 1. apply (AggregateFacts.averaged_sums_unit faithful).
      * destruct records; [now contradiction En|discriminate].
      * now rewrite Hl5.
      * intros m Hm. apply list_elem_of_fmap in Hm as ([m1 m5] & -> & Hm).
        apply list_elem_of_fmap in Hm as (item & Ei & _).
        pose proof (AggregateFacts.record_metrics_bounds faithful item) as [_ H5].
        now rewrite <- Ei in H5.
Qed.

(** binary64 leaves the integers below 2^53 alone. *)
Lemma binary64_integers k :
  Z.abs k < 2 ^ 53 -> (@rnd binary64 (inject_Z k) == inject_Z k)%Q.
Proof.
  intros Hk. cbn [rnd binary64]. apply Binary64Facts.round64_exact.
  exists k, 0. split; [exact Hk|]. split; [unfold Binary64.emin; lia|].
  change (2 ^ 0)%Q with 1%Q. now rewrite Qmult_1_r.
Qed.

End AverageFacts.

(** X14. On binary64 floats, for a document of fewer than 2^53 records that
    are objects, every dataset average of both tiers lies between 0 and 1:
    the running sums never exceed the number of records. *)
Theorem averages_in_unit_interval {U : Unicode} {P : Repr}
    (d : gmap str json) (records : list json) :
  len records < 2 ^ 53 ->
  d !! k_results = Some (JList records) ->
  forallb Reference.is_object records = true ->
  exists self out,
    BatchResultProcessor.new (JDict d) = Ok self /\
    @BatchResultProcessor.process U binary64 P self = Ok out /\
    Derived.dict_in_unit (top_1_performance_metrics (BatchResultProcessor.aggregates out)) /\
    Derived.dict_in_unit (top_5_performance_metrics (BatchResultProcessor.aggregates out)).
Proof.
  intros Hlen E Hobj.
  apply (AverageFacts.averages_unit binary64_faithful d records); try assumption.
  intros k Hk. apply AverageFacts.binary64_integers. lia.
Qed.

Lemma averages_in_unit_interval_witness :
  exists self out,
    BatchResultProcessor.new (JDict {[ k_results := JList [sample_record] ]})
      = Ok self /\
    @BatchResultProcessor.process ascii_unicode binary64 sample_repr self = Ok out /\
    Derived.dict_in_unit (top_1_performance_metrics (BatchResultProcessor.aggregates out)) /\
    Derived.dict_in_unit (top_5_performance_metrics (BatchResultProcessor.aggregates out)).
Proof.
  apply (@averages_in_unit_interval ascii_unicode sample_repr
           {[ k_results := JList [sample_record] ]} [sample_record]).
  - vm_compute. reflexivity.
  - apply lookup_singleton_eq.
  - reflexivity.
Defined.

(** X15. Processing is idempotent on documents: under a faithful rounding,
    when the records are objects, running the body of the program on the
    document a run leaves in memory gives the same output, the same printed
    lines and the same document again. *)
Theorem second_run_changes_nothing {U : Unicode} {F : Float} {P : Repr}
    (faithful : faithful_rounding F)
    (d : gmap str json) (records : list json) :
  d !! k_results = Some (JList records) ->
  forallb Reference.is_object records = true ->
  exists out data',
    try_body (JDict d) = Ok (out, data') /\
    try_body data' = Ok (out, data').
Proof.
  intros E Hobj. do 2 eexists.
  split; [apply (AggregateFacts.try_body_records faithful d records E Hobj)|].
  rewrite (AggregateFacts.try_body_records faithful _ (map Derived.annotated records)).
  - rewrite AggregateFacts.run_output_annotated, insert_insert_eq.
    rewrite map_map.
    rewrite (map_ext _ Derived.annotated
               (fun item => RecordFacts.annotated_idem item)).
    reflexivity.
  - apply lookup_insert_eq.
  - now rewrite RecordFacts.annotated_all_objects.
Qed.

Lemma second_run_changes_nothing_witness :
  exists out data',
    @try_body ascii_unicode binary64 sample_repr sample_document = Ok (out, data') /\
    @try_body ascii_unicode binary64 sample_repr data' = Ok (out, data').
Proof.
  apply (@second_run_changes_nothing ascii_unicode binary64 sample_repr
           binary64_faithful {[ k_results := JList [sample_record] ]} [sample_record]).
  - apply lookup_singleton_eq.
  - reflexivity.
Defined.

(** X16. A run returns as many records as it was given, in the same order;
    each has the key performance_metrics, and at every other key it has what
    the input record has there. *)
Theorem records_keep_their_fields {U : Unicode} {F : Float} {P : Repr}
    (faithful : faithful_rounding F)
    (d : gmap str json) (records : list json) :
  d !! k_results = Some (JList records) ->
  forallb Reference.is_object records = true ->
  exists self out,
    BatchResultProcessor.new (JDict d) = Ok self /\
    BatchResultProcessor.process self = Ok out /\
    length (BatchResultProcessor.items_after out) = length records /\
    forall i r,
      records !! i = Some (JDict r) ->
      exists r',
        BatchResultProcessor.items_after out !! i = Some (JDict r') /\
        is_Some (r' !! k_performance_metrics) /\
        forall key, key <> k_performance_metrics -> r' !! key = r !! key.
Proof.
  intros E Hobj. do 2 eexists.
  split; [apply (AggregateFacts.new_records d records E)|].
  split; [apply (AggregateFacts.process_spec faithful _ records);
          reflexivity || assumption|].
  cbn [BatchResultProcessor.items_after Derived.run_output].
  split; [apply length_map|].
  intros i r Hi. eexists. split; [|split].
  - change (map Derived.annotated records) with (Derived.annotated <$> records).
    rewrite list_lookup_fmap, Hi. reflexivity.
  - rewrite lookup_insert_eq. eauto.
  - intros key Hkey. now rewrite lookup_insert_ne.
Qed.

Lemma records_keep_their_fields_witness :
  exists self out,
    BatchResultProcessor.new (JDict {[ k_results := JList [sample_record] ]})
      = Ok self /\
    @BatchResultProcessor.process ascii_unicode binary64 sample_repr self = Ok out /\
    length (BatchResultProcessor.items_after out) = length [sample_record] /\
    forall i r,
      [sample_record] !! i = Some (JDict r) ->
      exists r',
        BatchResultProcessor.items_after out !! i = Some (JDict r') /\
        is_Some (r' !! k_performance_metrics) /\
        forall key, key <> k_performance_metrics -> r' !! key = r !! key.
Proof.
  apply (@records_keep_their_fields ascii_unicode binary64 sample_repr
           binary64_faithful {[ k_results := JList [sample_record] ]} [sample_record]).
  - apply lookup_singleton_eq.
  - reflexivity.
Defined.





(** ** The tokens of an identifier *)

Module TokenShapeFacts.
Import Re IdentifierTokenizer TokenShape.

(** *** What a match consumes *)

Lemma match_many_sound {R} cls s :
  forall seen (k : str -> str -> option R) r,
    match_many cls s seen k = Some r ->
    exists m rest, s = m ++ rest /\ m <> [] /\ k (seen ++ m) rest = Some r.
Proof.
  induction s as [|c s IH]; intros seen k r H; cbn [match_many] in H; [discriminate|].
  destruct (cls c); [|discriminate].
  destruct (match_many cls s (seen ++ [c]) k) as [r'|] eqn:E.
  - injection H as ->. apply IH in E as (m & rest & -> & _ & Hk).
    exists (c :: m), rest. rewrite <- app_assoc in Hk.
    split; [reflexivity|]. split; [discriminate|exact Hk].
  - exists [c], s. split; [reflexivity|]. split; [discriminate|exact H].
Qed.

Lemma match_atoms_sound {R} atoms :
  forall s seen (k : str -> str -> option R) r,
    match_atoms atoms s seen k = Some r ->
    exists m rest,
      s = m ++ rest /\ (atoms <> [] -> m <> []) /\ k (seen ++ m) rest = Some r.
Proof.
  induction atoms as [|[cls|cls] atoms IH]; intros s seen k r H; cbn [match_atoms] in H.
  - exists [], s. rewrite app_nil_r. split; [reflexivity|]. split; [congruence|exact H].
  - destruct s as [|c s]; [discriminate|]. destruct (cls c); [|discriminate].
    apply IH in H as (m & rest & -> & _ & Hk). rewrite <- app_assoc in Hk.
    exists (c :: m), rest. split; [reflexivity|]. split; [discriminate|exact Hk].
  - apply match_many_sound in H as (m1 & rest1 & -> & Hne & H).
    apply IH in H as (m2 & rest2 & -> & _ & Hk). rewrite <- app_assoc in Hk.
    exists (m1 ++ m2), rest2. rewrite <- app_assoc. split; [reflexivity|].
    split; [|exact Hk]. intros _ E. apply app_eq_nil in E as [E _]. contradiction.
Qed.

(** A match of a pattern of two groups: the captures, one after the other,
    are what was consumed. *)
Lemma match_at_two_groups g1 g2 s caps rest :
  match_at [Group g1; Group g2] s = Some (caps, rest) ->
  exists c1 c2, caps = [c1; c2] /\ s = c1 ++ c2 ++ rest /\ (g1 <> [] -> c1 <> []).
Proof.
  unfold match_at. cbn [match_pieces]. intros H.
  apply match_atoms_sound in H as (c1 & r1 & -> & Hne & H). cbn [app] in H.
  apply match_atoms_sound in H as (c2 & r2 & -> & _ & H). cbn [app] in H.
  injection H as <- <-. eauto.
Qed.

Lemma sub_from_skip p repl n :
  forall s, sub_from p repl s n = sub_from p repl (drop n s) 0.
Proof.
  induction n as [|n IH]; intros s; [now rewrite drop_0|].
  destruct s as [|c s]; [reflexivity|]. cbn [sub_from drop]. apply IH.
Qed.

Lemma sub_from_match p repl s caps m rest :
  match_at p s = Some (caps, rest) ->
  s = m ++ rest -> m <> [] ->
  sub_from p repl s 0 = expand repl caps ++ sub_from p repl rest 0.
Proof.
  intros Hm -> Hne. destruct m as [|c m]; [contradiction|].
  cbn [app sub_from]. cbn [app] in Hm. rewrite Hm. f_equal.
  rewrite sub_from_skip. f_equal.
  cbn [length]. rewrite length_app.
  replace (S (length m + length rest) - length rest - 1)%nat with (length m) by lia.
  apply drop_app_length.
Qed.

Lemma sub_from_no_match p repl c s :
  match_at p (c :: s) = None ->
  sub_from p repl (c :: s) 0 = c :: sub_from p repl s 0.
Proof. intros H. cbn [sub_from]. now rewrite H. Qed.

(** *** The rules that put spaces in *)

Lemma spaces_in_refl s : spaces_in s s.
Proof. induction s; constructor; assumption. Qed.

Lemma spaces_in_app s1 t1 s2 t2 :
  spaces_in s1 t1 -> spaces_in s2 t2 -> spaces_in (s1 ++ s2) (t1 ++ t2).
Proof. induction 1; intros H2; cbn [app]; try constructor; auto. Qed.

Lemma spaces_in_trans s t u : spaces_in s t -> spaces_in t u -> spaces_in s u.
Proof.
  intros Hst Htu. revert s Hst.
  induction Htu as [|c t u Htu IH|t u Htu IH]; intros s Hst.
  - exact Hst.
  - inversion Hst; subst.
    + apply spaces_keep. now apply IH.
    + apply spaces_put. now apply IH.
  - apply spaces_put. now apply IH.
Qed.

Lemma spaces_in_filter s t :
  spaces_in s t -> List.filter not_space t = List.filter not_space s.
Proof.
  induction 1 as [|c s t H IH|s t H IH]; [reflexivity| |exact IH].
  cbn [List.filter]. now rewrite IH.
Qed.

Lemma spaces_in_forall (Q : N -> bool) s t :
  Q space = true -> spaces_in s t -> forallb Q s = true -> forallb Q t = true.
Proof.
  intros Hq. induction 1 as [|c s t H IH|s t H IH]; intros Hs.
  - reflexivity.
  - cbn [forallb] in *. apply andb_true_iff in Hs as [Hc Hs].
    now rewrite Hc, IH.
  - cbn [forallb]. now rewrite Hq, IH.
Qed.

Lemma spaces_in_head s t d :
  spaces_in s t -> head t = Some d -> d = space \/ head s = Some d.
Proof.
  intros H. destruct H; cbn [head]; intros E; try discriminate.
  - now right.
  - injection E as <-. now left.
Qed.

Lemma has_pair_cons P Q c s :
  has_pair P Q (c :: s)
  = match head s with Some d => P c && Q d | None => false end || has_pair P Q s.
Proof. destruct s; reflexivity. Qed.

Lemma spaces_in_no_pair P Q s t :
  P space = false -> Q space = false ->
  spaces_in s t -> has_pair P Q s = false -> has_pair P Q t = false.
Proof.
  intros Hp Hq. induction 1 as [|c s t H IH|s t H IH]; intros Hs.
  - reflexivity.
  - rewrite has_pair_cons in Hs |- *. apply orb_false_iff in Hs as [Hc Hs].
    rewrite (IH Hs), orb_false_r.
    destruct (head t) as [d|] eqn:Et; [|reflexivity].
    destruct (spaces_in_head _ _ _ H Et) as [-> | E].
    + now rewrite Hq, andb_false_r.
    + now rewrite E in Hc.
  - rewrite has_pair_cons, (IH Hs), orb_false_r.
    destruct (head t); [|reflexivity]. now rewrite Hp.
Qed.

(** A rule [(g1)(g2) -> \1 \2] only puts spaces in. *)
Lemma sub_spaced_inserts g1 g2 :
  g1 <> [] ->
  forall s, spaces_in s (sub [Group g1; Group g2] spaced s).
Proof.
  intros Hg s. unfold sub.
  remember (length s) as n eqn:En. revert s En.
  induction n as [n IH] using lt_wf_ind. intros s En.
  destruct s as [|c s]; [constructor|].
  destruct (match_at [Group g1; Group g2] (c :: s)) as [[caps rest]|] eqn:Em.
  - destruct (match_at_two_groups _ _ _ _ _ Em) as (c1 & c2 & -> & Es & Hne).
    specialize (Hne Hg).
    rewrite (sub_from_match _ _ _ _ (c1 ++ c2) rest Em).
    + rewrite Es. unfold spaced, expand. cbn [map concat nth pred].
      rewrite app_nil_r, <- !app_assoc.
      apply spaces_in_app; [apply spaces_in_refl|].
      cbn [app]. apply spaces_put.
      apply spaces_in_app; [apply spaces_in_refl|].
      apply (IH (length rest)); [|reflexivity].
      rewrite En, Es, !length_app.
      destruct c1; [contradiction|]. cbn [length]. lia.
    + now rewrite <- app_assoc.
    + intros E. apply app_eq_nil in E as [E _]. contradiction.
  - rewrite (sub_from_no_match _ _ _ _ Em). apply spaces_keep.
    apply (IH (length s)); [|reflexivity]. rewrite En. cbn [length]. lia.
Qed.

(** A rule [([P])([Q]) -> \1 \2] with disjoint classes leaves no character
    of [P] directly before one of [Q]. *)
Lemma match_at_pair P Q s :
  match_at [Group [One P]; Group [One Q]] s
  = match s with
    | c :: d :: rest => if P c && Q d then Some ([[c]; [d]], rest) else None
    | _ => None
    end.
Proof.
  unfold match_at. cbn [match_pieces match_atoms].
  destruct s as [|c [|d rest]]; [reflexivity| |].
  - now destruct (P c).
  - cbn [app]. destruct (P c); [|reflexivity]. now destruct (Q d).
Qed.

Lemma sub_pair_head P Q s :
  head (sub [Group [One P]; Group [One Q]] spaced s) = head s.
Proof.
  unfold sub. destruct s as [|c s]; [reflexivity|].
  cbn [sub_from]. rewrite match_at_pair.
  destruct s as [|d rest]; [reflexivity|].
  destruct (P c && Q d); reflexivity.
Qed.

Lemma sub_pair_no_pair P Q :
  P space = false -> Q space = false ->
  (forall c, Q c = true -> P c = false) ->
  forall s, has_pair P Q (sub [Group [One P]; Group [One Q]] spaced s) = false.
Proof.
  intros Hp Hq Hdis s.
  remember (length s) as n eqn:En. revert s En.
  induction n as [n IH] using lt_wf_ind. intros s En.
  destruct s as [|c s]; [reflexivity|].
  pose proof (match_at_pair P Q (c :: s)) as Em.
  destruct s as [|d rest].
  - unfold sub. now rewrite (sub_from_no_match _ _ _ _ Em).
  - destruct (P c && Q d) eqn:Ecd.
    + apply andb_true_iff in Ecd as [Hc Hd].
      unfold sub.
      rewrite (sub_from_match _ _ _ _ [c; d] rest Em) by (reflexivity || discriminate).
      unfold spaced, expand. cbn [map concat nth pred app].
      rewrite !has_pair_cons. cbn [head].
      rewrite Hq, Hp, andb_false_r. cbn [andb orb].
      change (sub_from [Group [One P]; Group [One Q]] [Ref 1; Lit [space]; Ref 2] rest 0)
        with (sub [Group [One P]; Group [One Q]] spaced rest).
      rewrite sub_pair_head, (Hdis d Hd).
      rewrite (IH (length rest)); [|rewrite En; cbn [length]; lia|reflexivity].
      now destruct (head rest).
    + unfold sub. rewrite (sub_from_no_match _ _ _ _ Em).
      change (sub_from [Group [One P]; Group [One Q]] spaced (d :: rest) 0)
        with (sub [Group [One P]; Group [One Q]] spaced (d :: rest)).
      rewrite has_pair_cons, sub_pair_head. cbn [head]. rewrite Ecd.
      apply (IH (length (d :: rest))); [rewrite En; cbn [length]; lia|reflexivity].
Qed.

(** *** The pieces [split] cuts *)

Lemma has_pair_app_l P Q a b : has_pair P Q (a ++ b) = false -> has_pair P Q a = false.
Proof.
  induction a as [|c a IH]; [reflexivity|]. cbn [app].
  rewrite !has_pair_cons. intros H. apply orb_false_iff in H as [Hc H].
  rewrite (IH H), orb_false_r. destruct a as [|d a]; [reflexivity|exact Hc].
Qed.

Lemma has_pair_app_r P Q a b : has_pair P Q (a ++ b) = false -> has_pair P Q b = false.
Proof.
  induction a as [|c a IH]; [trivial|]. cbn [app].
  rewrite has_pair_cons. intros H. apply orb_false_iff in H as [_ H]. auto.
Qed.

Lemma has_pair_factor P Q pre tok post :
  has_pair P Q (pre ++ tok ++ post) = false -> has_pair P Q tok = false.
Proof. intros H. now apply has_pair_app_r, has_pair_app_l in H. Qed.

Lemma forallb_factor (Q : N -> bool) pre tok post :
  forallb Q (pre ++ tok ++ post) = true -> forallb Q tok = true.
Proof.
  rewrite !forallb_app. intros H.
  apply andb_true_iff in H as [_ H]. now apply andb_true_iff in H as [H _].
Qed.

Section Split.
Context {U : Unicode}.

Lemma split_from_concat s :
  forall cur,
    concat (split_from s cur) = cur ++ List.filter (fun c => negb (isspace c)) s.
Proof.
  induction s as [|c s IH]; intros cur; cbn [split_from List.filter].
  - destruct cur; [reflexivity|]. cbn [concat]. now rewrite !app_nil_r.
  - destruct (isspace c); cbn [negb].
    + destruct cur; [apply IH|]. cbn [concat]. now rewrite IH.
    + rewrite IH. now rewrite <- app_assoc.
Qed.

(** Every piece is a non-empty factor of the string that has no space. *)
Lemma split_from_tokens s :
  forall cur tok,
    tok ∈ split_from s cur ->
    tok <> [] /\ exists pre post, cur ++ s = pre ++ tok ++ post.
Proof.
  induction s as [|c s IH]; intros cur tok Hin; cbn [split_from] in Hin.
  - destruct cur as [|x cur]; [now apply elem_of_nil in Hin|].
    apply list_elem_of_singleton in Hin as ->. split; [discriminate|].
    exists [], []. now rewrite !app_nil_r.
  - destruct (isspace c).
    + destruct cur as [|x cur].
      * apply IH in Hin as (Hne & pre & post & E). split; [assumption|].
        exists (c :: pre), post. cbn [app] in *. now rewrite E.
      * apply elem_of_cons in Hin as [->|Hin].
        -- split; [discriminate|]. exists [], (c :: s). reflexivity.
        -- apply IH in Hin as (Hne & pre & post & E). split; [assumption|].
           exists ((x :: cur) ++ c :: pre), post. cbn [app] in E.
           rewrite <- !app_assoc. cbn [app]. now rewrite E.
    + apply IH in Hin as (Hne & pre & post & E). split; [assumption|].
      exists pre, post. now rewrite <- app_assoc in E.
Qed.

Lemma split_from_no_space s :
  forall cur tok,
    forallb (fun c => negb (isspace c)) cur = true ->
    tok ∈ split_from s cur ->
    forallb (fun c => negb (isspace c)) tok = true.
Proof.
  induction s as [|c s IH]; intros cur tok Hcur Hin; cbn [split_from] in Hin.
  - destruct cur as [|x cur]; [now apply elem_of_nil in Hin|].
    now apply list_elem_of_singleton in Hin as ->.
  - destruct (isspace c) eqn:Ec.
    + destruct cur as [|x cur]; [now apply (IH [])|].
      apply elem_of_cons in Hin as [->|Hin]; [assumption|now apply (IH [])].
    + apply (IH (cur ++ [c])); [|assumption].
      rewrite forallb_app, Hcur. cbn [forallb]. now rewrite Ec.
Qed.
End Split.

(** *** ASCII classes *)

Ltac ranges :=
  unfold ascii_isalnum, ascii_isspace, letter_azAZ, lower_or_digit, digit_09, lower_az,
    upper_AZ, is_ascii, in_range, not_space, ascii_lower_char, space, underscore in *;
  repeat match goal with
         | H : _ = true |- _ =>
             first [apply andb_true_iff in H as [? ?] | apply orb_true_iff in H as [?|?]
                   | apply N.leb_le in H | apply N.ltb_lt in H | apply N.eqb_eq in H]
         | H : _ = false |- _ =>
             first [apply orb_false_iff in H as [? ?] | apply N.leb_gt in H
                   | apply N.ltb_ge in H | apply N.eqb_neq in H]
         end.

Lemma alnum_is_ascii c : ascii_isalnum c = true -> is_ascii c = true.
Proof. intros H. ranges; apply N.ltb_lt; lia. Qed.

Lemma alnum_not_underscore c : ascii_isalnum c = true -> (c =? underscore)%N = false.
Proof. intros H. apply N.eqb_neq. ranges; lia. Qed.

Lemma alnum_not_space c : ascii_isalnum c = true -> not_space c = true.
Proof.
  intros H. unfold not_space. apply negb_true_iff, N.eqb_neq. ranges; lia.
Qed.

Lemma alnum_not_isspace c : ascii_isalnum c = true -> ascii_isspace c = false.
Proof.
  intros H. destruct (ascii_isspace c) eqn:E; [|reflexivity]. exfalso. ranges; lia.
Qed.

Lemma digit_not_letter c : digit_09 c = true -> letter_azAZ c = false.
Proof.
  intros H. destruct (letter_azAZ c) eqn:E; [|reflexivity]. exfalso. ranges; lia.
Qed.

Lemma letter_not_digit c : letter_azAZ c = true -> digit_09 c = false.
Proof.
  intros H. destruct (digit_09 c) eqn:E; [|reflexivity]. exfalso. ranges; lia.
Qed.

Lemma lower_of_digit c : digit_09 c = true -> digit_09 (ascii_lower_char c) = true.
Proof.
  intros H. unfold ascii_lower_char.
  destruct (upper_AZ c) eqn:E; [|assumption]. exfalso. ranges; lia.
Qed.

Lemma lower_of_letter c : letter_azAZ c = true -> lower_az (ascii_lower_char c) = true.
Proof.
  intros H. unfold ascii_lower_char. destruct (upper_AZ c) eqn:E.
  - unfold lower_az, in_range. apply andb_true_iff. ranges; split; apply N.leb_le; lia.
  - unfold letter_azAZ in H. rewrite E, orb_false_r in H. exact H.
Qed.

(** A string of letters and digits in which no digit touches a letter is
    all digits or all letters. *)
Lemma homogeneous tok :
  forallb ascii_isalnum tok = true ->
  has_pair digit_09 letter_azAZ tok = false ->
  has_pair letter_azAZ digit_09 tok = false ->
  forallb digit_09 tok = true \/ forallb letter_azAZ tok = true.
Proof.
  induction tok as [|c tok IH]; intros Ha Hdl Hld; [now left|].
  cbn [forallb] in Ha. apply andb_true_iff in Ha as [Hc Ha].
  rewrite has_pair_cons in Hdl, Hld.
  apply orb_false_iff in Hdl as [Hdl1 Hdl], Hld as [Hld1 Hld].
  specialize (IH Ha Hdl Hld).
  destruct tok as [|d tok].
  - unfold ascii_isalnum in Hc. apply orb_true_iff in Hc as [Hc|Hc];
      [left|right]; cbn [forallb]; now rewrite Hc.
  - cbn [head] in Hdl1, Hld1. cbn [forallb] in IH |- *.
    destruct IH as [IH|IH]; apply andb_true_iff in IH as [Hd IH].
    + left. rewrite Hd, IH, !andb_true_r. rewrite Hd, andb_true_r in Hld1.
      unfold ascii_isalnum in Hc. now rewrite Hld1, orb_false_r in Hc.
    + right. rewrite Hd, IH, !andb_true_r. rewrite Hd, andb_true_r in Hdl1.
      unfold ascii_isalnum in Hc. now rewrite Hdl1 in Hc.
Qed.

(** *** The cleaned identifier, on the ASCII tables *)

Lemma steps_1_2 s :
  strip_underscores (@strip_non_word ascii_unicode s) = map kept s.
Proof.
  unfold strip_non_word. rewrite TokenizerFacts.sub_one_class.
  unfold strip_underscores, replace_char.
  induction s as [|c s IH]; [reflexivity|].
  cbn [map concat]. rewrite map_app, IH. clear IH.
  unfold kept, word_char. cbn [isalnum ascii_unicode].
  destruct (ascii_isalnum c) eqn:Ea.
  - rewrite (alnum_is_ascii c Ea). cbn [andb orb negb map app].
    now rewrite (alnum_not_underscore c Ea).
  - rewrite andb_false_r. cbn [orb].
    destruct (c =? underscore)%N eqn:Eu; cbn [negb map app].
    + now rewrite Eu.
    + reflexivity.
Qed.

Lemma kept_alnum c : ascii_isalnum c = true -> kept c = c.
Proof. intros H. unfold kept. now rewrite H. Qed.

Lemma kept_other c : ascii_isalnum c = false -> kept c = space.
Proof. intros H. unfold kept. now rewrite H. Qed.

Lemma kept_filter s :
  List.filter not_space (map kept s) = List.filter ascii_isalnum s.
Proof.
  induction s as [|c s IH]; [reflexivity|]. cbn [map List.filter].
  destruct (ascii_isalnum c) eqn:Ea.
  - now rewrite (kept_alnum c Ea), (alnum_not_space c Ea), IH.
  - rewrite (kept_other c Ea). exact IH.
Qed.

Lemma kept_classes s :
  forallb (fun c => ascii_isalnum c || (c =? space)%N) (map kept s) = true.
Proof.
  induction s as [|c s IH]; [reflexivity|]. cbn [map forallb]. rewrite IH.
  destruct (ascii_isalnum c) eqn:Ea.
  - now rewrite (kept_alnum c Ea), Ea.
  - now rewrite (kept_other c Ea).
Qed.

Lemma clean_inserts s :
  spaces_in (map kept s) (@clean_identifier ascii_unicode s).
Proof.
  unfold clean_identifier. rewrite steps_1_2.
  unfold split_letter_digit, split_digit_letter, split_camel, split_acronyms.
  repeat (eapply spaces_in_trans; [|apply sub_spaced_inserts; discriminate]).
  apply spaces_in_refl.
Qed.

Lemma clean_classes s :
  forallb (fun c => ascii_isalnum c || (c =? space)%N)
    (@clean_identifier ascii_unicode s) = true.
Proof.
  apply (spaces_in_forall _ _ _ eq_refl (clean_inserts s)), kept_classes.
Qed.

Lemma clean_no_digit_letter s :
  has_pair digit_09 letter_azAZ (@clean_identifier ascii_unicode s) = false.
Proof.
  unfold clean_identifier, split_letter_digit.
  eapply spaces_in_no_pair;
    [| |apply sub_spaced_inserts; discriminate|]; try reflexivity.
  apply sub_pair_no_pair; try reflexivity. apply letter_not_digit.
Qed.

Lemma clean_no_letter_digit s :
  has_pair letter_azAZ digit_09 (@clean_identifier ascii_unicode s) = false.
Proof.
  unfold clean_identifier.
  apply sub_pair_no_pair; try reflexivity. apply digit_not_letter.
Qed.

Lemma classes_ascii t :
  forallb (fun c => ascii_isalnum c || (c =? space)%N) t = true ->
  forallb is_ascii t = true.
Proof.
  intros H. apply forallb_forall. intros c Hc.
  rewrite forallb_forall in H. specialize (H c Hc).
  apply orb_true_iff in H as [H|H]; [now apply alnum_is_ascii|].
  apply N.eqb_eq in H as ->. reflexivity.
Qed.

Lemma classes_spaces t :
  forallb (fun c => ascii_isalnum c || (c =? space)%N) t = true ->
  List.filter (fun c => negb (@isspace ascii_unicode c)) t = List.filter not_space t.
Proof.
  induction t as [|c t IH]; intros H; [reflexivity|].
  cbn [forallb] in H. apply andb_true_iff in H as [Hc H].
  cbn [List.filter]. rewrite (IH H).
  apply orb_true_iff in Hc as [Hc|Hc].
  - cbn [isspace ascii_unicode].
    now rewrite (alnum_not_isspace c Hc), andb_false_r, (alnum_not_space c Hc).
  - apply N.eqb_eq in Hc as ->. reflexivity.
Qed.

(** A token of the ASCII tables: what [split] cut, before [lower]. *)
Lemma piece_shape s tok :
  tok ∈ @split ascii_unicode (@clean_identifier ascii_unicode s) ->
  tok <> [] /\ forallb is_ascii tok = true /\
  (forallb digit_09 tok = true \/ forallb letter_azAZ tok = true).
Proof.
  intros Hin. unfold split in Hin.
  pose proof (split_from_no_space _ [] tok eq_refl Hin) as Hns.
  apply split_from_tokens in Hin as (Hne & pre & post & E). cbn [app] in E.
  pose proof (clean_classes s) as Hc. rewrite E in Hc. apply forallb_factor in Hc.
  pose proof (clean_no_digit_letter s) as Hdl. rewrite E in Hdl.
  apply has_pair_factor in Hdl.
  pose proof (clean_no_letter_digit s) as Hld. rewrite E in Hld.
  apply has_pair_factor in Hld.
  split; [assumption|]. split; [now apply classes_ascii|].
  apply homogeneous; try assumption.
  apply forallb_forall. intros c Hin.
  rewrite forallb_forall in Hc, Hns. specialize (Hc c Hin). specialize (Hns c Hin).
  apply orb_true_iff in Hc as [Hc|Hc]; [assumption|].
  apply N.eqb_eq in Hc as ->. discriminate Hns.
Qed.

Lemma tokens_join s :
  concat (@tokenize ascii_unicode s) = map ascii_lower_char (List.filter ascii_isalnum s).
Proof.
  unfold tokenize. destruct s as [|c s]; [reflexivity|].
  change (@lower ascii_unicode) with (map ascii_lower_char).
  etransitivity; [symmetry; apply (concat_map ascii_lower_char)|]. f_equal.
  unfold split. rewrite split_from_concat. cbn [app].
  rewrite (classes_spaces _ (clean_classes _)).
  rewrite (spaces_in_filter _ _ (clean_inserts _)). apply kept_filter.
Qed.

Lemma token_shape s tok :
  tok ∈ @tokenize ascii_unicode s ->
  tok <> [] /\ (forallb digit_09 tok = true \/ forallb lower_az tok = true).
Proof.
  unfold tokenize. destruct s as [|c s]; [intros H; now apply elem_of_nil in H|].
  intros Hin. apply list_elem_of_fmap in Hin as (piece & -> & Hin).
  apply piece_shape in Hin as (Hne & _ & Hkind).
  change (@lower ascii_unicode piece) with (map ascii_lower_char piece).
  split; [now destruct piece|].
  destruct Hkind as [H|H]; [left|right]; rewrite forallb_forall in H;
    apply forallb_forall; intros x Hx; apply in_map_iff in Hx as (y & <- & Hy).
  - now apply lower_of_digit, H.
  - now apply lower_of_letter, H.
Qed.

(** On ASCII identifiers a runtime that agrees with CPython on ASCII gives
    the tokens of the ASCII tables. *)
Lemma tokenize_on_ascii {U : Unicode} (compatible : ascii_compatible U) s :
  forallb is_ascii s = true -> @tokenize U s = @tokenize ascii_unicode s.
Proof.
  intros Hs. apply (TokenizerFacts.tokenize_ascii compatible); [assumption| |].
  - apply classes_ascii, clean_classes.
  - apply forallb_forall. intros tok Hin. apply list_elem_of_In in Hin.
    now apply piece_shape in Hin as (_ & H & _).
Qed.

End TokenShapeFacts.

(** X19. The tokenizer only cuts and lowercases: on an ASCII identifier the
    tokens, joined, are the letters and digits of the identifier in their
    order, lowercased; nothing else is kept and nothing is lost.  There is
    no token exactly when the identifier has no letter and no digit. *)
Theorem tokens_join_to_alphanumerics {U : Unicode} (compatible : ascii_compatible U)
    (identifier : str) :
  forallb is_ascii identifier = true ->
  concat (IdentifierTokenizer.tokenize identifier)
    = map ascii_lower_char (List.filter ascii_isalnum identifier) /\
  (IdentifierTokenizer.tokenize identifier = [] <->
   List.filter ascii_isalnum identifier = []).
Proof.
  intros Hs. rewrite (TokenShapeFacts.tokenize_on_ascii compatible identifier Hs).
  pose proof (TokenShapeFacts.tokens_join identifier) as Hj.
  split; [exact Hj|]. split.
  - intros E. rewrite E in Hj. cbn [concat] in Hj.
    destruct (List.filter ascii_isalnum identifier); [reflexivity|discriminate].
  - intros E. rewrite E in Hj. cbn [map] in Hj.
    destruct (@IdentifierTokenizer.tokenize ascii_unicode identifier) as [|tok toks] eqn:Et;
      [reflexivity|].
    assert (Hin : tok ∈ @IdentifierTokenizer.tokenize ascii_unicode identifier)
      by (rewrite Et; apply list_elem_of_here).
    apply TokenShapeFacts.token_shape in Hin as [Hne _].
    cbn [concat] in Hj. apply app_eq_nil in Hj as [Hj _]. contradiction.
Qed.

Lemma tokens_join_to_alphanumerics_witness :
  concat (@IdentifierTokenizer.tokenize ascii_unicode (lit "get_HTTPResponse2xx!"))
    = map ascii_lower_char (List.filter ascii_isalnum (lit "get_HTTPResponse2xx!")) /\
  (@IdentifierTokenizer.tokenize ascii_unicode (lit "get_HTTPResponse2xx!") = [] <->
   List.filter ascii_isalnum (lit "get_HTTPResponse2xx!") = []).
Proof.
  apply (@tokens_join_to_alphanumerics ascii_unicode
           TokenizerFacts.ascii_unicode_compatible (lit "get_HTTPResponse2xx!")).
  reflexivity.
Defined.

(** X20. Every token of an ASCII identifier is a non-empty run of digits or
    a non-empty run of lowercase letters: no token is empty, none mixes
    letters with digits, and none has an uppercase letter, an underscore, a
    space or punctuation. *)
Theorem tokens_are_words_or_numbers {U : Unicode} (compatible : ascii_compatible U)
    (identifier token : str) :
  forallb is_ascii identifier = true ->
  token ∈ IdentifierTokenizer.tokenize identifier ->
  token <> [] /\
  (forallb digit_09 token = true \/ forallb lower_az token = true).
Proof.
  intros Hs. rewrite (TokenShapeFacts.tokenize_on_ascii compatible identifier Hs).
  apply TokenShapeFacts.token_shape.
Qed.

Lemma tokens_are_words_or_numbers_witness :
  lit "2" ∈ @IdentifierTokenizer.tokenize ascii_unicode (lit "XMLHttpRequest2") /\
  lit "2" <> [] /\
  (forallb digit_09 (lit "2") = true \/ forallb lower_az (lit "2") = true).
Proof.
  assert (Hin : lit "2"
                ∈ @IdentifierTokenizer.tokenize ascii_unicode (lit "XMLHttpRequest2")).
  { vm_compute. do 3 apply list_elem_of_further. apply list_elem_of_here. }
  split; [exact Hin|].
  apply (@tokens_are_words_or_numbers ascii_unicode
           TokenizerFacts.ascii_unicode_compatible (lit "XMLHttpRequest2") (lit "2"));
    [reflexivity|exact Hin].
Defined.

(** X21. Separators are interchangeable: two ASCII identifiers of the same
    length that agree wherever either has a letter or a digit (so that they
    differ only in which underscore, space or punctuation character stands at
    a position) have the same tokens. *)
Theorem separators_are_interchangeable {U : Unicode} (compatible : ascii_compatible U)
    (s1 s2 : str) :
  forallb is_ascii s1 = true -> forallb is_ascii s2 = true ->
  Forall2 (fun c1 c2 =>
             c1 = c2 \/ (ascii_isalnum c1 = false /\ ascii_isalnum c2 = false)) s1 s2 ->
  IdentifierTokenizer.tokenize s1 = IdentifierTokenizer.tokenize s2.
Proof.
  intros H1 H2 Hsame.
  rewrite !(TokenShapeFacts.tokenize_on_ascii compatible) by assumption.
  assert (Ek : map TokenShape.kept s1 = map TokenShape.kept s2).
  { clear H1 H2. induction Hsame as [|c1 c2 s1 s2 Hc _ IH]; [reflexivity|].
    cbn [map]. rewrite IH. f_equal.
    destruct Hc as [->|[E1 E2]]; [reflexivity|].
    now rewrite (TokenShapeFacts.kept_other c1 E1), (TokenShapeFacts.kept_other c2 E2). }
  unfold IdentifierTokenizer.tokenize.
  destruct Hsame as [|c1 c2 s1 s2 _ _]; [reflexivity|].
  unfold IdentifierTokenizer.clean_identifier.
  now rewrite !TokenShapeFacts.steps_1_2, Ek.
Qed.

Lemma separators_are_interchangeable_witness :
  @IdentifierTokenizer.tokenize ascii_unicode (lit "user_id-2")
  = @IdentifierTokenizer.tokenize ascii_unicode (lit "user.id 2").
Proof.
  apply (@separators_are_interchangeable ascii_unicode
           TokenizerFacts.ascii_unicode_compatible (lit "user_id-2") (lit "user.id 2"));
    try reflexivity.
  repeat (apply List.Forall2_cons;
          [first [left; reflexivity | right; split; reflexivity]|]).
  apply List.Forall2_nil.
Defined.

(** ** The progress bar *)

Module ProgressFacts.
Import ConsoleProgressBar.

Lemma rint_between a b x :
  (inject_Z a <= x)%Q -> (x <= inject_Z b)%Q -> a <= Binary64.rint x <= b.
Proof.
  intros Ha Hb.
  destruct (Binary64Facts.rint_nearest x a) as [_ H1].
  destruct (Binary64Facts.rint_nearest x b) as [H2 _].
  specialize (H1 Ha). specialize (H2 Hb).
  rewrite !Zle_Qle. split; [apply H1|apply H2].
Qed.

Lemma int_of_float_between a b x :
  0 <= a -> (inject_Z a <= x)%Q -> (x <= inject_Z b)%Q -> a <= int_of_float x <= b.
Proof.
  intros H0 Ha Hb. unfold int_of_float.
  assert (Hx : (0 <= x)%Q).
  { apply Qle_trans with (inject_Z a); [|assumption].
    change 0%Q with (inject_Z 0). now rewrite <- Zle_Qle. }
  apply Qle_bool_iff in Hx. rewrite Hx.
  rewrite <- (Qfloor_Z a), <- (Qfloor_Z b).
  split; now apply Qfloor_resp_le.
Qed.

Lemma len_times c n : 0 <= n -> len (times c n) = n.
Proof. intros Hn. unfold len, times. rewrite repeat_length. lia. Qed.

Lemma times_nonpositive c n : n <= 0 -> times c n = [].
Proof.
  intros Hn. unfold times. replace (Z.to_nat n) with 0%nat by lia. reflexivity.
Qed.

Section Bar.
Context {F : Float}.
Hypothesis faithful : faithful_rounding F.

(** The fraction of the work done, as the bar computes it. *)
Lemma fraction_unit cur tot :
  0 <= cur <= tot -> 0 < tot ->
  exists p,
    fdiv (of_int cur) (of_int tot) = Ok p /\ Closed.unit_interval p /\
    (cur = tot -> (p == 1)%Q) /\ (cur = 0 -> (p == 0)%Q).
Proof.
  intros Hc Ht. unfold fdiv.
  rewrite (ProcessFacts.of_int_positive faithful tot Ht).
  eexists. split; [reflexivity|].
  assert (Hd : (1 <= of_int tot)%Q).
  { unfold of_int. apply Qle_trans with (rnd 1).
    - pose proof (EvaluatorFacts.rnd_1 faithful). lra.
    - apply (EvaluatorFacts.rnd_mono faithful).
      change 1%Q with (inject_Z 1). rewrite <- Zle_Qle. lia. }
  assert (Hn0 : (0 <= of_int cur)%Q).
  { unfold of_int. apply (EvaluatorFacts.rnd_nonneg faithful).
    change 0%Q with (inject_Z 0). rewrite <- Zle_Qle. lia. }
  assert (Hn1 : (of_int cur <= of_int tot)%Q).
  { unfold of_int. apply (EvaluatorFacts.rnd_mono faithful).
    rewrite <- Zle_Qle. lia. }
  split; [|split].
  - apply (EvaluatorFacts.rnd_unit faithful). split.
    + apply Qle_shift_div_l; lra.
    + apply Qle_shift_div_r; lra.
  - intros ->. pose proof (EvaluatorFacts.rnd_1 faithful) as R1.
    assert (E : (of_int tot / of_int tot == 1)%Q) by (field; lra).
    apply Qle_antisym.
    + apply Qle_trans with (rnd 1); [|lra].
      apply (EvaluatorFacts.rnd_mono faithful). lra.
    + apply Qle_trans with (rnd 1); [lra|].
      apply (EvaluatorFacts.rnd_mono faithful). lra.
  - intros ->. pose proof (EvaluatorFacts.rnd_0 faithful) as R0.
    assert (E0 : (of_int 0 == 0)%Q) by exact R0.
    assert (E : (of_int 0 / of_int tot == 0)%Q) by (rewrite E0; field; lra).
    apply Qle_antisym.
    + apply Qle_trans with (rnd 0); [|lra].
      apply (EvaluatorFacts.rnd_mono faithful). lra.
    + apply Qle_trans with (rnd 0); [lra|].
      apply (EvaluatorFacts.rnd_mono faithful). lra.
Qed.

(** A fraction of a whole number that rounding leaves alone. *)
Lemma scaled_between p n :
  0 <= n -> (rnd (inject_Z n) == inject_Z n)%Q ->
  Closed.unit_interval p ->
  (0 <= fmul p (of_int n) /\ fmul p (of_int n) <= inject_Z n)%Q /\
  ((p == 1)%Q -> (fmul p (of_int n) == inject_Z n)%Q) /\
  ((p == 0)%Q -> (fmul p (of_int n) == 0)%Q).
Proof.
  intros Hn Hfix [H0 H1]. unfold fmul, of_int.
  assert (Hn' : (0 <= inject_Z n)%Q).
  { change 0%Q with (inject_Z 0). now rewrite <- Zle_Qle. }
  assert (Hlo : (0 <= p * rnd (inject_Z n))%Q) by nra.
  assert (Hhi : (p * rnd (inject_Z n) <= inject_Z n)%Q) by nra.
  split; [split|split].
  - now apply (EvaluatorFacts.rnd_nonneg faithful).
  - apply Qle_trans with (rnd (inject_Z n)); [|lra].
    now apply (EvaluatorFacts.rnd_mono faithful).
  - intros E. assert (Ev : (p * rnd (inject_Z n) == inject_Z n)%Q) by nra.
    apply Qle_antisym.
    + apply Qle_trans with (rnd (inject_Z n)); [|lra].
      apply (EvaluatorFacts.rnd_mono faithful). lra.
    + apply Qle_trans with (rnd (inject_Z n)); [lra|].
      apply (EvaluatorFacts.rnd_mono faithful). lra.
  - intros E. assert (Ev : (p * rnd (inject_Z n) == 0)%Q) by nra.
    pose proof (EvaluatorFacts.rnd_0 faithful) as R0.
    apply Qle_antisym.
    + apply Qle_trans with (rnd 0); [|lra].
      apply (EvaluatorFacts.rnd_mono faithful). lra.
    + apply Qle_trans with (rnd 0); [lra|].
      apply (EvaluatorFacts.rnd_mono faithful). lra.
Qed.
End Bar.

End ProgressFacts.

(** X22. The progress bar: nothing is written when there is no item; for
    a count between 0 and the total, under a faithful rounding that leaves
    the bar length and 100 alone, the call raises nothing, the bar is exactly
    bar_length characters wide, a run of '#' followed by a run of '-', the
    percentage lies between 0 and 100, the bar is full and the percentage 100
    at the last item, and the bar is empty and the percentage 0 at count 0. *)
Theorem progress_bar_is_bar_length_wide {F : Float} (faithful : faithful_rounding F)
    (self : ConsoleProgressBar.t) (current_item_index : Z) (now : Q) :
  0 <= ConsoleProgressBar.bar_length self ->
  (rnd (inject_Z (ConsoleProgressBar.bar_length self))
   == inject_Z (ConsoleProgressBar.bar_length self))%Q ->
  (rnd (inject_Z 100) == inject_Z 100)%Q ->
  (ConsoleProgressBar.total_items self = 0 ->
   ConsoleProgressBar.update self current_item_index now = Ok None) /\
  (0 < ConsoleProgressBar.total_items self ->
   0 <= current_item_index <= ConsoleProgressBar.total_items self ->
   exists l,
     ConsoleProgressBar.update self current_item_index now = Ok (Some l) /\
     len (ConsoleProgressBar.bar l) = ConsoleProgressBar.bar_length self /\
     (exists k,
        0 <= k <= ConsoleProgressBar.bar_length self /\
        ConsoleProgressBar.bar l
        = ConsoleProgressBar.times ConsoleProgressBar.hash k
          ++ ConsoleProgressBar.times ConsoleProgressBar.dash
               (ConsoleProgressBar.bar_length self - k)) /\
     0 <= ConsoleProgressBar.percent l <= 100 /\
     (current_item_index = ConsoleProgressBar.total_items self ->
      ConsoleProgressBar.bar l
      = ConsoleProgressBar.times ConsoleProgressBar.hash
          (ConsoleProgressBar.bar_length self) /\
      ConsoleProgressBar.percent l = 100) /\
     (current_item_index = 0 ->
      ConsoleProgressBar.bar l
      = ConsoleProgressBar.times ConsoleProgressBar.dash
          (ConsoleProgressBar.bar_length self) /\
      ConsoleProgressBar.percent l = 0)).
Proof.
  intros Hbl Hfix Hfix100. unfold ConsoleProgressBar.update. split.
  - intros ->. reflexivity.
  - intros Ht Hc.
    replace (ConsoleProgressBar.total_items self =? 0) with false
      by (symmetry; apply Z.eqb_neq; lia).
    destruct (ProgressFacts.fraction_unit faithful current_item_index
                (ConsoleProgressBar.total_items self) Hc Ht)
      as (p & -> & Hp & Hfull & Hnone).
    cbn [mbind result_bind].
    destruct (ProgressFacts.scaled_between faithful p
                (ConsoleProgressBar.bar_length self) Hbl Hfix Hp)
      as ([Hb0 Hb1] & Hbfull & Hbnone).
    destruct (ProgressFacts.scaled_between faithful p 100 ltac:(lia) Hfix100 Hp)
      as ([Hp0 Hp1] & Hpfull & Hpnone).
    set (k := Binary64.rint (fmul p (of_int (ConsoleProgressBar.bar_length self)))) in *.
    assert (Hk : 0 <= k <= ConsoleProgressBar.bar_length self)
      by (apply ProgressFacts.rint_between; assumption).
    eexists. split; [reflexivity|].
    cbn [ConsoleProgressBar.bar ConsoleProgressBar.percent].
    rewrite (ProgressFacts.len_times _ k) by lia.
    split; [|split; [|split; [|split]]].
    + unfold len. rewrite length_app. fold (len (ConsoleProgressBar.times ConsoleProgressBar.hash k)).
      fold (len (ConsoleProgressBar.times ConsoleProgressBar.dash
                   (ConsoleProgressBar.bar_length self - k))).
      rewrite Nat2Z.inj_add.
      fold (len (ConsoleProgressBar.times ConsoleProgressBar.hash k)).
      fold (len (ConsoleProgressBar.times ConsoleProgressBar.dash
                   (ConsoleProgressBar.bar_length self - k))).
      rewrite !ProgressFacts.len_times by lia. lia.
    + exists k. split; [assumption|reflexivity].
    + apply ProgressFacts.int_of_float_between; [lia|exact Hp0|exact Hp1].
    + intros E. specialize (Hbfull (Hfull E)). specialize (Hpfull (Hfull E)).
      assert (Ek : k = ConsoleProgressBar.bar_length self).
      { assert (ConsoleProgressBar.bar_length self <= k
                <= ConsoleProgressBar.bar_length self); [|lia].
        apply ProgressFacts.rint_between; lra. }
      rewrite Ek, Z.sub_diag.
      rewrite (ProgressFacts.times_nonpositive _ 0) by lia. rewrite app_nil_r.
      split; [reflexivity|].
      assert (100 <= ConsoleProgressBar.int_of_float (fmul p (of_int 100)) <= 100); [|lia].
      apply ProgressFacts.int_of_float_between; [lia|lra|lra].
    + intros E. specialize (Hbnone (Hnone E)). specialize (Hpnone (Hnone E)).
      assert (Ek : k = 0).
      { assert (0 <= k <= 0); [|lia].
        apply ProgressFacts.rint_between; change (inject_Z 0) with 0%Q; lra. }
      rewrite Ek, Z.sub_0_r.
      rewrite (ProgressFacts.times_nonpositive _ 0) by lia. cbn [app].
      split; [reflexivity|].
      assert (0 <= ConsoleProgressBar.int_of_float (fmul p (of_int 100)) <= 0); [|lia].
      apply ProgressFacts.int_of_float_between;
        [lia|change (inject_Z 0) with 0%Q; lra|change (inject_Z 0) with 0%Q; lra].
Qed.

Lemma progress_bar_is_bar_length_wide_witness :
  let self := @ConsoleProgressBar.new 3 50 0 in
  (ConsoleProgressBar.total_items self = 0 ->
   @ConsoleProgressBar.update binary64 self 2 1 = Ok None) /\
  (0 < ConsoleProgressBar.total_items self ->
   0 <= 2 <= ConsoleProgressBar.total_items self ->
   exists l,
     @ConsoleProgressBar.update binary64 self 2 1 = Ok (Some l) /\
     len (ConsoleProgressBar.bar l) = ConsoleProgressBar.bar_length self /\
     (exists k,
        0 <= k <= ConsoleProgressBar.bar_length self /\
        ConsoleProgressBar.bar l
        = ConsoleProgressBar.times ConsoleProgressBar.hash k
          ++ ConsoleProgressBar.times ConsoleProgressBar.dash
               (ConsoleProgressBar.bar_length self - k)) /\
     0 <= ConsoleProgressBar.percent l <= 100 /\
     (2 = ConsoleProgressBar.total_items self ->
      ConsoleProgressBar.bar l
      = ConsoleProgressBar.times ConsoleProgressBar.hash
          (ConsoleProgressBar.bar_length self) /\
      ConsoleProgressBar.percent l = 100) /\
     (2 = 0 ->
      ConsoleProgressBar.bar l
      = ConsoleProgressBar.times ConsoleProgressBar.dash
          (ConsoleProgressBar.bar_length self) /\
      ConsoleProgressBar.percent l = 0)).
Proof.
  intros self.
  apply (@progress_bar_is_bar_length_wide binary64 binary64_faithful self 2 1).
  - cbn. lia.
  - vm_compute. reflexivity.
  - vm_compute. reflexivity.
Defined.

(** ** Edit similarity on binary64 *)

Module Binary64Similarity.

Lemma small_representable : Binary64.representable (1 # 9007199254740992).
Proof.
  exists 1, (-53). split; [vm_compute; reflexivity|].
  split; [unfold Binary64.emin; lia|]. vm_compute. reflexivity.
Qed.

Lemma below_one_representable :
  Binary64.representable (9007199254740991 # 9007199254740992).
Proof.
  exists 9007199254740991, (-53). split; [vm_compute; reflexivity|].
  split; [unfold Binary64.emin; lia|]. vm_compute. reflexivity.
Qed.

(** A ratio [d / M] with [1 <= d] and [M <= 2^53] is not rounded to 0, and
    1 minus its rounding is rounded below 1. *)
Lemma similarity_below_one d M :
  1 <= d -> 0 < M -> M <= 2 ^ 53 ->
  (@rnd binary64 (1 - @rnd binary64 (inject_Z d / inject_Z M)) < 1)%Q.
Proof.
  intros Hd HM Hmax. cbn [rnd binary64].
  assert (HM' : (0 < inject_Z M)%Q).
  { change 0%Q with (inject_Z 0). now rewrite <- Zlt_Qlt. }
  assert (Hq : ((1 # 9007199254740992) <= inject_Z d / inject_Z M)%Q).
  { apply Qle_shift_div_l; [assumption|].
    apply Qle_trans with 1%Q.
    - assert (HMq : (inject_Z M <= inject_Z (2 ^ 53))%Q) by now rewrite <- Zle_Qle.
      change (inject_Z (2 ^ 53)) with (9007199254740992 # 1)%Q in HMq.
      apply Qle_trans with ((1 # 9007199254740992) * (9007199254740992 # 1))%Q.
      + apply Qmult_le_l; [reflexivity|assumption].
      + vm_compute. discriminate.
    - change 1%Q with (inject_Z 1). now rewrite <- Zle_Qle. }
  apply Binary64Facts.round64_monotone in Hq.
  rewrite (Binary64Facts.round64_exact _ small_representable) in Hq.
  assert (Hs : (1 - Binary64.round64 (inject_Z d / inject_Z M)
                <= 9007199254740991 # 9007199254740992)%Q).
  { assert (E : (1 - (1 # 9007199254740992) == 9007199254740991 # 9007199254740992)%Q)
      by (vm_compute; reflexivity).
    lra. }
  apply Binary64Facts.round64_monotone in Hs.
  rewrite (Binary64Facts.round64_exact _ below_one_representable) in Hs.
  apply Qle_lt_trans with (9007199254740991 # 9007199254740992)%Q; [exact Hs|].
  vm_compute. reflexivity.
Qed.

End Binary64Similarity.

(** X23. On binary64 floats, for strings of at most 2^53 characters, the
    edit similarity the evaluator returns is 1 only when the two strings are
    the same: edit_similarity = 1 exactly when exact_match = 1. *)
Theorem similarity_one_only_when_equal {U : Unicode} (ground_truth prediction : str) :
  Z.max (len ground_truth) (len prediction) <= 2 ^ 53 ->
  exists m,
    @RenamePredictionEvaluator.run U binary64 ground_truth prediction = Ok m /\
    ((edit_similarity m == 1)%Q <-> ground_truth = prediction) /\
    (exact_match m = 1 <-> ground_truth = prediction).
Proof.
  intros Hlen. eexists. split; [apply TierFacts.run_evaluated|].
  unfold Derived.evaluated. cbn [edit_similarity exact_match].
  unfold Closed.similarity_value.
  destruct (decide (ground_truth = prediction)) as [E|Hne].
  - split; split; trivial; reflexivity.
  - assert (Hd : 1 <= Levenshtein.lev ground_truth prediction).
    { pose proof (LevenshteinFacts.lev_nonneg ground_truth prediction).
      destruct (Z.eq_dec (Levenshtein.lev ground_truth prediction) 0) as [E0|]; [|lia].
      now apply MetricFacts.lev_zero in E0. }
    pose proof (LevenshteinFacts.lev_le_max ground_truth prediction) as Hmax.
    replace (Z.max (len ground_truth) (len prediction) =? 0) with false
      by (symmetry; apply Z.eqb_neq; lia).
    split; split; try contradiction; try discriminate.
    intros E1.
    pose proof (Binary64Similarity.similarity_below_one
                  (Levenshtein.lev ground_truth prediction)
                  (Z.max (len ground_truth) (len prediction))
                  Hd ltac:(lia) Hlen) as Hlt.
    rewrite E1 in Hlt. now apply Qlt_irrefl in Hlt.
Qed.

Lemma similarity_one_only_when_equal_witness :
  exists m,
    @RenamePredictionEvaluator.run ascii_unicode binary64 (lit "userId") (lit "userID")
      = Ok m /\
    ((edit_similarity m == 1)%Q <-> lit "userId" = lit "userID") /\
    (exact_match m = 1 <-> lit "userId" = lit "userID").
Proof.
  apply (@similarity_one_only_when_equal ascii_unicode (lit "userId") (lit "userID")).
  vm_compute. discriminate.
Defined.

(** ** Records without ground truth or without candidates, and the warnings *)

Module EdgeFacts.
Import Reference Closed BatchResultProcessor Derived TierFacts RecordFacts.

Lemma new_name_not_suggestions : k_new_name <> k_suggestions.
Proof. intros H. vm_compute in H. discriminate H. Qed.






End EdgeFacts.

(** X24. A record whose new_name is missing or null is not skipped: it is
    scored against the empty string, as a record whose new_name is the empty
    string would be. *)
Theorem missing_ground_truth_scores_as_empty {U : Unicode} {F : Float} {P : Repr}
    (index : Z) (d : gmap str json) :
  d !! k_new_name = None \/ d !! k_new_name = Some JNull ->
  exists item item' m1 m5 w,
    BatchResultProcessor.process_item index (JDict d) = Ok (item, m1, m5, w) /\
    BatchResultProcessor.process_item index (JDict (<[k_new_name := JStr []]> d))
      = Ok (item', m1, m5, w) /\
    BatchResultProcessor.ground_truth_of (JDict d) = Ok [].
Proof.
  intros Hd. rewrite !RecordFacts.process_item_spec.
  assert (Eg : Derived.record_ground_truth d = []).
  { unfold Derived.record_ground_truth. now destruct Hd as [-> | ->]. }
  assert (Eg' : Derived.record_ground_truth (<[k_new_name := JStr []]> d) = []).
  { unfold Derived.record_ground_truth. now rewrite lookup_insert_eq. }
  assert (Es : Derived.record_suggestions (<[k_new_name := JStr []]> d)
               = Derived.record_suggestions d).
  { unfold Derived.record_suggestions.
    now rewrite lookup_insert_ne by apply EdgeFacts.new_name_not_suggestions. }
  do 5 eexists. split; [reflexivity|]. split.
  - cbn [Derived.record_metrics fst snd]. rewrite Eg, Eg', Es. reflexivity.
  - unfold BatchResultProcessor.ground_truth_of. cbn [py_get mbind result_bind].
    now destruct Hd as [-> | ->].
Qed.

Lemma missing_ground_truth_scores_as_empty_witness :
  exists item item' m1 m5 w,
    @BatchResultProcessor.process_item ascii_unicode binary64 sample_repr 0
      (JDict {[ k_suggestions := JList [named "a"] ]}) = Ok (item, m1, m5, w) /\
    @BatchResultProcessor.process_item ascii_unicode binary64 sample_repr 0
      (JDict (<[k_new_name := JStr []]> {[ k_suggestions := JList [named "a"] ]}))
      = Ok (item', m1, m5, w) /\
    @BatchResultProcessor.ground_truth_of sample_repr
      (JDict {[ k_suggestions := JList [named "a"] ]}) = Ok [].
Proof.
  apply (@missing_ground_truth_scores_as_empty ascii_unicode binary64 sample_repr 0
           {[ k_suggestions := JList [named "a"] ]}).
  left. apply lookup_singleton_ne. intros H. vm_compute in H. discriminate H.
Defined.

(** X25. Without a valid candidate there is no score: when the suggestions
    value is not a list, or none of the first five entries of the list is
    valid, both the top-1 and the top-5 metric are the all-zero tuple and
    nothing is raised. *)
Theorem no_valid_candidate_scores_zero {U : Unicode} {F : Float} {P : Repr}
    (ground_truth : str) (raw_suggestions : json) (index : Z) :
  match raw_suggestions with
  | JList l => omap Reference.valid_name (take 5 l) = []
  | _ => True
  end ->
  BatchResultProcessor.top_5_of ground_truth raw_suggestions index
    = Ok MetricResult_.empty /\
  exists w,
    BatchResultProcessor.top_1_of ground_truth raw_suggestions index
      = Ok (MetricResult_.empty, w).
Proof.
  intros H. rewrite TierFacts.top_5_of_spec, TierFacts.top_1_of_spec.
  assert (Ec : Derived.candidates raw_suggestions = []).
  { unfold Derived.candidates. now destruct raw_suggestions. }
  split.
  - unfold Derived.top_5_value. now rewrite Ec.
  - eexists. f_equal. f_equal. unfold Derived.top_1_value.
    destruct raw_suggestions as [| | | | |[|first rest]|d]; try reflexivity.
    cbn [take omap list_omap] in H.
    destruct (Reference.valid_name first); [discriminate|reflexivity].
Qed.

Lemma no_valid_candidate_scores_zero_witness :
  @BatchResultProcessor.top_5_of ascii_unicode binary64 sample_repr
    (lit "userId") (JList [JNull; JInt 3]) 0 = Ok MetricResult_.empty /\
  exists w,
    @BatchResultProcessor.top_1_of ascii_unicode binary64 sample_repr
      (lit "userId") (JList [JNull; JInt 3]) 0 = Ok (MetricResult_.empty, w).
Proof.
  apply (@no_valid_candidate_scores_zero ascii_unicode binary64 sample_repr
           (lit "userId") (JList [JNull; JInt 3]) 0).
  reflexivity.
Defined.




